(** * Neural-network training visualisation: the network model, the projection
      engine, the scene builder and the turbo scheduler of
      [src/components/NetworkGame.tsx], embedded and verified.

    JavaScript numbers are modelled in exact arithmetic: a [number] is a
    rational, one of the two infinities, or NaN.  The special values follow
    the IEEE-754 rules the code relies on ([isFinite], NaN propagation,
    division by zero); rounding, overflow of finite operands and the sign of
    zero are not modelled.  The engine's transcendental built-ins
    ([Math.exp], [Math.tanh], [Math.sqrt], [Math.sin], [Math.cos], [Math.PI],
    [Math.random]) are parameters of the development. *)

From stdpp Require Import list.
From Stdlib Require Import ZArith QArith Qreduction Qabs Sorted Lia Lqa.

Local Open Scope Z_scope.

(** ** JavaScript numbers *)

Module JS.

Inductive number : Type :=
| NaN : number
| Inf (negative : bool) : number
| Num (q : Q) : number.

Definition Infinity : number := Inf false.

(** A numeric literal, kept in lowest terms. *)
Definition lit (q : Q) : number := Num (Qred q).

(** An integer used as a number ([layerIdx * layerSpacing], loop counters). *)
Definition of_Z (z : Z) : number := Num (inject_Z z).
Definition of_nat (n : nat) : number := of_Z (Z.of_nat n).

Definition Qis_zero (q : Q) : bool := Qnum q =? 0.
Definition Qis_neg (q : Q) : bool := Qnum q <? 0.
Definition Qltb (x y : Q) : bool := Qnum x * QDen y <? Qnum y * QDen x.

Definition add (a b : number) : number :=
  match a, b with
  | NaN, _ | _, NaN => NaN
  | Inf s, Inf t => if Bool.eqb s t then Inf s else NaN
  | Inf s, Num _ | Num _, Inf s => Inf s
  | Num x, Num y => Num (Qred (x + y))
  end.

Definition neg (a : number) : number :=
  match a with
  | NaN => NaN
  | Inf s => Inf (negb s)
  | Num x => Num (Qred (- x))
  end.

Definition sub (a b : number) : number :=
  match a, b with
  | NaN, _ | _, NaN => NaN
  | Inf s, Inf t => if Bool.eqb s t then NaN else Inf s
  | Inf s, Num _ => Inf s
  | Num _, Inf t => Inf (negb t)
  | Num x, Num y => Num (Qred (x - y))
  end.

Definition mul (a b : number) : number :=
  match a, b with
  | NaN, _ | _, NaN => NaN
  | Inf s, Inf t => Inf (xorb s t)
  | Inf s, Num y | Num y, Inf s =>
      if Qis_zero y then NaN else Inf (xorb s (Qis_neg y))
  | Num x, Num y => Num (Qred (x * y))
  end.

(** Division; the only zero of the model counts as [+0], so [x / 0] is
    [+Infinity] for positive [x]. *)
Definition div (a b : number) : number :=
  match a, b with
  | NaN, _ | _, NaN => NaN
  | Inf _, Inf _ => NaN
  | Inf s, Num y => Inf (xorb s (Qis_neg y))
  | Num _, Inf _ => Num 0
  | Num x, Num y =>
      if Qis_zero y
      then (if Qis_zero x then NaN else Inf (Qis_neg x))
      else Num (Qred (x / y))
  end.

(** [a < b]; every comparison with NaN is false. *)
Definition lt (a b : number) : bool :=
  match a, b with
  | NaN, _ | _, NaN => false
  | Inf s, Inf t => s && negb t
  | Inf s, Num _ => s
  | Num _, Inf t => negb t
  | Num x, Num y => Qltb x y
  end.

Definition gt (a b : number) : bool := lt b a.

(** [a <= b] and [a >= b]. *)
Definition le (a b : number) : bool :=
  match a, b with
  | NaN, _ | _, NaN => false
  | _, _ => negb (lt b a)
  end.

Definition ge (a b : number) : bool := le b a.

Definition isNaN (a : number) : bool :=
  match a with NaN => true | _ => false end.

(** The global [isFinite]. *)
Definition isFinite (a : number) : bool :=
  match a with Num _ => true | _ => false end.

(** [Math.max(a, b)] and [Math.min(a, b)]: NaN if either argument is. *)
Definition Math_max (a b : number) : number :=
  match a, b with
  | NaN, _ | _, NaN => NaN
  | _, _ => if lt a b then b else a
  end.

Definition Math_min (a b : number) : number :=
  match a, b with
  | NaN, _ | _, NaN => NaN
  | _, _ => if lt b a then b else a
  end.

(** [Math.pow(x, 2)]. *)
Definition Math_pow2 (x : number) : number := mul x x.

(** [v || 0] on a number: NaN and zero are falsy. *)
Definition or0 (a : number) : number :=
  match a with
  | NaN => Num 0
  | Num q => if Qis_zero q then Num 0 else a
  | Inf _ => a
  end.

(** [l[i]] read in an arithmetic context: a missing element is
    [undefined], which arithmetic turns into NaN. *)
Definition at_ (l : list number) (i : nat) : number := default NaN (l !! i).

End JS.

Export JS.

Declare Scope js_scope.
Delimit Scope js_scope with js.
Bind Scope js_scope with number.
Infix "+" := add : js_scope.
Infix "-" := sub : js_scope.
Infix "*" := mul : js_scope.
Infix "/" := div : js_scope.
Notation "- x" := (neg x) : js_scope.
Infix "<?" := lt : js_scope.
Infix ">?" := gt (at level 70) : js_scope.
Infix ">=?" := ge (at level 70) : js_scope.
Infix "<=?" := le : js_scope.

From stdpp Require Import strings gmap.

Local Open Scope js_scope.

(** ** Exceptions

    The constructor raises the [RangeError] of [new Array(n)] on an invalid
    length.  [forward], and with it [train], raises a [TypeError] on an
    input with more entries than the input layer has units; the functions
    below give the result of the calls that do not raise, and
    [forward_raises] says which do. *)

Inductive Result (A : Type) : Type :=
| Ok (a : A)
| Throw_RangeError.
Arguments Ok {A} a.
Arguments Throw_RangeError {A}.

Definition bind {A B} (r : Result A) (k : A -> Result B) : Result B :=
  match r with
  | Ok a => k a
  | Throw_RangeError => Throw_RangeError
  end.

Notation "x <- r ;; k" := (bind r (fun x => k))
  (at level 100, r at next level, right associativity).

(** What a call ends in that can also raise a [TypeError], the exception
    of a property read on [undefined]. *)
Inductive Outcome (A : Type) : Type :=
| Returns (a : A)
| Throws_RangeError
| Throws_TypeError.
Arguments Returns {A} a.
Arguments Throws_RangeError {A}.
Arguments Throws_TypeError {A}.

(** [new Array(n).fill(0)]. *)
Definition new_Array_fill0 (n : Z) : Result (list number) :=
  if ((0 <=? n) && (n <? 2 ^ 32))%Z
  then Ok (replicate (Z.to_nat n) (Num 0))
  else Throw_RangeError.

(** [arr[i] = v] on an array of arrays: replaces element [i]; at
    [i = arr.length] it appends.  (Beyond the length JavaScript leaves holes;
    the code below only ever writes at an index at most the length.) *)
Definition array_set {A} (arr : list A) (i : nat) (v : A) : list A :=
  if decide (i < length arr)%nat then <[i:=v]> arr else arr ++ [v].

(** [m[k]] for a matrix; a missing row reads as the empty row. *)
Definition row (m : list (list number)) (k : nat) : list number :=
  default [] (m !! k).

(** [sizes[i]] used as a loop bound: a missing or negative size runs the
    loop zero times. *)
Definition bound (sizes : list Z) (i : nat) : nat :=
  Z.to_nat (default 0%Z (sizes !! i)).

(** ** Component state read by the projection engine and the scene builder *)

Record LayerDim : Type := { rows : Z; cols : Z }.

(** [cameraAngle = { h, v }] in degrees, and [viewOffset = { x, y }]. *)
Record CameraAngle : Type := { cam_h : number; cam_v : number }.
Record ViewOffset : Type := { off_x : number; off_y : number }.

Record View : Type := {
  layerDims : list LayerDim;
  cameraAngle : CameraAngle;
  viewScale : number;
  viewOffset : ViewOffset;
  isOrtho : bool
}.

(** The object [project3D] returns: [{ x, y, scale, depth }]. *)
Record ScreenPos : Type := {
  pos_x : number; pos_y : number; pos_scale : number; pos_depth : number
}.

(** [displayStats], the snapshot of the network the scene is drawn from. *)
Record DisplayStats : Type := {
  ds_values : list (list number);
  ds_weights : list (list (list number));
  ds_deltas : list (list (list number));
  ds_biases : list (list number);
  ds_preActivations : list (list number);
  ds_loss : number
}.

(** A render item; the last field of every variant is its [depth]. *)
Inductive RenderItem : Type :=
| NODE (lIdx flatIdx : nat) (isInput isOutput : bool) (pos : ScreenPos)
       (value bias : number) (depth : number)
| LAYER_CONTROL (lIdx : nat) (pos : ScreenPos) (depth : number)
| ACTIVATION_CONTROL (lIdx : nat) (pos : ScreenPos) (depth : number)
| LINK (lIdx fromFlat toFlat : nat) (fromPos toPos : ScreenPos)
       (w delta : number) (depth : number).

Definition item_depth (item : RenderItem) : number :=
  match item with
  | NODE _ _ _ _ _ _ _ d => d
  | LAYER_CONTROL _ _ d => d
  | ACTIVATION_CONTROL _ _ d => d
  | LINK _ _ _ _ _ _ _ d => d
  end.

(** [Array.prototype.sort(compare)] as a stable insertion sort: an element
    is placed before the first element that the comparator orders after it.
    For a comparator that is a consistent ordering, ECMAScript fixes the
    result to be this one. *)
Fixpoint sort_insert {A} (compare : A -> A -> number) (x : A) (l : list A)
  : list A :=
  match l with
  | [] => [x]
  | y :: l' =>
      if compare y x >? lit 0 then x :: y :: l'
      else y :: sort_insert compare x l'
  end.

Definition Array_sort {A} (compare : A -> A -> number) (l : list A) : list A :=
  foldl (fun sorted x => sort_insert compare x sorted) [] l.

Section Engine.

(** The built-ins of the JavaScript engine that the code calls. *)
Variable Math_exp : number -> number.
Variable Math_tanh : number -> number.
Variable Math_sqrt : number -> number.
Variable Math_sin : number -> number.
Variable Math_cos : number -> number.
Variable Math_PI : number.
(** [Math_random n] is the value of the [n]-th call to [Math.random()]. *)
Variable Math_random : nat -> number.

(** ** Activation registry *)

Inductive ActivationKey : Set := SIGMOID | TANH | RELU | LEAKY_RELU | ELU.

#[global] Instance ActivationKey_eq_dec : EqDecision ActivationKey.
Proof. solve_decision. Defined.

Record ActivationDef : Type := {
  name : string;
  func : number -> number;
  deriv : number -> number;
  color : string
}.

Definition ACTIVATION_FUNCTIONS (key : ActivationKey) : ActivationDef :=
  match key with
  | SIGMOID =>
      {| name := "Sigmoid";
         func := fun x => lit 1 / (lit 1 + Math_exp (- x));
         deriv := fun y => y * (lit 1 - y);
         color := "#00f3ff" |}
  | TANH =>
      {| name := "Tanh";
         func := fun x => Math_tanh x;
         deriv := fun y => lit 1 - (y * y);
         color := "#d946ef" |}
  | RELU =>
      {| name := "ReLU";
         func := fun x => Math_max (lit 0) x;
         deriv := fun y => if y >? lit 0 then lit 1 else lit 0.05;
         color := "#22c55e" |}
  | LEAKY_RELU =>
      {| name := "L-ReLU";
         func := fun x => Math_max (lit 0.01 * x) x;
         deriv := fun y => if y >? lit 0 then lit 1 else lit 0.01;
         color := "#eab308" |}
  | ELU =>
      {| name := "ELU";
         func := fun x => if x >=? lit 0 then x
                          else lit 1.0 * (Math_exp x - lit 1);
         deriv := fun y => if y >? lit 0 then lit 1 else y + lit 1.0;
         color := "#f97316" |}
  end.

(** [Object.keys(ACTIVATION_FUNCTIONS)], in insertion order. *)
Definition ACTIVATION_KEYS : list ActivationKey :=
  [SIGMOID; TANH; RELU; LEAKY_RELU; ELU].

(** ** The network model

    Arrays are lists.  Reads that the dimension invariant [wf] below and an
    input of at most the input layer's size keep in range are written with
    a default for the out-of-range case (where JavaScript would read
    [undefined] and then raise a TypeError or compute NaN); writes by index
    are [<[i:=v]>] and [alter], which in range are the JavaScript
    assignment. *)

Record SimpleNetwork : Type := {
  layerSizes : list Z;
  activations : list ActivationKey;
  weights : list (list (list number));
  weightDeltas : list (list (list number));
  biases : list (list number);
  values : list (list number);
  preActivations : list (list number)
}.

(** [activations[i]]; the key of a missing entry is irrelevant under
    [activations.length = layerSizes.length] (see [wf]), where JavaScript
    would raise a TypeError. *)
Definition activation (net : SimpleNetwork) (i : nat) : ActivationKey :=
  default SIGMOID (activations net !! i).

(** *** constructor *)

(** [new Array(count).fill(0).map(() => f(Math.random()))], starting at call
    number [n] of the random source. *)
Definition random_array (n count : nat) (f : number -> number) : list number :=
  map (fun c => f (Math_random (n + c)%nat)) (seq 0 count).

(** The rows of one weight matrix: [prevSize] rows of [currSize] draws. *)
Definition random_rows (n prevSize currSize : nat) (scale : number)
  : list (list number) :=
  map (fun j => random_array (n + j * currSize)%nat currSize
                  (fun r => ((r * lit 2) - lit 1) * scale))
      (seq 0 prevSize).

(** One iteration of the constructor's loop over [i]; the state is the
    network under construction and the number of random draws so far. *)
Definition constructor_step (st : SimpleNetwork * nat) (i : nat)
  : Result (SimpleNetwork * nat) :=
  let '(net, n) := st in
  let sizes := layerSizes net in
  zeros <- new_Array_fill0 (default 0%Z (sizes !! i)) ;;
  let net1 :=
    {| layerSizes := sizes; activations := activations net;
       weights := weights net; weightDeltas := weightDeltas net;
       biases := biases net;
       values := values net ++ [zeros];
       preActivations := preActivations net ++ [zeros] |} in
  match i with
  | O => Ok (net1, n)
  | S i' =>
      let prevSize := bound sizes i' in
      let currSize := bound sizes i in
      let scale := lit 1 / Math_sqrt (of_Z (default 0%Z (sizes !! i'))) in
      let layerWeights := random_rows n prevSize currSize scale in
      let layerDeltas := replicate prevSize (replicate currSize (Num 0)) in
      let n1 := (n + prevSize * currSize)%nat in
      let layerBiases :=
        random_array n1 currSize (fun r => lit 0.01 + r * lit 0.2) in
      Ok ({| layerSizes := sizes; activations := activations net;
             weights := weights net ++ [layerWeights];
             weightDeltas := weightDeltas net ++ [layerDeltas];
             biases := biases net ++ [layerBiases];
             values := values net1;
             preActivations := preActivations net1 |},
          (n1 + currSize)%nat)
  end.

Fixpoint constructor_loop (st : SimpleNetwork * nat) (idxs : list nat)
  : Result (SimpleNetwork * nat) :=
  match idxs with
  | [] => Ok st
  | i :: rest => st' <- constructor_step st i ;; constructor_loop st' rest
  end.

(** [new SimpleNetwork(layerSizes, activations)], drawing from the random
    source from call [n] on. *)
Definition constructor (n : nat) (layerSizes : list Z)
    (activations : list ActivationKey) : Result SimpleNetwork :=
  st <- constructor_loop
          ({| layerSizes := layerSizes; activations := activations;
              weights := []; weightDeltas := []; biases := [];
              values := []; preActivations := [] |}, n)
          (seq 0 (length layerSizes)) ;;
  Ok (fst st).

(** *** setActivations, setLayerBias *)

Definition setActivations (net : SimpleNetwork)
    (newActivations : list ActivationKey) : SimpleNetwork :=
  {| layerSizes := layerSizes net; activations := newActivations;
     weights := weights net; weightDeltas := weightDeltas net;
     biases := biases net; values := values net;
     preActivations := preActivations net |}.

(** [layerIdx] is an integer layer index. *)
Definition setLayerBias (net : SimpleNetwork) (layerIdx : Z) (value : number)
  : SimpleNetwork :=
  let biasIdx := (layerIdx - 1)%Z in
  if ((biasIdx >=? 0) && (biasIdx <? Z.of_nat (length (biases net))))%Z
  then {| layerSizes := layerSizes net; activations := activations net;
          weights := weights net; weightDeltas := weightDeltas net;
          biases := alter (fun b => replicate (length b) value)
                          (Z.to_nat biasIdx) (biases net);
          values := values net; preActivations := preActivations net |}
  else net.

(** *** forward *)

Definition with_caches (net : SimpleNetwork) (vs ps : list (list number))
  : SimpleNetwork :=
  {| layerSizes := layerSizes net; activations := activations net;
     weights := weights net; weightDeltas := weightDeltas net;
     biases := biases net; values := vs; preActivations := ps |}.

Definition with_params (net : SimpleNetwork)
    (ws ds : list (list (list number))) (bs : list (list number))
  : SimpleNetwork :=
  {| layerSizes := layerSizes net; activations := activations net;
     weights := ws; weightDeltas := ds; biases := bs;
     values := values net; preActivations := preActivations net |}.

(** [if (!isFinite(sum)) sum = 0]. *)
Definition finite_or_0 (sum : number) : number :=
  if isFinite sum then sum else lit 0.

(** [let sum = 0; for (k < prevValues.length) sum += prevValues[k] *
    currentWeights[k][j]]. *)
Definition weighted_sum (prevValues : list number)
    (currentWeights : list (list number)) (j : nat) : number :=
  foldl (fun sum k => sum + at_ prevValues k * at_ (row currentWeights k) j)
        (lit 0) (seq 0 (length prevValues)).

(** One iteration of the loop over [i] in [forward]. *)
Definition forward_layer (net : SimpleNetwork) (i : nat) : SimpleNetwork :=
  let layerIndex := S i in
  let prevValues := row (values net) i in
  let currentWeights := default [] (weights net !! i) in
  let currentBiases := row (biases net) i in
  let activate := func (ACTIVATION_FUNCTIONS (activation net layerIndex)) in
  let nextPreActivations :=
    map (fun j => finite_or_0 (weighted_sum prevValues currentWeights j
                               + at_ currentBiases j))
        (seq 0 (bound (layerSizes net) layerIndex)) in
  let nextValues := map activate nextPreActivations in
  with_caches net
    (array_set (values net) layerIndex nextValues)
    (array_set (preActivations net) layerIndex nextPreActivations).

(** [forward(inputs)]: the network after the call and the returned array
    [this.values[this.values.length - 1]]. *)
Definition forward (net : SimpleNetwork) (inputs : list number)
  : SimpleNetwork * list number :=
  let net0 := with_caches net (array_set (values net) 0 inputs)
                              (array_set (preActivations net) 0 inputs) in
  let net' := foldl forward_layer net0 (seq 0 (length (weights net))) in
  (net', default [] (last (values net'))).

(** *** train *)

(** The body of the two nested loops over [k] and [j]: one weight of the
    transition, on the pair (weights[i], weightDeltas[i]). *)
Definition update_weight (learningRate : number)
    (nextLayerErrors currentValues : list number)
    (st : list (list number) * list (list number)) (k j : nat)
  : list (list number) * list (list number) :=
  let gradient := at_ nextLayerErrors j * at_ currentValues k in
  if isFinite gradient then
    let delta :=
      Math_max (lit (-1)) (Math_min (lit 1) (learningRate * gradient)) in
    (alter (alter (fun w => w + delta) j) k (fst st),
     alter (<[j:=delta]>) k (snd st))
  else st.

(** The body of the loop over [j] that updates [biases[i]]. *)
Definition update_bias (learningRate : number) (nextLayerErrors : list number)
    (b : list number) (j : nat) : list number :=
  alter (fun x => x + Math_max (lit (-1))
                       (Math_min (lit 1)
                          (learningRate * at_ nextLayerErrors j))) j b.

(** [let sum = 0; for (j < layerSizes[i+1]) sum += nextLayerErrors[j] *
    this.weights[i][k][j]]. *)
Definition error_sum (nextLayerErrors : list number)
    (w : list (list number)) (k n : nat) : number :=
  foldl (fun sum j => sum + at_ nextLayerErrors j * at_ (row w k) j)
        (lit 0) (seq 0 n).

(** One iteration of the loop over [i] in [train]; [layerErrors] is the
    sparse local array of the same name, a map from layer indices to error
    vectors.  ([layerErrors[i + 1]] has always been written when it is read;
    the empty default stands for a TypeError that cannot occur.) *)
Definition train_layer (learningRate : number)
    (st : SimpleNetwork * gmap nat (list number)) (i : nat)
  : SimpleNetwork * gmap nat (list number) :=
  let '(net, layerErrors) := st in
  let nextLayerErrors := default [] (layerErrors !! S i) in
  let currentValues := row (values net) i in
  let currentLayerDeriv :=
    if decide (0 < i)%nat then deriv (ACTIVATION_FUNCTIONS (activation net i))
    else (fun _ => lit 1) in
  let size_i := bound (layerSizes net) i in
  let size_next := bound (layerSizes net) (S i) in
  let wd :=
    foldl (fun st k =>
             foldl (fun st j =>
                      update_weight learningRate nextLayerErrors currentValues
                                    st k j)
                   st (seq 0 size_next))
          (default [] (weights net !! i), default [] (weightDeltas net !! i))
          (seq 0 size_i) in
  let b :=
    foldl (update_bias learningRate nextLayerErrors)
          (row (biases net) i) (seq 0 size_next) in
  let net' :=
    with_params net (<[i:=fst wd]> (weights net))
                    (<[i:=snd wd]> (weightDeltas net))
                    (<[i:=b]> (biases net)) in
  if decide (0 < i)%nat then
    let currentLayerErrors :=
      map (fun k => finite_or_0 (error_sum nextLayerErrors (fst wd) k size_next)
                    * currentLayerDeriv (at_ currentValues k))
          (seq 0 size_i) in
    (net', <[i:=currentLayerErrors]> layerErrors)
  else (net', layerErrors).

(** [(targets[i] - outputs[i]) * outputDeriv(outputs[i])] for every output. *)
Definition output_errors (outputDeriv : number -> number)
    (targets outputs : list number) : list number :=
  map (fun i => (at_ targets i - at_ outputs i) * outputDeriv (at_ outputs i))
      (seq 0 (length outputs)).

(** [train(inputs, targets, learningRate)] together with its local
    [layerErrors] at the end of the call. *)
Definition train_trace (net : SimpleNetwork) (inputs targets : list number)
    (learningRate : number) : SimpleNetwork * gmap nat (list number) :=
  let net1 := fst (forward net inputs) in
  let outputLayerIdx := (length (layerSizes net1) - 1)%nat in
  let outputs := row (values net1) outputLayerIdx in
  let outputDeriv :=
    deriv (ACTIVATION_FUNCTIONS (activation net1 outputLayerIdx)) in
  let outputErrors := output_errors outputDeriv targets outputs in
  foldl (train_layer learningRate)
        (net1, {[ outputLayerIdx := outputErrors ]})
        (rev (seq 0 (length (weights net1)))).

Definition train (net : SimpleNetwork) (inputs targets : list number)
    (learningRate : number) : SimpleNetwork :=
  fst (train_trace net inputs targets learningRate).

(** ** The simulation loop, turbo branch *)

Definition CONVERGENCE : number := lit 0.00005.

(** The loss [updateVisuals] computes from the cached output values:
    the sum of [0.5 * Math.pow((target[i] || 0) - output[i], 2)]. *)
Definition updateVisuals (net : SimpleNetwork) (target : list number) : number :=
  let output := default [] (last (values net)) in
  foldl (fun totalLoss i =>
           totalLoss
           + lit 0.5 * Math_pow2 (or0 (at_ target i) - at_ output i))
        (lit 0) (seq 0 (length output)).

(** The state the turbo loop touches: the network behind [networkRef], the
    counter [epochRef.current] (an integer), and the React state it sets. *)
Record Sim : Type := {
  network : SimpleNetwork;
  epochRef : Z;
  epochs : Z;
  lossHistory : list (Z * number);
  isPlaying : bool;
  isOptimized : bool
}.

(** [for (k < 10) networkRef.current.train(inputs, target, learningRate)]. *)
Definition train_batch (inputs target : list number) (learningRate : number)
    (net : SimpleNetwork) : SimpleNetwork :=
  foldl (fun net (_ : nat) => train net inputs target learningRate)
        net (seq 0 10).

(** [h.length > 200 ? h.slice(-200) : h]. *)
Definition keep_last_200 {A} (h : list A) : list A :=
  if decide (200 < length h)%nat then drop (length h - 200) h else h.

(** One call of [loop]: the state after it, and whether it asked for
    another animation frame.  [isPlaying] is the value the effect captured
    when it started the loop.  The state updates are applied at once. *)
Definition loop (inputs target : list number) (learningRate : number)
    (sim : Sim) : Sim * bool :=
  let net := train_batch inputs target learningRate (network sim) in
  let epoch := (epochRef sim + 10)%Z in
  let loss := updateVisuals net target in
  let history := keep_last_200 (lossHistory sim ++ [(epoch, loss)]) in
  if loss <? CONVERGENCE then
    ({| network := net; epochRef := epoch; epochs := epoch;
        lossHistory := history; isPlaying := false; isOptimized := true |},
     false)
  else
    ({| network := net; epochRef := epoch; epochs := epoch;
        lossHistory := history; isPlaying := isPlaying sim;
        isOptimized := isOptimized sim |},
     isPlaying sim).

(** Up to [frames] rendering frames of turbo mode: the effect starts [loop]
    when [isPlaying] holds, and [loop] runs once per frame for as long as it
    keeps rescheduling itself. *)
Fixpoint turbo_frames (frames : nat) (inputs target : list number)
    (learningRate : number) (sim : Sim) : Sim :=
  match frames with
  | O => sim
  | S frames' =>
      let '(sim', again) := loop inputs target learningRate sim in
      if again then turbo_frames frames' inputs target learningRate sim'
      else sim'
  end.

Definition turbo (frames : nat) (inputs target : list number)
    (learningRate : number) (sim : Sim) : Sim :=
  if isPlaying sim then turbo_frames frames inputs target learningRate sim
  else sim.

(** ** Projection engine *)

Definition fov : number := lit 1000.

(** The first half of [project3D]: the layout position of a unit, rotated
    about the vertical and then the horizontal axis: [(x2, y2, z2)].
    ([layerDims[layerIdx]] exists for every unit the scene builder projects;
    the default stands for a TypeError that cannot occur.) *)
Definition rotate3D (vw : View) (layerIdx row col : nat)
  : number * number * number :=
  let layerSpacing := lit 250 in
  let rowSpacing := lit 80 in
  let colSpacing := lit 80 in
  let totalLayersWidth :=
    (of_nat (length (layerDims vw)) - lit 1) * layerSpacing in
  let xStart := (- totalLayersWidth) / lit 2 in
  let dims := default {| rows := 0; cols := 0 |} (layerDims vw !! layerIdx) in
  let yStart := (- ((of_Z (rows dims) - lit 1) * rowSpacing)) / lit 2 in
  let zStart := (- ((of_Z (cols dims) - lit 1) * colSpacing)) / lit 2 in
  let x3d := xStart + (of_nat layerIdx * layerSpacing) in
  let y3d := yStart + (of_nat row * rowSpacing) in
  let z3d := zStart + (of_nat col * colSpacing) in
  let radH := (cam_h (cameraAngle vw) * Math_PI) / lit 180 in
  let radV := (cam_v (cameraAngle vw) * Math_PI) / lit 180 in
  let cosH := Math_cos radH in
  let sinH := Math_sin radH in
  let cosV := Math_cos radV in
  let sinV := Math_sin radV in
  let x1 := x3d * cosH - z3d * sinH in
  let y1 := y3d in
  let z1 := x3d * sinH + z3d * cosH in
  let x2 := x1 in
  let y2 := y1 * cosV - z1 * sinV in
  let z2 := y1 * sinV + z1 * cosV in
  (x2, y2, z2).

Definition project3D (vw : View) (layerIdx row col : nat) : ScreenPos :=
  let '(x2, y2, z2) := rotate3D vw layerIdx row col in
  let baseScale := if isOrtho vw then lit 1.0 else fov / (fov - z2) in
  let finalScale := baseScale * viewScale vw in
  {| pos_x := lit 400
              + (x2 * viewScale vw * (if isOrtho vw then lit 1 else baseScale))
              + off_x (viewOffset vw);
     pos_y := lit 300
              + (y2 * viewScale vw * (if isOrtho vw then lit 1 else baseScale))
              + off_y (viewOffset vw);
     pos_scale := finalScale;
     pos_depth := z2 |}.

(** ** Scene builder *)

(** The comparator handed to [sort]: [(a, b) => a.depth - b.depth]. *)
Definition by_depth (a b : RenderItem) : number := item_depth a - item_depth b.

(** [a?.[i] || 0] on an array. *)
Definition opt_at (l : option (list number)) (i : nat) : number :=
  or0 (default NaN (l ≫= (.!! i))).

(** The items pushed for the unit at ([r], [c]) of layer [lIdx]. *)
Definition node_items (vw : View) (stats : DisplayStats)
    (lIdx : nat) (dim : LayerDim) (r c : nat) : list RenderItem :=
  let flatIdx := (r * Z.to_nat (cols dim) + c)%nat in
  let pos := project3D vw lIdx r c in
  let value := opt_at (ds_values stats !! lIdx) flatIdx in
  let bias :=
    if decide (0 < lIdx)%nat
    then opt_at (ds_biases stats !! (lIdx - 1)%nat) flatIdx
    else lit 0 in
  let isInput := bool_decide (lIdx = 0%nat) in
  let isOutput := bool_decide (lIdx = (length (layerDims vw) - 1)%nat) in
  let mid := bool_decide (Z.of_nat c = (cols dim / 2)%Z) in
  [NODE lIdx flatIdx isInput isOutput pos value bias (pos_depth pos)]
  ++ (if bool_decide (Z.of_nat r = (rows dim - 1)%Z) && mid
      then [LAYER_CONTROL lIdx
              {| pos_x := pos_x pos;
                 pos_y := pos_y pos + lit 60 * pos_scale pos;
                 pos_scale := pos_scale pos; pos_depth := pos_depth pos |}
              (pos_depth pos + lit 10)]
      else [])
  ++ (if negb isInput && negb isOutput && bool_decide (r = 0%nat) && mid
      then [ACTIVATION_CONTROL lIdx
              {| pos_x := pos_x pos;
                 pos_y := pos_y pos - lit 90 * pos_scale pos;
                 pos_scale := pos_scale pos; pos_depth := pos_depth pos |}
              (pos_depth pos + lit 10)]
      else []).

(** [for (r < rows) for (c < cols) body(r, c)], collecting what is pushed. *)
Definition grid {A} (dim : LayerDim) (body : nat -> nat -> list A) : list A :=
  flat_map (fun r => flat_map (fun c => body r c)
                       (seq 0 (Z.to_nat (cols dim))))
           (seq 0 (Z.to_nat (rows dim))).

(** The items pushed for the connections leaving layer [lIdx]. *)
Definition link_items (vw : View) (stats : DisplayStats)
    (lIdx : nat) (layerWeights : list (list number)) : list RenderItem :=
  match layerDims vw !! lIdx, layerDims vw !! S lIdx with
  | Some fromDim, Some toDim =>
      grid fromDim (fun r1 c1 =>
        let fromFlat := (r1 * Z.to_nat (cols fromDim) + c1)%nat in
        let fromPos := project3D vw lIdx r1 c1 in
        grid toDim (fun r2 c2 =>
          let toFlat := (r2 * Z.to_nat (cols toDim) + c2)%nat in
          let toPos := project3D vw (S lIdx) r2 c2 in
          let w := opt_at (layerWeights !! fromFlat) toFlat in
          let delta :=
            opt_at (ds_deltas stats !! lIdx ≫= (.!! fromFlat)) toFlat in
          let depth := (pos_depth fromPos + pos_depth toPos) / lit 2 in
          [LINK lIdx fromFlat toFlat fromPos toPos w delta depth]))
  | _, _ => []
  end.

Definition renderItems (vw : View) (stats : DisplayStats) : list RenderItem :=
  if decide (length (ds_values stats) = 0%nat) then []
  else
    let nodes :=
      concat (imap (fun lIdx dim => grid dim (node_items vw stats lIdx dim))
                   (layerDims vw)) in
    let links := concat (imap (link_items vw stats) (ds_weights stats)) in
    Array_sort by_depth (nodes ++ links).

(** ** Architecture editing controls *)

Inductive DimKey : Set := key_rows | key_cols.

(** [modifyLayer(lIdx, dKey, delta)] on [layerDims]. *)
Definition modifyLayer (lIdx : nat) (dKey : DimKey) (delta : Z)
    (dims : list LayerDim) : list LayerDim :=
  alter (fun d =>
           match dKey with
           | key_rows =>
               {| rows := Z.max 1 (Z.min 8 (rows d + delta)); cols := cols d |}
           | key_cols =>
               {| rows := rows d; cols := Z.max 1 (Z.min 8 (cols d + delta)) |}
           end) lIdx dims.

(** [addLayer()] and [removeLayer()] on the pair (layerDims,
    layerActivations). *)
Definition addLayer (st : list LayerDim * list ActivationKey)
  : list LayerDim * list ActivationKey :=
  let '(dims, acts) := st in
  if decide (length dims < 10)%nat then
    (take (length dims - 1) dims ++ [{| rows := 2; cols := 2 |}]
       ++ drop (length dims - 1) dims,
     take (length acts - 1) acts ++ [LEAKY_RELU] ++ drop (length acts - 1) acts)
  else st.

Definition removeLayer (st : list LayerDim * list ActivationKey)
  : list LayerDim * list ActivationKey :=
  let '(dims, acts) := st in
  if decide (2 < length dims)%nat then
    (delete (length dims - 2)%nat dims, delete (length acts - 2)%nat acts)
  else st.

(** [layerDims.map(d => d.rows * d.cols)], the sizes handed to the
    constructor. *)
Definition sizes_of (dims : list LayerDim) : list Z :=
  map (fun d => (rows d * cols d)%Z) dims.

(** The initial [layerDims] and [layerActivations]. *)
Definition initial_layers : list LayerDim * list ActivationKey :=
  ([ {| rows := 2; cols := 1 |}; {| rows := 2; cols := 2 |};
     {| rows := 3; cols := 1 |}; {| rows := 1; cols := 1 |} ],
   [LEAKY_RELU; LEAKY_RELU; LEAKY_RELU; SIGMOID]).

(** ** Specification-side definitions *)

(** The dimension invariant of the data model: one weight matrix, one delta
    matrix and one bias vector per layer transition, of the sizes of the two
    layers; one cache row and one activation key per layer.  The constructor
    establishes it when given one activation key per layer. *)
Definition matrix_dims (sizes : list Z) (ms : list (list (list number)))
  : Prop :=
  forall i m, ms !! i = Some m ->
    length m = bound sizes i /\
    Forall (fun r => length r = bound sizes (S i)) m.

Record wf (net : SimpleNetwork) : Prop := {
  wf_layers : (1 <= length (layerSizes net))%nat;
  wf_activations : length (activations net) = length (layerSizes net);
  wf_weights : length (weights net) = (length (layerSizes net) - 1)%nat;
  wf_weightDeltas :
    length (weightDeltas net) = (length (layerSizes net) - 1)%nat;
  wf_biases : length (biases net) = (length (layerSizes net) - 1)%nat;
  wf_values : length (values net) = length (layerSizes net);
  wf_preActivations : length (preActivations net) = length (layerSizes net);
  wf_weights_dims : matrix_dims (layerSizes net) (weights net);
  wf_weightDeltas_dims : matrix_dims (layerSizes net) (weightDeltas net);
  wf_biases_dims :
    forall i b, biases net !! i = Some b ->
      length b = bound (layerSizes net) (S i)
}.

(** The activation formulas as the specification writes them. *)
Definition spec_func (key : ActivationKey) (x : number) : number :=
  match key with
  | SIGMOID => lit 1 / (lit 1 + Math_exp (- x))
  | TANH => Math_tanh x
  | RELU => Math_max (lit 0) x
  | LEAKY_RELU => Math_max (lit 0.01 * x) x
  | ELU => if x >=? lit 0 then x else Math_exp x - lit 1
  end.

Definition spec_deriv (key : ActivationKey) (y : number) : number :=
  match key with
  | SIGMOID => y * (lit 1 - y)
  | TANH => lit 1 - Math_pow2 y
  | RELU => if y >? lit 0 then lit 1 else lit 0.05
  | LEAKY_RELU => if y >? lit 0 then lit 1 else lit 0.01
  | ELU => if y >? lit 0 then lit 1 else y + lit 1
  end.

(** The activation function and derivative assigned to layer [i]. *)
Definition f_ (net : SimpleNetwork) (i : nat) : number -> number :=
  func (ACTIVATION_FUNCTIONS (activation net i)).
Definition f' (net : SimpleNetwork) (i : nat) : number -> number :=
  deriv (ACTIVATION_FUNCTIONS (activation net i)).

(** The error of the hidden layer [k] from the errors [next] of layer
    [k + 1], the weights [w] of the transition out of [k] and the values [v]
    of layer [k]: the weighted sum of the next errors, replaced by 0 when it
    is not finite, times the derivative at the unit's value. *)
Definition hidden_errors (net : SimpleNetwork) (k : nat)
    (next : list number) (w : list (list number)) (v : list number)
  : list number :=
  map (fun unit =>
         finite_or_0 (error_sum next w unit (bound (layerSizes net) (S k)))
         * f' net k (at_ v unit))
      (seq 0 (bound (layerSizes net) k)).

(** The same without the replacement of a non-finite sum, as the
    specification's formula reads. *)
Definition spec_hidden_errors (net : SimpleNetwork) (k : nat)
    (next : list number) (w : list (list number)) (v : list number)
  : list number :=
  map (fun unit =>
         error_sum next w unit (bound (layerSizes net) (S k))
         * f' net k (at_ v unit))
      (seq 0 (bound (layerSizes net) k)).

(** [n] successive [train] calls on the same sample. *)
Definition train_n (n : nat) (inputs target : list number)
    (learningRate : number) (net : SimpleNetwork) : SimpleNetwork :=
  Nat.iter n (fun net => train net inputs target learningRate) net.

(** Consecutive items are in non-decreasing depth order. *)
Definition sorted_by_depth (items : list RenderItem) : Prop :=
  forall i a b, items !! i = Some a -> items !! S i = Some b ->
    (item_depth a <=? item_depth b) = true.

Definition depth_le (a b : RenderItem) : Prop :=
  (item_depth a <=? item_depth b) = true.

Definition not_NaN (item : RenderItem) : Prop :=
  isNaN (item_depth item) = false.

(** The camera angles in radians, as [project3D] computes them. *)
Definition radH (vw : View) : number :=
  (cam_h (cameraAngle vw) * Math_PI) / lit 180.
Definition radV (vw : View) : number :=
  (cam_v (cameraAngle vw) * Math_PI) / lit 180.

(** The four rotation coefficients [cosH], [sinH], [cosV], [sinV] that
    [project3D] obtains from the engine are finite. *)
Definition trig_finite (vw : View) : Prop :=
  isFinite (Math_cos (radH vw)) = true /\
  isFinite (Math_sin (radH vw)) = true /\
  isFinite (Math_cos (radV vw)) = true /\
  isFinite (Math_sin (radV vw)) = true.

Definition finite_depth (item : RenderItem) : Prop :=
  isFinite (item_depth item) = true.

(** A valid length for [new Array(n)]. *)
Definition array_length (n : Z) : Prop := (0 <= n < 2 ^ 32)%Z.

(** What the editing controls maintain: between 2 and 10 layers, every
    extent between 1 and 8. *)
Definition dims_valid (dims : list LayerDim) : Prop :=
  (2 <= length dims <= 10)%nat /\
  Forall (fun d => (1 <= rows d <= 8)%Z /\ (1 <= cols d <= 8)%Z) dims.

(** The architectures the editing controls can reach from the initial one. *)
Inductive editable : list LayerDim * list ActivationKey -> Prop :=
| editable_initial : editable initial_layers
| editable_modify st lIdx dKey delta :
    editable st -> editable (modifyLayer lIdx dKey delta (fst st), snd st)
| editable_add st : editable st -> editable (addLayer st)
| editable_remove st : editable st -> editable (removeLayer st).

(** The pre-activations and values that [forward] computes for layer
    [i + 1] from the cached values of layer [i]. *)
Definition layer_pre (net : SimpleNetwork) (i : nat) : list number :=
  map (fun j =>
         finite_or_0
           (weighted_sum (row (values net) i) (default [] (weights net !! i)) j
            + at_ (row (biases net) i) j))
      (seq 0 (bound (layerSizes net) (S i))).

Definition layer_values (net : SimpleNetwork) (i : nat) : list number :=
  map (f_ net (S i)) (layer_pre net i).

(** Two networks with the same architecture and parameters (they may differ
    in their caches). *)
Definition same_params (s net : SimpleNetwork) : Prop :=
  layerSizes s = layerSizes net /\ activations s = activations net /\
  weights s = weights net /\ weightDeltas s = weightDeltas net /\
  biases s = biases net.

(** The state of [forward] after [k] iterations of its loop. *)
Definition fwd_inv (net : SimpleNetwork) (inputs : list number) (k : nat)
    (s : SimpleNetwork) : Prop :=
  same_params s net /\
  length (values s) = Nat.max (length (values net)) (S k) /\
  length (preActivations s) = Nat.max (length (preActivations net)) (S k) /\
  values s !! 0%nat = Some inputs /\
  preActivations s !! 0%nat = Some inputs /\
  forall i, (i < k)%nat ->
    values s !! S i = Some (layer_values s i) /\
    preActivations s !! S i = Some (layer_pre s i).

(** ** Example networks *)

(** One input, one LeakyReLU output: weight 0.5, bias 0.1. *)
Definition net_1_1 : SimpleNetwork :=
  {| layerSizes := [1; 1]%Z;
     activations := [LEAKY_RELU; LEAKY_RELU];
     weights := [[[lit 0.5]]];
     weightDeltas := [[[lit 0]]];
     biases := [[lit 0.1]];
     values := [[lit 0]; [lit 0]];
     preActivations := [[lit 0]; [lit 0]] |}.

(** One input, one hidden unit, one output, all LeakyReLU: both weights
    0.5, both biases 0. *)
Definition net_1_1_1 : SimpleNetwork :=
  {| layerSizes := [1; 1; 1]%Z;
     activations := [LEAKY_RELU; LEAKY_RELU; LEAKY_RELU];
     weights := [[[lit 0.5]]; [[lit 0.5]]];
     weightDeltas := [[[lit 0]]; [[lit 0]]];
     biases := [[lit 0]; [lit 0]];
     values := [[lit 0]; [lit 0]; [lit 0]];
     preActivations := [[lit 0]; [lit 0]; [lit 0]] |}.

(** The claim on the layer errors as the specification states it: no
    replacement of a non-finite sum, and the weights of the forward pass. *)
Definition spec_layer_errors (net : SimpleNetwork)
    (inputs targets : list number) (learningRate : number) : Prop :=
  let fwd := fst (forward net inputs) in
  let errs := snd (train_trace net inputs targets learningRate) in
  let last := (length (layerSizes net) - 1)%nat in
  errs !! last =
    Some (map (fun u => (at_ targets u - at_ (row (values fwd) last) u)
                        * f' net last (at_ (row (values fwd) last) u))
              (seq 0 (bound (layerSizes net) last))) /\
  forall k, (0 < k < last)%nat ->
    errs !! k =
      Some (spec_hidden_errors net k (default [] (errs !! S k))
              (default [] (weights fwd !! k)) (row (values fwd) k)).

(** The claim on the perspective scale as the specification states it, for
    two units of the layout. *)
Definition nearer_is_larger (vw : View) (p q : nat * nat * nat) : Prop :=
  let '(l, r, c) := p in
  let '(l', r', c') := q in
  let '(x2, y2, z2) := rotate3D vw l r c in
  let '(x2', y2', z2') := rotate3D vw l' r' c' in
  isOrtho vw = false -> x2 = x2' -> y2 = y2' -> (z2 <? z2') = true ->
  pos_scale (project3D vw l r c) <> pos_scale (project3D vw l' r' c') /\
  (pos_scale (project3D vw l r c) <? pos_scale (project3D vw l' r' c')) = true.

(** ** Engine instances used in examples

    Rational stand-ins with the properties assumed of the built-ins:
    [exp_approx] is non-negative and at most 1 on negative arguments,
    [tanh_approx] is finite on finite arguments; [cos_axis] and [sin_axis]
    are the cosine and sine at 0 and at [pi / 2] for the number [pi] used
    as [Math.PI]. *)

Definition exp_approx (x : number) : number :=
  match x with
  | NaN => NaN
  | Inf s => if s then Num 0 else Inf false
  | Num q => if Qltb q 0 then Num (Qred (1 / (1 - q))) else Num (Qred (1 + q))
  end.

Definition tanh_approx (x : number) : number :=
  match x with
  | NaN => NaN
  | Inf s => if s then lit (-1) else lit 1
  | Num q => Num (Qred (q / (1 + Qabs q)))
  end.

Definition pi_approx : number := lit 3.141592653589793.

Definition number_eqb (a b : number) : bool :=
  match a, b with
  | Num x, Num y => Qeq_bool x y
  | Inf s, Inf t => Bool.eqb s t
  | _, _ => false
  end.

Definition cos_axis (a : number) : number :=
  if number_eqb a (lit 0) then lit 1
  else if number_eqb a (pi_approx / lit 2) then lit 0
  else NaN.

Definition sin_axis (a : number) : number :=
  if number_eqb a (lit 0) then lit 0
  else if number_eqb a (pi_approx / lit 2) then lit 1
  else NaN.

(** Ten layers of one row of eight units, seen from the side (yaw 90
    degrees, pitch 0) in perspective mode with the default zoom. *)
Definition view_side_10 : View :=
  {| layerDims := replicate 10 {| rows := 1; cols := 8 |};
     cameraAngle := {| cam_h := lit 90; cam_v := lit 0 |};
     viewScale := lit 1;
     viewOffset := {| off_x := lit 0; off_y := lit 0 |};
     isOrtho := false |}.

(** The initial four layers seen from the front (yaw 0, pitch 0). *)
Definition view_front : View :=
  {| layerDims := fst initial_layers;
     cameraAngle := {| cam_h := lit 0; cam_v := lit 0 |};
     viewScale := lit 1;
     viewOffset := {| off_x := lit 0; off_y := lit 0 |};
     isOrtho := false |}.

Definition stats_1_1_1 : DisplayStats :=
  {| ds_values := values net_1_1_1; ds_weights := weights net_1_1_1;
     ds_deltas := weightDeltas net_1_1_1; ds_biases := biases net_1_1_1;
     ds_preActivations := preActivations net_1_1_1; ds_loss := lit 0 |}.

(** A paused-to-playing simulation at epoch 0 on the 1-1-1 network. *)
Definition sim_1_1_1 : Sim :=
  {| network := net_1_1_1; epochRef := 0; epochs := 0; lossHistory := [];
     isPlaying := true; isOptimized := false |}.

(** The constructor's state after [k] iterations of its loop. *)
Definition ctor_inv (sizes : list Z) (acts : list ActivationKey) (k : nat)
    (net : SimpleNetwork) : Prop :=
  layerSizes net = sizes /\ activations net = acts /\
  length (values net) = k /\ length (preActivations net) = k /\
  length (weights net) = (k - 1)%nat /\
  length (weightDeltas net) = (k - 1)%nat /\
  length (biases net) = (k - 1)%nat /\
  matrix_dims sizes (weights net) /\
  matrix_dims sizes (weightDeltas net) /\
  (forall i b, biases net !! i = Some b -> length b = bound sizes (S i)).

(** A matrix of [a] rows of [b] entries. *)
Definition has_dims (a b : nat) (m : list (list number)) : Prop :=
  length m = a /\ Forall (fun r => length r = b) m.

(** [Math.max(-1, Math.min(1, x))]. *)
Definition clamp1 (x : number) : number :=
  Math_max (lit (-1)) (Math_min (lit 1) x).

(** What one backward iteration does to a weight, to its recorded delta
    and to a bias, given the errors [errs] of the next layer and the values
    [vals] of the current one. *)
Definition weight_after (lr : number) (errs vals : list number) (k j : nat)
    (w : number) : number :=
  let gradient := at_ errs j * at_ vals k in
  if isFinite gradient then w + clamp1 (lr * gradient) else w.

Definition delta_after (lr : number) (errs vals : list number) (k j : nat)
    (d : number) : number :=
  let gradient := at_ errs j * at_ vals k in
  if isFinite gradient then clamp1 (lr * gradient) else d.

Definition bias_after (lr : number) (errs : list number) (j : nat)
    (b : number) : number :=
  b + clamp1 (lr * at_ errs j).


(** ** Further specification-side definitions *)

(** [lo <= x <= hi]. *)
Definition between (lo hi x : number) : Prop :=
  (lo <=? x) = true /\ (x <=? hi) = true.

Definition finite (x : number) : Prop := isFinite x = true.

(** Every weight and every bias of the network is a finite number, and
    every recorded weight delta lies in [-1, 1]. *)
Definition stable_params (net : SimpleNetwork) : Prop :=
  Forall (Forall (Forall finite)) (weights net) /\
  Forall (Forall finite) (biases net) /\
  Forall (Forall (Forall (between (lit (-1)) (lit 1)))) (weightDeltas net).

(** Every weight of the network is a finite number, and every recorded
    weight delta lies in [-1, 1]. *)
Definition stable_weights (net : SimpleNetwork) : Prop :=
  Forall (Forall (Forall finite)) (weights net) /\
  Forall (Forall (Forall (between (lit (-1)) (lit 1)))) (weightDeltas net).

(** [m[i][k][j]] and [m[i][j]], where they exist. *)
Definition at2 (m : list (list number)) (i j : nat) : option number :=
  r ← m !! i; r !! j.
Definition at3 (m : list (list (list number))) (i k j : nat) : option number :=
  r ← m !! i; at2 r k j.

(** The scale of the initial weights of transition [i]:
    [1 / Math.sqrt(layerSizes[i])]. *)
Definition init_scale (sizes : list Z) (i : nat) : number :=
  lit 1 / Math_sqrt (of_Z (default 0%Z (sizes !! i))).

(** What the constructor has filled in after [k] iterations of its loop:
    zero caches and deltas, biases between 0.01 and 0.21, and the weights
    of transition [i] within [init_scale sizes i] of zero. *)
Definition ctor_content (sizes : list Z) (net : SimpleNetwork) : Prop :=
  (forall i r, values net !! i = Some r ->
     r = replicate (bound sizes i) (Num 0)) /\
  (forall i r, preActivations net !! i = Some r ->
     r = replicate (bound sizes i) (Num 0)) /\
  (forall i m, weightDeltas net !! i = Some m ->
     m = replicate (bound sizes i) (replicate (bound sizes (S i)) (Num 0))) /\
  (forall i b, biases net !! i = Some b ->
     Forall (between (lit 0.01) (lit 0.21)) b) /\
  (forall i m, weights net !! i = Some m ->
     Forall (Forall (between (- init_scale sizes i) (init_scale sizes i))) m).

(** More rational stand-ins for the engine: [sqrt_upper] is positive on
    positive arguments, [random_alternating] stays between 0 and 1. *)
Definition sqrt_upper (x : number) : number :=
  match x with
  | Num q => Num (Qred ((q + 1) / 2))
  | _ => x
  end.

Definition random_alternating (n : nat) : number :=
  if Nat.even n then lit 0.25 else lit 0.75.

(** The weighted sum of a unit as the specification words it: the values of
    the previous layer, each times its weight into unit [j], added one
    after the other to [sum], the values and the rows of the weight matrix
    being walked side by side. *)
Fixpoint spec_weighted_sum (sum : number) (prevValues : list number)
    (currentWeights : list (list number)) (j : nat) : number :=
  match prevValues with
  | [] => sum
  | v :: prevValues' =>
      spec_weighted_sum (sum + v * at_ (default [] (head currentWeights)) j)
        prevValues' (tail currentWeights) j
  end.

(** The pre-activations of layer [i + 1] as the specification words them:
    for every unit the weighted sum of the values [prev] of layer [i] plus
    the unit's bias, replaced by 0 when that is not a finite number. *)
Definition spec_pre_activations (net : SimpleNetwork) (i : nat)
    (prev : list number) : list number :=
  map (fun j =>
         let s := spec_weighted_sum (lit 0) prev
                    (default [] (weights net !! i)) j
                  + at_ (default [] (biases net !! i)) j in
         if isFinite s then s else lit 0)
      (seq 0 (bound (layerSizes net) (S i))).

(** Two inputs, two hidden units, one output, all LeakyReLU, with
    parameters that binary floating point represents exactly. *)
Definition net_2_2_1_leaky : SimpleNetwork :=
  {| layerSizes := [2; 2; 1]%Z;
     activations := [LEAKY_RELU; LEAKY_RELU; LEAKY_RELU];
     weights := [[[lit 0.5; lit (-0.25)]; [lit 0.25; lit 0.5]];
                 [[lit 0.5]; [lit (-0.5)]]];
     weightDeltas := [[[lit 0; lit 0]; [lit 0; lit 0]]; [[lit 0]; [lit 0]]];
     biases := [[lit 0.125; lit 0.125]; [lit 0.125]];
     values := [[lit 0; lit 0]; [lit 0; lit 0]; [lit 0]];
     preActivations := [[lit 0; lit 0]; [lit 0; lit 0]; [lit 0]] |}.

(** ** The simulation loop, animation branch *)

Inductive Direction : Set := NONE | FORWARD | BACKWARD | UPDATING.

(** The simulation state together with the React state [direction] and
    [activeLayer] (an integer, [-1] for no layer). *)
Record Scheduler : Type := {
  sched_sim : Sim;
  direction : Direction;
  activeLayer : Z
}.

(** [[...prev.slice(-199), entry]]. *)
Definition push_history {A} (prev : list A) (entry : A) : list A :=
  drop (length prev - 199) prev ++ [entry].

(** The callback the effect hands to [setTimeout]: one tick of the
    animation.  [nLayers] is [layerDims.length].  The state updates are
    applied at once. *)
Definition animation_tick (nLayers : nat) (inputs target : list number)
    (learningRate : number) (st : Scheduler) : Scheduler :=
  let sim := sched_sim st in
  match direction st with
  | NONE | FORWARD =>
      let next := (activeLayer st + 1)%Z in
      let sim1 :=
        if (activeLayer st =? -1)%Z
        then {| network := fst (forward (network sim) inputs);
                epochRef := epochRef sim; epochs := epochs sim;
                lossHistory := lossHistory sim; isPlaying := isPlaying sim;
                isOptimized := isOptimized sim |}
        else sim in
      if (next <? Z.of_nat nLayers)%Z
      then {| sched_sim := sim1; direction := FORWARD; activeLayer := next |}
      else {| sched_sim := sim1; direction := BACKWARD;
              activeLayer := (Z.of_nat nLayers - 1)%Z |}
  | BACKWARD =>
      let prev := (activeLayer st - 1)%Z in
      if (prev >=? 0)%Z
      then {| sched_sim := sim; direction := BACKWARD; activeLayer := prev |}
      else
        let net := train (network sim) inputs target learningRate in
        let epoch := (epochRef sim + 1)%Z in
        let loss := updateVisuals net target in
        let history := push_history (lossHistory sim) (epoch, loss) in
        if loss <? CONVERGENCE then
          {| sched_sim :=
               {| network := net; epochRef := epoch; epochs := epoch;
                  lossHistory := history; isPlaying := false;
                  isOptimized := true |};
             direction := NONE; activeLayer := (-1)%Z |}
        else
          {| sched_sim :=
               {| network := net; epochRef := epoch; epochs := epoch;
                  lossHistory := history; isPlaying := isPlaying sim;
                  isOptimized := isOptimized sim |};
             direction := UPDATING; activeLayer := (-1)%Z |}
  | UPDATING =>
      {| sched_sim := sim; direction := FORWARD; activeLayer := 0%Z |}
  end.

(** Up to [ticks] timer ticks of the animation: the effect sets a timer
    for as long as [isPlaying] holds, and every tick changes [direction] or
    [activeLayer], which runs the effect again. *)
Fixpoint stepped (ticks nLayers : nat) (inputs target : list number)
    (learningRate : number) (st : Scheduler) : Scheduler :=
  match ticks with
  | O => st
  | S ticks' =>
      if isPlaying (sched_sim st)
      then stepped ticks' nLayers inputs target learningRate
             (animation_tick nLayers inputs target learningRate st)
      else st
  end.

(** [isActiveLayer(lIdx)]. *)
Definition isActiveLayer (st : Scheduler) (lIdx : Z) : bool :=
  if match direction st with FORWARD => true | _ => false end
     && (activeLayer st =? lIdx)%Z then true
  else if match direction st with BACKWARD => true | _ => false end
          && (activeLayer st =? lIdx)%Z then true
  else false.

(** The scheduler at rest, as the component starts and as every
    architecture edit and reset leaves it. *)
Definition at_rest (sim : Sim) : Scheduler :=
  {| sched_sim := sim; direction := NONE; activeLayer := (-1)%Z |}.

(** The scheduler pointing at [layer] in [dir], on simulation state
    [sim]. *)
Definition pointing (sim : Sim) (dir : Direction) (layer : Z) : Scheduler :=
  {| sched_sim := sim; direction := dir; activeLayer := layer |}.

(** The simulation state after one more training step that does not reach
    convergence. *)
Definition trained_once (inputs target : list number) (learningRate : number)
    (sim : Sim) : Sim :=
  let net := train (network sim) inputs target learningRate in
  let epoch := (epochRef sim + 1)%Z in
  {| network := net; epochRef := epoch; epochs := epoch;
     lossHistory :=
       push_history (lossHistory sim) (epoch, updateVisuals net target);
     isPlaying := isPlaying sim; isOptimized := isOptimized sim |}.

(** The active layer is a layer in the forward and backward phases and
    [-1] otherwise; the history holds at most 200 entries; the displayed
    epoch count is the counter. *)
Definition sched_inv (nLayers : nat) (st : Scheduler) : Prop :=
  match direction st with
  | NONE | UPDATING => activeLayer st = (-1)%Z
  | FORWARD | BACKWARD => (0 <= activeLayer st < Z.of_nat nLayers)%Z
  end /\
  (length (lossHistory (sched_sim st)) <= 200)%nat /\
  epochs (sched_sim st) = epochRef (sched_sim st).

(** ** Activation edits and (re)initialisation *)

(** [keys.indexOf(current)]; [current] is [undefined] for a layer without
    an entry, which no key equals. *)
Fixpoint indexOf_from (i : Z) (keys : list ActivationKey)
    (key : ActivationKey) : Z :=
  match keys with
  | [] => (-1)%Z
  | k :: rest =>
      if decide (k = key) then i else indexOf_from (i + 1)%Z rest key
  end.

Definition Array_indexOf (keys : list ActivationKey)
    (current : option ActivationKey) : Z :=
  match current with
  | Some key => indexOf_from 0 keys key
  | None => (-1)%Z
  end.

(** [cycleActivation(layerIdx)] on [layerActivations]: the new list handed
    to [setLayerActivations].  An index beyond the end of the list would
    leave holes in the copy; that result is outside the model ([None]). *)
Definition cycleActivation (layerIdx : nat)
    (layerActivations : list ActivationKey) : option (list ActivationKey) :=
  let current := layerActivations !! layerIdx in
  let currentIndex := Array_indexOf ACTIVATION_KEYS current in
  let nextIndex :=
    Z.rem (currentIndex + 1) (Z.of_nat (length ACTIVATION_KEYS)) in
  let nextKey := default SIGMOID (ACTIVATION_KEYS !! Z.to_nat nextIndex) in
  if decide (layerIdx <= length layerActivations)%nat
  then Some (array_set layerActivations layerIdx nextKey)
  else None.

(** [new Array(size).fill(0)] for a size read from [layerSizes]: the size
    of a missing layer is [undefined], and [new Array(undefined)] is the
    one-element array. *)
Definition zeros_of (size : option Z) : Result (list number) :=
  match size with
  | Some n => new_Array_fill0 n
  | None => Ok [Num 0]
  end.

(** [if (v.length !== size) setV(new Array(size).fill(0))]: the vector
    after the effect. *)
Definition sync_size (v : list number) (size : option Z)
  : Result (list number) :=
  if bool_decide (Some (Z.of_nat (length v)) = size) then Ok v
  else zeros_of size.

(** The counters and flags as both initialisations reset them. *)
Definition fresh_sim (net : SimpleNetwork) : Sim :=
  {| network := net; epochRef := 0; epochs := 0; lossHistory := [];
     isPlaying := false; isOptimized := false |}.

(** The effect that runs when [layerDims] changes: the scheduler with the
    new network, and the input and target vectors after it.  [n] is the
    number of random draws so far. *)
Definition initialize_network (n : nat) (layerDims : list LayerDim)
    (layerActivations : list ActivationKey) (inputs target : list number)
  : Result (Scheduler * list number * list number) :=
  let layerSizes := sizes_of layerDims in
  net <- constructor n layerSizes layerActivations ;;
  let inputSize := layerSizes !! 0%nat in
  let outputSize := last layerSizes in
  inputs' <- sync_size inputs inputSize ;;
  target' <- sync_size target outputSize ;;
  Ok (at_rest (fresh_sim net), inputs', target').

(** Whether [forward(inputs)] raises a TypeError on a network as the
    constructor has built it; [forward] above gives the result of a call
    that does not.  The call raises at a layer without an activation key,
    where [ACTIVATION_FUNCTIONS[undefined].func] is read; and in the first
    transition when [inputs] has more entries than [weights[0]] has rows:
    the inner loop reads [currentWeights[k][j]] for every [k] below
    [inputs.length], and [currentWeights[k]] is [undefined] past the last
    row -- provided the loop over the units [j] of layer 1 runs at all.
    (Every later transition takes as many values as its matrix has rows.) *)
Definition forward_raises (net : SimpleNetwork) (inputs : list number)
  : bool :=
  existsb (fun i => bool_decide (activations net !! S i = None))
          (seq 0 (length (weights net)))
  || ((length (default [] (weights net !! 0%nat)) <? length inputs)%nat
      && (0 <? bound (layerSizes net) 1)%nat).

(** [resetSimulation()]: the new network is built, the counters and flags
    are reset, and [net.forward(inputs)] runs on the current inputs.  The
    result is how the call ends; the state a call that raises leaves
    behind is not modelled. *)
Definition resetSimulation (n : nat) (layerDims : list LayerDim)
    (layerActivations : list ActivationKey) (inputs : list number)
  : Outcome Scheduler :=
  match constructor n (sizes_of layerDims) layerActivations with
  | Throw_RangeError => Throws_RangeError
  | Ok net =>
      if forward_raises net inputs then Throws_TypeError
      else Returns (at_rest (fresh_sim (fst (forward net inputs))))
  end.

(** The key after [key] in the order of the registry, cyclically. *)
Definition next_key (key : ActivationKey) : ActivationKey :=
  match key with
  | SIGMOID => TANH
  | TANH => RELU
  | RELU => LEAKY_RELU
  | LEAKY_RELU => ELU
  | ELU => SIGMOID
  end.

(** [n] clicks on the activation control of layer [layerIdx]. *)
Definition cycle_n (n layerIdx : nat) (layerActivations : list ActivationKey)
  : option (list ActivationKey) :=
  Nat.iter n (fun acts => acts ≫= cycleActivation layerIdx)
           (Some layerActivations).

(** ** Interaction controller *)

(** [Math.abs]. *)
Definition Math_abs (a : number) : number :=
  match a with
  | NaN => NaN
  | Inf _ => Inf false
  | Num q => Num (Qred (Qabs q))
  end.

Inductive PanelId : Set := LOSS | SETTINGS.

Record Point : Type := { pt_x : number; pt_y : number }.

(** [draggingUIRef.current], when not null: [{ id, offsetX, offsetY }]. *)
Record Dragging : Type := {
  drag_id : PanelId; offsetX : number; offsetY : number
}.

(** The viewport state and the interaction refs of the component. *)
Record UI : Type := {
  ui_cameraAngle : CameraAngle;
  ui_viewScale : number;
  ui_viewOffset : ViewOffset;
  ui_isOrtho : bool;
  lossGraphPos : Point;
  viewSettingsPos : Point;
  isDraggingCanvasRef : bool;
  draggingUIRef : option Dragging;
  lastMouseRef : Point
}.

(** The state the component starts in. *)
Definition initial_ui : UI :=
  {| ui_cameraAngle := {| cam_h := lit 25; cam_v := lit 15 |};
     ui_viewScale := lit 1;
     ui_viewOffset := {| off_x := lit 0; off_y := lit 0 |};
     ui_isOrtho := false;
     lossGraphPos := {| pt_x := lit 24; pt_y := lit 80 |};
     viewSettingsPos := {| pt_x := lit 24; pt_y := lit 230 |};
     isDraggingCanvasRef := false;
     draggingUIRef := None;
     lastMouseRef := {| pt_x := lit 0; pt_y := lit 0 |} |}.

(** [handleStartUIDrag(e, id)]; [rect_left] and [rect_top] are the corner of
    [e.currentTarget.getBoundingClientRect()]. *)
Definition handleStartUIDrag (id : PanelId)
    (clientX clientY rect_left rect_top : number) (ui : UI) : UI :=
  {| ui_cameraAngle := ui_cameraAngle ui; ui_viewScale := ui_viewScale ui;
     ui_viewOffset := ui_viewOffset ui; ui_isOrtho := ui_isOrtho ui;
     lossGraphPos := lossGraphPos ui; viewSettingsPos := viewSettingsPos ui;
     isDraggingCanvasRef := isDraggingCanvasRef ui;
     draggingUIRef :=
       Some {| drag_id := id; offsetX := clientX - rect_left;
               offsetY := clientY - rect_top |};
     lastMouseRef := lastMouseRef ui |}.

Definition handleMouseDownCanvas (clientX clientY : number) (ui : UI) : UI :=
  {| ui_cameraAngle := ui_cameraAngle ui; ui_viewScale := ui_viewScale ui;
     ui_viewOffset := ui_viewOffset ui; ui_isOrtho := ui_isOrtho ui;
     lossGraphPos := lossGraphPos ui; viewSettingsPos := viewSettingsPos ui;
     isDraggingCanvasRef := true;
     draggingUIRef := draggingUIRef ui;
     lastMouseRef := {| pt_x := clientX; pt_y := clientY |} |}.

(** [handleMouseMove(e)]; [buttons] is [e.buttons]. *)
Definition handleMouseMove (clientX clientY : number) (buttons : Z)
    (ui : UI) : UI :=
  match draggingUIRef ui with
  | Some d =>
      let newX := clientX - offsetX d in
      let newY := clientY - offsetY d in
      let pos := {| pt_x := Math_max (lit 0) newX;
                    pt_y := Math_max (lit 0) newY |} in
      {| ui_cameraAngle := ui_cameraAngle ui; ui_viewScale := ui_viewScale ui;
         ui_viewOffset := ui_viewOffset ui; ui_isOrtho := ui_isOrtho ui;
         lossGraphPos :=
           match drag_id d with LOSS => pos | SETTINGS => lossGraphPos ui end;
         viewSettingsPos :=
           match drag_id d with
           | LOSS => viewSettingsPos ui
           | SETTINGS => pos
           end;
         isDraggingCanvasRef := isDraggingCanvasRef ui;
         draggingUIRef := draggingUIRef ui;
         lastMouseRef := lastMouseRef ui |}
  | None =>
      if negb (isDraggingCanvasRef ui) then ui
      else
        let dx := clientX - pt_x (lastMouseRef ui) in
        let dy := clientY - pt_y (lastMouseRef ui) in
        let prev := ui_cameraAngle ui in
        let orbit := (buttons =? 1)%Z in
        let pan := ((buttons =? 2) || (buttons =? 3))%Z in
        {| ui_cameraAngle :=
             if orbit
             then {| cam_h := cam_h prev + dx * lit 0.5;
                     cam_v := Math_max (lit (-90))
                                (Math_min (lit 90) (cam_v prev + dy * lit 0.5))
                  |}
             else prev;
           ui_viewScale := ui_viewScale ui;
           ui_viewOffset :=
             if orbit then ui_viewOffset ui
             else if pan
             then {| off_x := off_x (ui_viewOffset ui) + dx;
                     off_y := off_y (ui_viewOffset ui) + dy |}
             else ui_viewOffset ui;
           ui_isOrtho := if orbit then false else ui_isOrtho ui;
           lossGraphPos := lossGraphPos ui;
           viewSettingsPos := viewSettingsPos ui;
           isDraggingCanvasRef := isDraggingCanvasRef ui;
           draggingUIRef := draggingUIRef ui;
           lastMouseRef := {| pt_x := clientX; pt_y := clientY |} |}
  end.

Definition handleMouseUp (ui : UI) : UI :=
  {| ui_cameraAngle := ui_cameraAngle ui; ui_viewScale := ui_viewScale ui;
     ui_viewOffset := ui_viewOffset ui; ui_isOrtho := ui_isOrtho ui;
     lossGraphPos := lossGraphPos ui; viewSettingsPos := viewSettingsPos ui;
     isDraggingCanvasRef := false;
     draggingUIRef := None;
     lastMouseRef := lastMouseRef ui |}.

(** [handleWheel(e)]; [deltaY] is [e.deltaY]. *)
Definition handleWheel (deltaY : number) (ui : UI) : UI :=
  {| ui_cameraAngle := ui_cameraAngle ui;
     ui_viewScale :=
       Math_max (lit 0.05)
         (Math_min (lit 5) (ui_viewScale ui - deltaY * lit 0.001));
     ui_viewOffset := ui_viewOffset ui; ui_isOrtho := ui_isOrtho ui;
     lossGraphPos := lossGraphPos ui; viewSettingsPos := viewSettingsPos ui;
     isDraggingCanvasRef := isDraggingCanvasRef ui;
     draggingUIRef := draggingUIRef ui;
     lastMouseRef := lastMouseRef ui |}.

Definition set_view (angle : CameraAngle) (ortho : bool) (ui : UI) : UI :=
  {| ui_cameraAngle := angle; ui_viewScale := ui_viewScale ui;
     ui_viewOffset := ui_viewOffset ui; ui_isOrtho := ortho;
     lossGraphPos := lossGraphPos ui; viewSettingsPos := viewSettingsPos ui;
     isDraggingCanvasRef := isDraggingCanvasRef ui;
     draggingUIRef := draggingUIRef ui;
     lastMouseRef := lastMouseRef ui |}.

(** [handleAxisClick(e, view)] of the axis gizmo. *)
Definition handleAxisClick (view : CameraAngle) (ui : UI) : UI :=
  let isSameView :=
    (Math_abs (cam_h (ui_cameraAngle ui) - cam_h view) <? lit 0.1)
    && (Math_abs (cam_v (ui_cameraAngle ui) - cam_v view) <? lit 0.1) in
  if isSameView then set_view (ui_cameraAngle ui) (negb (ui_isOrtho ui)) ui
  else set_view view false ui.

(** The three axes of the gizmo and the view each one selects. *)
Inductive Axis : Set := axis_x | axis_y | axis_z.

Definition axis_view (a : Axis) : CameraAngle :=
  match a with
  | axis_x => {| cam_h := lit 90; cam_v := lit 0 |}
  | axis_y => {| cam_h := lit 0; cam_v := lit 90 |}
  | axis_z => {| cam_h := lit 0; cam_v := lit 0 |}
  end.

(** The pointer events the component listens to, with the handler each
    one is wired to. *)
Inductive Event : Type :=
| StartUIDrag (id : PanelId) (clientX clientY rect_left rect_top : number)
| MouseDownCanvas (clientX clientY : number)
| MouseMove (clientX clientY : number) (buttons : Z)
| MouseUp
| Wheel (deltaY : number)
| AxisClick (a : Axis)
| GizmoCenterClick
| ProjectionButton.

Definition handle (ui : UI) (e : Event) : UI :=
  match e with
  | StartUIDrag id x y l t => handleStartUIDrag id x y l t ui
  | MouseDownCanvas x y => handleMouseDownCanvas x y ui
  | MouseMove x y b => handleMouseMove x y b ui
  | MouseUp => handleMouseUp ui
  | Wheel d => handleWheel d ui
  | AxisClick a => handleAxisClick (axis_view a) ui
  | GizmoCenterClick =>
      set_view {| cam_h := lit 25; cam_v := lit 15 |} false ui
  | ProjectionButton =>
      set_view (ui_cameraAngle ui) (negb (ui_isOrtho ui)) ui
  end.

(** Every coordinate the event carries is a finite number. *)
Definition event_finite (e : Event) : Prop :=
  match e with
  | StartUIDrag _ x y l t => finite x /\ finite y /\ finite l /\ finite t
  | MouseDownCanvas x y => finite x /\ finite y
  | MouseMove x y _ => finite x /\ finite y
  | Wheel d => finite d
  | _ => True
  end.

(** The ranges the controller keeps: pitch within [-90, 90] degrees, zoom
    within [0.05, 5], both panels at non-negative positions; and every
    number of the state finite. *)
Definition ui_inv (ui : UI) : Prop :=
  between (lit (-90)) (lit 90) (cam_v (ui_cameraAngle ui)) /\
  between (lit 0.05) (lit 5) (ui_viewScale ui) /\
  (lit 0 <=? pt_x (lossGraphPos ui)) = true /\
  (lit 0 <=? pt_y (lossGraphPos ui)) = true /\
  (lit 0 <=? pt_x (viewSettingsPos ui)) = true /\
  (lit 0 <=? pt_y (viewSettingsPos ui)) = true /\
  finite (cam_h (ui_cameraAngle ui)) /\
  finite (off_x (ui_viewOffset ui)) /\ finite (off_y (ui_viewOffset ui)) /\
  finite (pt_x (lossGraphPos ui)) /\ finite (pt_y (lossGraphPos ui)) /\
  finite (pt_x (viewSettingsPos ui)) /\ finite (pt_y (viewSettingsPos ui)) /\
  finite (pt_x (lastMouseRef ui)) /\ finite (pt_y (lastMouseRef ui)) /\
  match draggingUIRef ui with
  | Some d => finite (offsetX d) /\ finite (offsetY d)
  | None => True
  end.

(** ** The activation control's mini-plot *)

(** The average pre-activation of a layer, as the activation control
    computes it from [displayStats.preActivations[lIdx] || []]. *)
Definition avgPreAct (layerPreActs : list number) : number :=
  if decide (0 < length layerPreActs)%nat
  then foldl add (lit 0) layerPreActs / of_nat (length layerPreActs)
  else lit 0.

(** [getActivationVisual(key, avgInput, width, height)]: the marker
    [(dotX, dotY)] of the result.  (The third component, the path string
    of the curve, is not modelled.) *)
Definition getActivationVisual (key : ActivationKey)
    (avgInput width height : number) : number * number :=
  let avgInput := finite_or_0 avgInput in
  let func := func (ACTIVATION_FUNCTIONS key) in
  let range := lit 3 in
  let normX := fun x => (x + range) / (range * lit 2) * width in
  let normY := fun y =>
    let yNorm :=
      match key with
      | SIGMOID => y
      | TANH => (y + lit 1) / lit 2
      | _ => (y + lit 1) / lit 3
      end in
    height - (Math_max (lit 0) (Math_min (lit 1) yNorm) * height) in
  let dotX := normX (Math_max (- range) (Math_min range avgInput)) in
  let dotY := normY (func avgInput) in
  (dotX, dotY).

(** ** Scene builder: the items of a scene *)

Inductive Kind : Set :=
  K_NODE | K_LAYER_CONTROL | K_ACTIVATION_CONTROL | K_LINK.

#[global] Instance Kind_eq_dec : EqDecision Kind.
Proof. solve_decision. Defined.

(** The type of an item and the layer it belongs to (for a link, the
    layer it leaves). *)
Definition item_kind (item : RenderItem) : Kind * nat :=
  match item with
  | NODE lIdx _ _ _ _ _ _ _ => (K_NODE, lIdx)
  | LAYER_CONTROL lIdx _ _ => (K_LAYER_CONTROL, lIdx)
  | ACTIVATION_CONTROL lIdx _ _ => (K_ACTIVATION_CONTROL, lIdx)
  | LINK lIdx _ _ _ _ _ _ _ => (K_LINK, lIdx)
  end.

(** The number of items of a kind and layer in a list. *)
Definition count_kind (k : Kind) (lIdx : nat) (items : list RenderItem)
  : nat :=
  length (filter (fun item => item_kind item = (k, lIdx)) items).

(** What identifies an item: its type and indices, the data of its
    [key] string. *)
Definition item_key (item : RenderItem) : Kind * nat * nat * nat :=
  match item with
  | NODE lIdx flatIdx _ _ _ _ _ _ => (K_NODE, lIdx, flatIdx, 0%nat)
  | LAYER_CONTROL lIdx _ _ => (K_LAYER_CONTROL, lIdx, 0%nat, 0%nat)
  | ACTIVATION_CONTROL lIdx _ _ => (K_ACTIVATION_CONTROL, lIdx, 0%nat, 0%nat)
  | LINK lIdx fromFlat toFlat _ _ _ _ _ => (K_LINK, lIdx, fromFlat, toFlat)
  end.

(** Two items with the same identity and the same depth. *)
Definition same_item (a b : RenderItem) : Prop :=
  item_key a = item_key b /\ item_depth a = item_depth b.

(** The number of units of a layer. *)
Definition units (dim : LayerDim) : nat :=
  (Z.to_nat (rows dim) * Z.to_nat (cols dim))%nat.

(** The number [a] is the rational [q]. *)
Definition num_is (a : number) (q : Q) : Prop :=
  exists p, a = Num p /\ (p == q)%Q.

(** The front view: yaw 0 and pitch 0, orthographic, zoom 1, no pan. *)
Definition front_orthographic (vw : View) : Prop :=
  cameraAngle vw = {| cam_h := lit 0; cam_v := lit 0 |} /\
  isOrtho vw = true /\ viewScale vw = lit 1 /\
  viewOffset vw = {| off_x := lit 0; off_y := lit 0 |}.

(** The initial four layers in the front orthographic view. *)
Definition view_front_ortho : View :=
  {| layerDims := fst initial_layers;
     cameraAngle := {| cam_h := lit 0; cam_v := lit 0 |};
     viewScale := lit 1;
     viewOffset := {| off_x := lit 0; off_y := lit 0 |};
     isOrtho := true |}.

(** ** Axis gizmo *)

(** The object [projectAxis] returns: [{ x, y, z }]. *)
Record AxisEnd : Type := { end_x : number; end_y : number; end_z : number }.

(** [projectAxis(x, y, z)] inside [renderAxisGizmo], which reads
    [cameraAngle] from the component state. *)
Definition projectAxis (vw : View) (x y z : number) : AxisEnd :=
  let radH := (cam_h (cameraAngle vw) * Math_PI) / lit 180 in
  let radV := (cam_v (cameraAngle vw) * Math_PI) / lit 180 in
  let cosH := Math_cos radH in
  let sinH := Math_sin radH in
  let cosV := Math_cos radV in
  let sinV := Math_sin radV in
  let x1 := x * cosH - z * sinH in
  let y1 := y in
  let z1 := x * sinH + z * cosH in
  let x2 := x1 in
  let y2 := y1 * cosV - z1 * sinV in
  let z2 := y1 * sinV + z1 * cosV in
  {| end_x := lit 50 + x2 * lit 35; end_y := lit 50 + y2 * lit 35;
     end_z := z2 |}.

(** An item of the gizmo: its [id] (which fixes colour, label and preset
    view) and the end point of its line. *)
Record GizmoItem : Type := { giz_id : Axis; giz_end : AxisEnd }.

Definition gizmo_origin (vw : View) : AxisEnd :=
  projectAxis vw (lit 0) (lit 0) (lit 0).

(** The three items in the order the source lists them. *)
Definition gizmo_axes (vw : View) : list GizmoItem :=
  [ {| giz_id := axis_x; giz_end := projectAxis vw (lit 1) (lit 0) (lit 0) |};
    {| giz_id := axis_y; giz_end := projectAxis vw (lit 0) (lit 1) (lit 0) |};
    {| giz_id := axis_z; giz_end := projectAxis vw (lit 0) (lit 0) (lit 1) |} ].

(** The comparator [(a, b) => a.end.z - b.end.z]. *)
Definition by_end_z (a b : GizmoItem) : number :=
  end_z (giz_end a) - end_z (giz_end b).

(** [items] of [renderAxisGizmo]. *)
Definition gizmo_items (vw : View) : list GizmoItem :=
  Array_sort by_end_z (gizmo_axes vw).

(** The four rotation coefficients lie in [-1, 1]. *)
Definition trig_unit (vw : View) : Prop :=
  between (lit (-1)) (lit 1) (Math_cos (radH vw)) /\
  between (lit (-1)) (lit 1) (Math_sin (radH vw)) /\
  between (lit (-1)) (lit 1) (Math_cos (radV vw)) /\
  between (lit (-1)) (lit 1) (Math_sin (radV vw)).

Definition end_z_le (a b : GizmoItem) : Prop :=
  (end_z (giz_end a) <=? end_z (giz_end b)) = true.

(** The end point lies in the square from 15 to 85 of the 100 x 100
    drawing, at a depth between -1 and 1. *)
Definition in_gizmo_box (e : AxisEnd) : Prop :=
  between (lit 15) (lit 85) (end_x e) /\
  between (lit 15) (lit 85) (end_y e) /\
  between (lit (-1)) (lit 1) (end_z e).

(** Nine layers, the initial four and five added ones, seen from the side
    (yaw 90 degrees, pitch 0) in perspective with the default zoom. *)
Definition view_side_9 : View :=
  {| layerDims := fst (Nat.iter 5 addLayer initial_layers);
     cameraAngle := {| cam_h := lit 90; cam_v := lit 0 |};
     viewScale := lit 1;
     viewOffset := {| off_x := lit 0; off_y := lit 0 |};
     isOrtho := false |}.
(** * Facts *)

(** ** Numbers *)

Lemma Qis_zero_spec (q : Q) : Qis_zero q = true <-> (q == 0)%Q.
Proof.
  unfold Qis_zero, Qeq. simpl. rewrite Z.eqb_eq. lia.
Qed.

Lemma Qltb_spec (x y : Q) : Qltb x y = true <-> (x < y)%Q.
Proof. unfold Qltb, Qlt. apply Z.ltb_lt. Qed.

Lemma Qltb_false (x y : Q) : Qltb x y = false <-> (y <= x)%Q.
Proof. unfold Qltb, Qle. rewrite Z.ltb_ge. reflexivity. Qed.

Lemma Qis_zero_Qred (q : Q) : Qis_zero (Qred q) = Qis_zero q.
Proof.
  apply eq_true_iff_eq. rewrite !Qis_zero_spec.
  now rewrite (Qred_correct q).
Qed.

Lemma isFinite_Num (a : number) :
  isFinite a = true <-> exists q, a = Num q.
Proof.
  destruct a; simpl; split; try discriminate; eauto.
  all: intros [q Hq]; discriminate.
Qed.

Lemma isFinite_lit (q : Q) : isFinite (lit q) = true.
Proof. reflexivity. Qed.

Lemma isFinite_of_Z (z : Z) : isFinite (of_Z z) = true.
Proof. reflexivity. Qed.

Lemma isFinite_of_nat (n : nat) : isFinite (of_nat n) = true.
Proof. reflexivity. Qed.

Lemma isFinite_add (a b : number) :
  isFinite a = true -> isFinite b = true -> isFinite (a + b) = true.
Proof. destruct a, b; simpl; congruence. Qed.

Lemma isFinite_sub (a b : number) :
  isFinite a = true -> isFinite b = true -> isFinite (a - b) = true.
Proof. destruct a, b; simpl; congruence. Qed.

Lemma isFinite_mul (a b : number) :
  isFinite a = true -> isFinite b = true -> isFinite (a * b) = true.
Proof. destruct a, b; simpl; congruence. Qed.

Lemma isFinite_neg (a : number) :
  isFinite a = true -> isFinite (- a) = true.
Proof. destruct a; simpl; congruence. Qed.

Lemma isFinite_div_lit (a : number) (q : Q) :
  isFinite a = true -> ~ (q == 0)%Q -> isFinite (a / lit q) = true.
Proof.
  intros Ha Hq. destruct a; try discriminate. unfold lit. simpl.
  rewrite Qis_zero_Qred.
  destruct (Qis_zero q) eqn:E; [|reflexivity].
  apply Qis_zero_spec in E. contradiction.
Qed.

Lemma finite_or_0_isFinite (s : number) : isFinite (finite_or_0 s) = true.
Proof. unfold finite_or_0. destruct (isFinite s) eqn:E; [exact E|reflexivity]. Qed.

Lemma finite_or_0_id (s : number) : isFinite s = true -> finite_or_0 s = s.
Proof. unfold finite_or_0. now intros ->. Qed.

Create HintDb finite.
#[local] Hint Resolve isFinite_lit isFinite_of_Z isFinite_of_nat isFinite_add
  isFinite_sub isFinite_mul isFinite_neg finite_or_0_isFinite : finite.

Lemma Qred_Qred (q : Q) : Qred (Qred q) = Qred q.
Proof. apply Qred_complete, Qred_correct. Qed.

(** [1.0 * d = d] for every difference [d]. *)
Lemma mul_1_sub (a b : number) : lit 1.0 * (a - b) = a - b.
Proof.
  destruct a as [| s | x], b as [| t | y]; simpl; try reflexivity.
  - destruct (Bool.eqb s t); simpl; [reflexivity|]. now rewrite xorb_false_r.
  - now rewrite xorb_false_r.
  - now rewrite xorb_false_r.
  - f_equal. rewrite <- (Qred_Qred (x - y)) at 2.
    apply Qred_complete. change (Qred 1.0) with 1%Q.
    rewrite (Qred_correct (x - y)). ring.
Qed.

(** On numbers that are not NaN, [<=?] is the negation of the reverse [<?]
    and is total. *)
Lemma le_not_lt (a b : number) :
  isNaN a = false -> isNaN b = false -> (a <=? b) = negb (b <? a).
Proof. destruct a, b; simpl; congruence. Qed.

Lemma le_trans (a b c : number) :
  (a <=? b) = true -> (b <=? c) = true -> (a <=? c) = true.
Proof.
  destruct a as [| s | x], b as [| t | y], c as [| u | z]; simpl;
    try congruence;
    try (destruct s; simpl; congruence);
    try (destruct t; simpl; congruence);
    try (destruct u; simpl; congruence);
    try (destruct s, t, u; simpl; congruence).
  - destruct t, u; simpl; congruence.
  - rewrite !negb_true_iff, !Qltb_false. intros; eapply Qle_trans; eassumption.
Qed.

(** ** Activation registry *)

(** C5: the registry has exactly the five keys SIGMOID, TANH, RELU,
    LEAKY_RELU and ELU, and for each of them the forward function and the
    derivative (a function of the forward output) are the formulas of the
    specification. *)
Theorem activation_registry :
  (forall key, key ∈ ACTIVATION_KEYS) /\
  NoDup ACTIVATION_KEYS /\
  length ACTIVATION_KEYS = 5%nat /\
  forall key x,
    func (ACTIVATION_FUNCTIONS key) x = spec_func key x /\
    deriv (ACTIVATION_FUNCTIONS key) x = spec_deriv key x.
Proof.
  split; [|split; [|split]].
  - intros []; unfold ACTIVATION_KEYS; repeat constructor.
  - apply (bool_decide_unpack _). reflexivity.
  - reflexivity.
  - intros key x; split; [|destruct key; reflexivity].
    destruct key; try reflexivity.
    cbn [ACTIVATION_FUNCTIONS func spec_func]. now rewrite mul_1_sub.
Qed.

(** ** setLayerBias *)

(** C10: for a layer index outside 1 .. (number of layers - 1),
    [setLayerBias] changes no field of the network. *)
Theorem setLayerBias_out_of_range (net : SimpleNetwork) (layerIdx : Z)
    (value : number) :
  length (biases net) = (length (layerSizes net) - 1)%nat ->
  ~ (1 <= layerIdx <= Z.of_nat (length (layerSizes net)) - 1)%Z ->
  setLayerBias net layerIdx value = net.
Proof.
  intros Hb Hout. unfold setLayerBias.
  destruct ((layerIdx - 1 >=? 0)%Z && _) eqn:E; [|reflexivity].
  apply andb_true_iff in E as [E1 E2].
  apply Z.geb_le in E1. apply Z.ltb_lt in E2. lia.
Qed.

(** ** forward *)

Lemma array_set_lookup_eq {A} (l : list A) (i : nat) (v : A) :
  (i <= length l)%nat -> array_set l i v !! i = Some v.
Proof.
  intros Hi. unfold array_set. case_decide.
  - by apply list_lookup_insert_eq.
  - assert (i = length l) as -> by lia. apply list_lookup_middle. done.
Qed.

Lemma array_set_lookup_ne {A} (l : list A) (i j : nat) (v : A) :
  (i <= length l)%nat -> i <> j -> array_set l i v !! j = l !! j.
Proof.
  intros Hi Hne. unfold array_set. case_decide.
  - by apply list_lookup_insert_ne.
  - assert (i = length l) as -> by lia.
    destruct (decide (j < length l)%nat).
    + by apply lookup_app_l.
    + rewrite !lookup_ge_None_2; [done|lia|]. rewrite length_app. simpl. lia.
Qed.

Lemma array_set_length {A} (l : list A) (i : nat) (v : A) :
  (i <= length l)%nat -> length (array_set l i v) = Nat.max (length l) (S i).
Proof.
  intros Hi. unfold array_set. case_decide.
  - rewrite length_insert. lia.
  - rewrite length_app. simpl. lia.
Qed.

Lemma array_set_id {A} (l : list A) (i : nat) (v : A) :
  l !! i = Some v -> array_set l i v = l.
Proof.
  intros Hl. unfold array_set.
  rewrite decide_True by (eapply lookup_lt_Some; eassumption).
  by apply list_insert_id.
Qed.

Lemma with_caches_id (net : SimpleNetwork) :
  with_caches net (values net) (preActivations net) = net.
Proof. by destruct net. Qed.

Lemma same_params_refl (net : SimpleNetwork) : same_params net net.
Proof. by repeat split. Qed.

Lemma same_params_caches (s net : SimpleNetwork) vs ps :
  same_params s net -> same_params (with_caches s vs ps) net.
Proof. intros (?&?&?&?&?). by repeat split. Qed.

Lemma layer_pre_ext (s s' : SimpleNetwork) (i : nat) :
  same_params s' s -> values s' !! i = values s !! i ->
  layer_pre s' i = layer_pre s i.
Proof.
  intros (Hs&_&Hw&_&Hb) Hv. unfold layer_pre, row.
  by rewrite Hs, Hw, Hb, Hv.
Qed.

Lemma layer_values_ext (s s' : SimpleNetwork) (i : nat) :
  same_params s' s -> values s' !! i = values s !! i ->
  layer_values s' i = layer_values s i.
Proof.
  intros Hp Hv. unfold layer_values, f_, activation.
  rewrite (layer_pre_ext s s' i Hp Hv).
  destruct Hp as (_&->&_). done.
Qed.

Lemma forward_layer_eq (net : SimpleNetwork) (i : nat) :
  forward_layer net i =
  with_caches net (array_set (values net) (S i) (layer_values net i))
                  (array_set (preActivations net) (S i) (layer_pre net i)).
Proof. reflexivity. Qed.

Lemma fwd_inv_init (net : SimpleNetwork) (inputs : list number) :
  fwd_inv net inputs 0
    (with_caches net (array_set (values net) 0 inputs)
                     (array_set (preActivations net) 0 inputs)).
Proof.
  split; [apply same_params_caches, same_params_refl|]. simpl.
  rewrite !array_set_length, !array_set_lookup_eq by lia.
  repeat split; try done; lia.
Qed.

Lemma fwd_inv_step (net : SimpleNetwork) (inputs : list number) (k : nat)
    (s : SimpleNetwork) :
  fwd_inv net inputs k s -> fwd_inv net inputs (S k) (forward_layer s k).
Proof.
  intros (Hp & Hlv & Hlp & Hv0 & Hp0 & Hk).
  rewrite forward_layer_eq. set (s1 := with_caches s _ _).
  assert (Hps : same_params s1 s)
    by apply same_params_caches, same_params_refl.
  assert (Hvs : forall j, j <> S k -> values s1 !! j = values s !! j)
    by (intros; simpl; apply array_set_lookup_ne; lia).
  assert (Hpr : forall j, j <> S k ->
                  preActivations s1 !! j = preActivations s !! j)
    by (intros; simpl; apply array_set_lookup_ne; lia).
  split; [by apply same_params_caches|].
  split; [simpl; rewrite array_set_length; lia|].
  split; [simpl; rewrite array_set_length; lia|].
  split; [by rewrite Hvs|]. split; [by rewrite Hpr|].
  intros i Hi.
  rewrite (layer_values_ext s s1 i), (layer_pre_ext s s1 i)
    by (done || (apply Hvs; lia)).
  destruct (decide (i = k)) as [->|Hne].
  - simpl. rewrite !array_set_lookup_eq by lia. done.
  - rewrite Hvs, Hpr by lia. apply Hk. lia.
Qed.

Lemma fwd_inv_loop (net : SimpleNetwork) (inputs : list number) (k : nat)
    (s : SimpleNetwork) :
  fwd_inv net inputs 0 s ->
  fwd_inv net inputs k (foldl forward_layer s (seq 0 k)).
Proof.
  intros H0. induction k as [|k IH]; [done|].
  rewrite seq_S, foldl_app. simpl. by apply fwd_inv_step.
Qed.

(** The state [forward] leaves: the inputs in row 0 of both caches, and in
    every later row the pre-activations and values computed from the row
    before it. *)
Lemma forward_inv (net : SimpleNetwork) (inputs : list number) :
  fwd_inv net inputs (length (weights net)) (fst (forward net inputs)).
Proof. unfold forward. simpl. apply fwd_inv_loop, fwd_inv_init. Qed.

Lemma forward_layer_fix (s : SimpleNetwork) (i : nat) :
  values s !! S i = Some (layer_values s i) ->
  preActivations s !! S i = Some (layer_pre s i) ->
  forward_layer s i = s.
Proof.
  intros Hv Hp. rewrite forward_layer_eq, !array_set_id by done.
  apply with_caches_id.
Qed.

Lemma foldl_fix {A B} (f : A -> B -> A) (a : A) (l : list B) :
  (forall b, b ∈ l -> f a b = a) -> foldl f a l = a.
Proof.
  induction l as [|b l IH]; [done|]. intros H. simpl.
  rewrite H by left. apply IH. intros b' Hb'. apply H. by right.
Qed.

Lemma forward_output (net : SimpleNetwork) (inputs : list number) :
  forward net inputs =
  (fst (forward net inputs),
   default [] (last (values (fst (forward net inputs))))).
Proof. reflexivity. Qed.

(** C8: a second [forward] on the same inputs returns the same output and
    leaves the network as the first call left it. *)
Theorem forward_idempotent (net : SimpleNetwork) (inputs : list number) :
  forward (fst (forward net inputs)) inputs = forward net inputs.
Proof.
  pose proof (forward_inv net inputs) as (Hp & _ & _ & Hv0 & Hp0 & Hk).
  set (s := fst (forward net inputs)) in *.
  assert (Hs : fst (forward s inputs) = s).
  { unfold forward at 1. simpl.
    rewrite (array_set_id _ _ _ Hv0), (array_set_id _ _ _ Hp0).
    rewrite with_caches_id. apply foldl_fix. intros i Hi.
    apply elem_of_seq in Hi. destruct Hp as (_&_&Hw&_). rewrite Hw in Hi.
    apply forward_layer_fix; apply Hk; lia. }
  rewrite (forward_output s inputs), Hs. symmetry. apply forward_output.
Qed.

Section FiniteOutputs.

(** *** Finite outputs

    What is assumed of the engine: [Math.exp] of a finite number is
    non-negative (possibly [+Infinity]) and at most 1 on negative arguments,
    and [Math.tanh] of a finite number is finite. *)

Hypothesis Math_exp_nonneg :
  forall x, isFinite x = true -> (lit 0 <=? Math_exp x) = true.
Hypothesis Math_exp_neg_le_1 :
  forall x, isFinite x = true -> (x <? lit 0) = true ->
    (Math_exp x <=? lit 1) = true.
Hypothesis Math_tanh_finite :
  forall x, isFinite x = true -> isFinite (Math_tanh x) = true.

Lemma Math_max_isFinite (a b : number) :
  isFinite a = true -> isFinite b = true -> isFinite (Math_max a b) = true.
Proof.
  destruct a, b; simpl; try congruence. intros _ _. by destruct (Qltb _ _).
Qed.

Lemma sigmoid_isFinite (e : number) :
  (lit 0 <=? e) = true -> isFinite (lit 1 / (lit 1 + e)) = true.
Proof.
  destruct e as [| s | r]; simpl; [discriminate| |].
  - destruct s; [discriminate|]. reflexivity.
  - rewrite negb_true_iff, Qltb_false. intros Hr.
    rewrite Qis_zero_Qred.
    destruct (Qis_zero (Qred 1 + r)) eqn:E; [|reflexivity].
    apply Qis_zero_spec in E. change (Qred 1) with 1%Q in E.
    change (Qred 0) with 0%Q in Hr. lra.
Qed.

Lemma elu_isFinite (e : number) :
  (lit 0 <=? e) = true -> (e <=? lit 1) = true ->
  isFinite (lit 1.0 * (e - lit 1)) = true.
Proof.
  destruct e as [| s | r]; simpl; try discriminate; [|reflexivity].
  destruct s; simpl; discriminate.
Qed.

(** Every activation function of the registry maps finite numbers to finite
    numbers. *)
Lemma func_isFinite (key : ActivationKey) (x : number) :
  isFinite x = true -> isFinite (func (ACTIVATION_FUNCTIONS key) x) = true.
Proof.
  intros Hx. destruct key; cbn [ACTIVATION_FUNCTIONS func].
  - apply sigmoid_isFinite, Math_exp_nonneg. by apply isFinite_neg.
  - by apply Math_tanh_finite.
  - by apply Math_max_isFinite.
  - apply Math_max_isFinite; [|done]. by apply isFinite_mul.
  - destruct (x >=? lit 0) eqn:E; [done|].
    apply elu_isFinite; [by apply Math_exp_nonneg|].
    apply Math_exp_neg_le_1; [done|].
    destruct x; try discriminate. unfold ge in E. simpl in E.
    by apply negb_false_iff in E.
Qed.

Lemma layer_pre_length (s : SimpleNetwork) (i : nat) :
  length (layer_pre s i) = bound (layerSizes s) (S i).
Proof. unfold layer_pre. by rewrite length_map, length_seq. Qed.

Lemma layer_values_isFinite (s : SimpleNetwork) (i : nat) :
  Forall (fun v => isFinite v = true) (layer_values s i).
Proof.
  unfold layer_values, layer_pre. rewrite Forall_map, Forall_map.
  apply Forall_forall. intros j _. apply func_isFinite, finite_or_0_isFinite.
Qed.

(** After [forward] on a network of [L >= 1] layers, the caches have [L]
    rows and the returned array is the last row of the values. *)
Lemma forward_returns (net : SimpleNetwork) (inputs : list number) :
  wf net ->
  length (values (fst (forward net inputs))) = length (layerSizes net) /\
  snd (forward net inputs) =
    row (values (fst (forward net inputs))) (length (layerSizes net) - 1).
Proof.
  intros Hwf.
  pose proof (forward_inv net inputs) as (_ & Hlv & _).
  rewrite (wf_values _ Hwf), (wf_weights _ Hwf) in Hlv.
  pose proof (wf_layers _ Hwf) as HL.
  assert (Hlen : length (values (fst (forward net inputs)))
                 = length (layerSizes net)) by lia.
  split; [done|].
  rewrite forward_output. cbn [snd]. rewrite last_lookup, Hlen.
  unfold row. do 2 f_equal. lia.
Qed.

(** The loop of [forward] over the previous layer's units, by index,
    computes the sum the specification describes. *)
Lemma weighted_sum_spec (prevValues : list number)
    (currentWeights : list (list number)) (j : nat) :
  weighted_sum prevValues currentWeights j
  = spec_weighted_sum (lit 0) prevValues currentWeights j.
Proof.
  unfold weighted_sum. generalize (lit 0) as sum. revert currentWeights.
  induction prevValues as [|v prevValues IH]; intros currentWeights sum;
    [done|].
  cbn [length seq foldl spec_weighted_sum].
  rewrite <- fmap_S_seq, foldl_fmap, <- IH, head_lookup.
  change (at_ (v :: prevValues) 0) with v.
  change (row currentWeights 0) with (default [] (currentWeights !! 0%nat)).
  generalize (sum + v * at_ (default [] (currentWeights !! 0%nat)) j) as a.
  generalize (seq 0 (length prevValues)) as ks.
  induction ks as [|k ks IHks]; intros a; [done|].
  cbn [foldl]. rewrite <- IHks. do 3 f_equal.
  unfold row. by rewrite lookup_tail.
Qed.

(** C3: on a network of at least 2 layers and an input of the input
    layer's size, [forward] stores the input as the values of layer 0 and
    computes every later layer from the one before it: each pre-activation
    is the weighted sum of the previous layer's values plus the unit's
    bias, replaced by 0 when it is not finite, and each value is the
    layer's activation function at the pre-activation; it returns the
    values of the output layer, which are finite and as many as the output
    layer's size. *)
Theorem forward_finite (net : SimpleNetwork) (inputs : list number) :
  wf net ->
  (2 <= length (layerSizes net))%nat ->
  length inputs = bound (layerSizes net) 0 ->
  let net' := fst (forward net inputs) in
  let out := snd (forward net inputs) in
  let last := (length (layerSizes net) - 1)%nat in
  values net' !! 0%nat = Some inputs /\
  (forall i, (i < last)%nat ->
     exists prev pre,
       values net' !! i = Some prev /\
       preActivations net' !! S i = Some pre /\
       pre = spec_pre_activations net i prev /\
       values net' !! S i
       = Some (map (func (ACTIVATION_FUNCTIONS
                            (default SIGMOID (activations net !! S i))))
                   pre)) /\
  values net' !! last = Some out /\
  length out = bound (layerSizes net) last /\
  Forall (fun v => isFinite v = true) out.
Proof.
  intros Hwf HL Hin net' out last.
  assert (Hold :
    (forall i, (i < last)%nat ->
       preActivations net' !! S i =
         Some (map (fun j =>
                      finite_or_0
                        (weighted_sum (row (values net') i)
                                      (default [] (weights net !! i)) j
                         + at_ (row (biases net) i) j))
                   (seq 0 (bound (layerSizes net) (S i)))) /\
       values net' !! S i =
         Some (map (f_ net (S i)) (row (preActivations net') (S i)))) /\
    out = row (values net') last /\
    length out = bound (layerSizes net) last /\
    Forall (fun v => isFinite v = true) out);
  [|destruct Hold as (Hlayers & Hout & Hlen & Hfin);
    pose proof (forward_inv net inputs) as (_ & Hlv & _ & Hv0 & _);
    fold net' in Hlv, Hv0;
    rewrite (wf_values _ Hwf), (wf_weights _ Hwf) in Hlv;
    pose proof (wf_layers _ Hwf) as HLs;
    assert (Hrows : forall i, (i <= last)%nat ->
              exists r, values net' !! i = Some r)
      by (intros i Hi; apply lookup_lt_is_Some_2; unfold last in Hi; lia);
    split; [exact Hv0|]; split;
    [|split; [|by split]]].
  3:{ destruct (Hrows last ltac:(done)) as [r Hr].
      rewrite Hout. unfold row. by rewrite Hr. }
  2:{ intros i Hi. destruct (Hlayers i Hi) as [Hpa Hv].
      destruct (Hrows i ltac:(lia)) as [prev Hprev].
      eexists prev, _. split; [exact Hprev|]. split; [exact Hpa|].
      split.
      - unfold spec_pre_activations, row. rewrite Hprev.
        cbn [default from_option id].
        apply map_ext. intros j. by rewrite weighted_sum_spec.
      - rewrite Hv. unfold row. rewrite Hpa. done. }
  pose proof (forward_inv net inputs) as (Hp & _ & _ & _ & _ & Hk).
  fold net' in Hp, Hk. rewrite (wf_weights _ Hwf) in Hk. fold last in Hk.
  destruct (forward_returns net inputs Hwf) as [_ Hout].
  fold net' out last in Hout.
  assert (Hpre : forall i, layer_pre net' i =
            map (fun j =>
                   finite_or_0
                     (weighted_sum (row (values net') i)
                                   (default [] (weights net !! i)) j
                      + at_ (row (biases net) i) j))
                (seq 0 (bound (layerSizes net) (S i)))).
  { intros i. unfold layer_pre. destruct Hp as (->&_&->&_&->). done. }
  assert (Hf : forall i, f_ net' i = f_ net i).
  { intros i. unfold f_, activation. destruct Hp as (_&->&_). done. }
  split.
  { intros i Hi. destruct (Hk i Hi) as [Hv Hpa]. split.
    - by rewrite Hpa, Hpre.
    - unfold row at 1. rewrite Hv, Hpa. simpl. unfold layer_values.
      by rewrite Hf. }
  split; [done|].
  assert (Hlast : out = layer_values net' (last - 1)).
  { rewrite Hout. unfold row.
    replace last with (S (last - 1)) at 1 by (unfold last; lia).
    destruct (Hk (last - 1)%nat) as [-> _]; [unfold last; lia|]. done. }
  rewrite Hlast. split.
  - unfold layer_values. rewrite length_map, layer_pre_length.
    destruct Hp as (->&_). f_equal. unfold last. lia.
  - apply layer_values_isFinite.
Qed.

End FiniteOutputs.

(** ** train *)

Lemma hidden_errors_ext (s net : SimpleNetwork) k next w v :
  layerSizes s = layerSizes net -> activations s = activations net ->
  hidden_errors s k next w v = hidden_errors net k next w v.
Proof.
  intros Hs Ha. unfold hidden_errors, f', activation. by rewrite Hs, Ha.
Qed.

(** One iteration of the backward loop: the caches and the architecture are
    untouched, only transition [i] of the parameters changes, and for
    [i > 0] the error of layer [i] is recorded, computed from the weights
    of transition [i] as this iteration leaves them. *)
Lemma train_layer_spec (lr : number) (s : SimpleNetwork)
    (E : gmap nat (list number)) (i : nat) :
  (i < length (weights s))%nat ->
  let r := train_layer lr (s, E) i in
  values (fst r) = values s /\
  layerSizes (fst r) = layerSizes s /\
  activations (fst r) = activations s /\
  length (weights (fst r)) = length (weights s) /\
  (forall j, j <> i -> weights (fst r) !! j = weights s !! j) /\
  snd r =
    (if decide (0 < i)%nat
     then <[i := hidden_errors s i (default [] (E !! S i))
                   (default [] (weights (fst r) !! i)) (row (values s) i)]> E
     else E).
Proof.
  intros Hi. unfold train_layer. cbv zeta.
  set (wd := foldl _ (default [] (weights s !! i), _) _).
  set (b := foldl _ (row (biases s) i) _).
  destruct (decide (0 < i)%nat) as [Hpos|Hpos]; cbn [fst snd with_params
    values layerSizes activations weights].
  - rewrite length_insert. repeat split; try done.
    + intros j Hj. by apply list_lookup_insert_ne.
    + rewrite list_lookup_insert_eq by done. done.
  - rewrite length_insert. repeat split; try done.
    intros j Hj. by apply list_lookup_insert_ne.
Qed.

Lemma train_fold (lr : number) (m : nat) :
  forall (s : SimpleNetwork) (E : gmap nat (list number)),
  (m <= length (weights s))%nat ->
  let r := foldl (train_layer lr) (s, E) (rev (seq 0 m)) in
  values (fst r) = values s /\
  layerSizes (fst r) = layerSizes s /\
  activations (fst r) = activations s /\
  length (weights (fst r)) = length (weights s) /\
  (forall i, (m <= i)%nat ->
     weights (fst r) !! i = weights s !! i /\ snd r !! i = E !! i) /\
  (forall i, (0 < i < m)%nat ->
     snd r !! i =
       Some (hidden_errors s i (default [] (snd r !! S i))
               (default [] (weights (fst r) !! i)) (row (values s) i))).
Proof.
  induction m as [|m IH]; intros s E Hm r.
  { subst r. simpl. repeat split; try done. intros; lia. }
  subst r. rewrite seq_S, rev_unit. cbn [foldl Nat.add].
  pose proof (train_layer_spec lr s E m ltac:(lia)) as H1.
  destruct (train_layer lr (s, E) m) as [s1 E1]. cbn [fst snd] in H1.
  destruct H1 as (Hv1 & Hs1 & Ha1 & Hl1 & Hw1 & HE1).
  pose proof (IH s1 E1 ltac:(lia)) as H2.
  destruct (foldl (train_layer lr) (s1, E1) (rev (seq 0 m))) as [s2 E2].
  cbn [fst snd] in *.
  destruct H2 as (Hv2 & Hs2 & Ha2 & Hl2 & Hframe & Hhid).
  split; [congruence|]. split; [congruence|]. split; [congruence|].
  split; [congruence|]. split.
  - intros i Hi. destruct (Hframe i ltac:(lia)) as [-> ->].
    split; [apply Hw1; lia|]. rewrite HE1. case_decide; [|done].
    apply lookup_insert_ne. lia.
  - intros i Hi. destruct (decide (i = m)) as [->|Hne].
    + destruct (Hframe m ltac:(lia)) as [-> ->].
      destruct (Hframe (S m) ltac:(lia)) as [_ ->].
      rewrite HE1. rewrite decide_True by lia.
      rewrite lookup_insert_eq, lookup_insert_ne by lia. done.
    + rewrite (Hhid i ltac:(lia)), Hv1.
      f_equal. apply hidden_errors_ext; done.
Qed.

Lemma forward_row_length (net : SimpleNetwork) (inputs : list number) (i : nat) :
  wf net -> length inputs = bound (layerSizes net) 0 ->
  (i < length (layerSizes net))%nat ->
  length (row (values (fst (forward net inputs))) i) = bound (layerSizes net) i.
Proof.
  intros Hwf Hin Hi.
  pose proof (forward_inv net inputs) as (Hp & _ & _ & Hv0 & _ & Hk).
  rewrite (wf_weights _ Hwf) in Hk. unfold row.
  destruct i as [|i].
  - by rewrite Hv0.
  - destruct (Hk i ltac:(lia)) as [-> _]. cbn [from_option id].
    unfold layer_values. rewrite length_map, layer_pre_length.
    destruct Hp as (->&_). done.
Qed.

(** The errors [train] computes, with the weights it reads for them: the
    error of a hidden layer is formed from the weights of its outgoing
    transition as they stand at the end of the call. *)
Lemma train_errors (net : SimpleNetwork) (inputs targets : list number)
    (lr : number) :
  wf net ->
  length inputs = bound (layerSizes net) 0 ->
  let fwd := fst (forward net inputs) in
  let res := train_trace net inputs targets lr in
  let last := (length (layerSizes net) - 1)%nat in
  values (fst res) = values fwd /\
  snd res !! last =
    Some (map (fun u => (at_ targets u - at_ (row (values fwd) last) u)
                        * f' net last (at_ (row (values fwd) last) u))
              (seq 0 (bound (layerSizes net) last))) /\
  forall k, (0 < k < last)%nat ->
    snd res !! k =
      Some (hidden_errors net k (default [] (snd res !! S k))
              (default [] (weights (fst res) !! k)) (row (values fwd) k)).
Proof.
  intros Hwf Hin fwd res last.
  pose proof (forward_inv net inputs) as ((Hs & Ha & Hw & _) & _).
  fold fwd in Hs, Ha, Hw.
  subst res. unfold train_trace. fold fwd. rewrite Hs, Hw. fold last.
  rewrite (wf_weights _ Hwf). fold last.
  match goal with |- context [foldl _ (fwd, ?E0) _] =>
    pose proof (train_fold lr last fwd E0) as H end.
  rewrite Hw, (wf_weights _ Hwf) in H. specialize (H ltac:(done)).
  cbv zeta in H.
  destruct (foldl _ _ _) as [s2 E2]. cbn [fst snd] in *.
  destruct H as (Hv & Hs2 & Ha2 & _ & Hframe & Hhid).
  split; [done|]. split.
  - destruct (Hframe last ltac:(done)) as [_ ->].
    rewrite lookup_singleton_eq. f_equal. unfold output_errors.
    pose proof (wf_layers _ Hwf) as HL.
    pose proof (forward_row_length net inputs last Hwf Hin ltac:(lia)) as Hlen.
    fold fwd in Hlen. rewrite Hlen.
    unfold f', activation. by rewrite Ha.
  - intros k Hk. rewrite (Hhid k Hk). f_equal.
    apply hidden_errors_ext; done.
Qed.

(** *** The updates [train] applies *)

(** The update of one weight: skipped when the gradient is not finite,
    otherwise the learning rate times the gradient, limited to [-1, 1],
    added to the weight and recorded as its delta. *)
Lemma update_weight_spec (lr : number) (errs vals : list number)
    (w d : list (list number)) (k j : nat) :
  let gradient := at_ errs j * at_ vals k in
  update_weight lr errs vals (w, d) k j =
  if isFinite gradient
  then (alter (alter (fun x => x + Math_max (lit (-1))
                                    (Math_min (lit 1) (lr * gradient))) j) k w,
        alter (<[j := Math_max (lit (-1)) (Math_min (lit 1) (lr * gradient))]>)
              k d)
  else (w, d).
Proof. reflexivity. Qed.

(** C2 (code bug): on the 1-1 network with input 1, target [+Infinity] and
    learning rate 0.1, the gradient of the output unit's weight and bias is
    [+Infinity].  The weight update is skipped (the weight stays 0.5), but
    the bias update is applied: the bias goes from 0.1 to 1.1. *)
Theorem train_bias_update_not_skipped :
  let res := train_trace net_1_1 [lit 1] [Infinity] (lit 0.1) in
  snd res !! 1%nat = Some [Infinity] /\
  weights (fst res) = weights net_1_1 /\
  weightDeltas (fst res) = weightDeltas net_1_1 /\
  biases net_1_1 = [[lit 0.1]] /\
  biases (fst res) = [[lit 1.1]].
Proof. vm_compute. repeat split. Qed.

(** On the 1-1-1 network with target [+Infinity] the weighted sum of the
    hidden unit is not finite: [train] records the error 0 for it, where the
    formula without the replacement gives [+Infinity]. *)
Example train_hidden_error_guard :
  let fwd := fst (forward net_1_1_1 [lit 1]) in
  let res := train_trace net_1_1_1 [lit 1] [Infinity] (lit 0.5) in
  snd res !! 1%nat = Some [lit 0] /\
  weights (fst res) = weights net_1_1_1 /\
  spec_hidden_errors net_1_1_1 1 (default [] (snd res !! 2%nat))
    (default [] (weights fwd !! 1%nat)) (row (values fwd) 1) = [Infinity].
Proof. vm_compute. repeat split. Qed.

(** C1 (code bug): [train] forms the error of a hidden layer from the
    weights it has just updated, not from the weights of the forward pass.
    On the 1-1-1 network with input 1, target 1 and learning rate 0.5 the
    forward pass gives the values 1, 0.5 and 0.25 with both weights 0.5;
    the output error is (1 - 0.25) * 1 = 0.75; the hidden unit's outgoing
    weight is raised by 0.5 * (0.75 * 0.5) = 0.1875 to 0.6875; and the
    hidden unit's error is recorded as 0.75 * 0.6875 = 0.515625.  The
    claim's formula, over the forward pass's weight 0.5, gives
    0.75 * 0.5 = 0.375, with or without the replacement of a non-finite
    sum, which does not occur here. *)
Theorem train_hidden_error_after_update :
  let fwd := fst (forward net_1_1_1 [lit 1]) in
  let res := train_trace net_1_1_1 [lit 1] [lit 1] (lit 0.5) in
  values fwd = [[lit 1]; [lit 0.5]; [lit 0.25]] /\
  weights fwd = [[[lit 0.5]]; [[lit 0.5]]] /\
  snd res !! 2%nat = Some [lit 0.75] /\
  weights (fst res) !! 1%nat = Some [[lit 0.6875]] /\
  snd res !! 1%nat = Some [lit 0.515625] /\
  hidden_errors net_1_1_1 1 [lit 0.75] [[lit 0.6875]] [lit 0.5]
    = [lit 0.515625] /\
  hidden_errors net_1_1_1 1 [lit 0.75] [[lit 0.5]] [lit 0.5]
    = [lit 0.375] /\
  spec_hidden_errors net_1_1_1 1 [lit 0.75] [[lit 0.5]] [lit 0.5]
    = [lit 0.375] /\
  ~ spec_layer_errors net_1_1_1 [lit 1] [lit 1] (lit 0.5).
Proof.
  do 8 (split; [vm_compute; reflexivity|]).
  intros [_ H]. specialize (H 1%nat (conj (le_n 1) (le_n 2))).
  vm_compute in H. discriminate H.
Qed.

(** ** The turbo loop *)

Lemma foldl_const_iter {A B} (f : A -> A) (a : A) (l : list B) :
  foldl (fun a _ => f a) a l = Nat.iter (length l) f a.
Proof.
  revert a. induction l as [|b l IH]; intros a; [done|]. simpl.
  rewrite IH. clear IH. induction (length l) as [|n IHn]; [done|].
  simpl. by rewrite IHn.
Qed.

Lemma train_batch_train_n (inputs target : list number) (lr : number)
    (net : SimpleNetwork) :
  train_batch inputs target lr net = train_n 10 inputs target lr net.
Proof. unfold train_batch, train_n. by rewrite foldl_const_iter. Qed.

Lemma train_n_add (a b : nat) (inputs target : list number) (lr : number)
    (net : SimpleNetwork) :
  train_n (a + b) inputs target lr net =
  train_n a inputs target lr (train_n b inputs target lr net).
Proof. unfold train_n. apply Nat.iter_add. Qed.

(** One frame: ten training steps, ten more epochs. *)
Lemma loop_spec (inputs target : list number) (lr : number) (sim : Sim) :
  let r := loop inputs target lr sim in
  network (fst r) = train_n 10 inputs target lr (network sim) /\
  epochRef (fst r) = (epochRef sim + 10)%Z /\
  epochs (fst r) = (epochRef sim + 10)%Z /\
  ((updateVisuals (train_n 10 inputs target lr (network sim)) target
    <? CONVERGENCE) = false ->
   snd r = isPlaying sim /\ isPlaying (fst r) = isPlaying sim).
Proof.
  unfold loop. cbv zeta. rewrite train_batch_train_n.
  destruct (_ <? CONVERGENCE); simpl; repeat split; try done.
Qed.

Lemma turbo_frames_spec (inputs target : list number) (lr : number)
    (frames : nat) :
  forall sim,
  isPlaying sim = true ->
  (forall m, (m < frames)%nat ->
     (updateVisuals (train_n (10 * S m) inputs target lr (network sim)) target
      <? CONVERGENCE) = false) ->
  let sim' := turbo_frames frames inputs target lr sim in
  network sim' = train_n (10 * frames) inputs target lr (network sim) /\
  epochRef sim' = (epochRef sim + 10 * Z.of_nat frames)%Z /\
  ((0 < frames)%nat -> epochs sim' = epochRef sim') /\
  isPlaying sim' = true.
Proof.
  induction frames as [|frames IH]; intros sim Hplay Hloss.
  { simpl. repeat split; try done; [lia|intros; lia]. }
  cbn [turbo_frames].
  pose proof (loop_spec inputs target lr sim) as Hl. cbv zeta in Hl.
  destruct (loop inputs target lr sim) as [sim1 again]. cbn [fst snd] in Hl.
  destruct Hl as (Hn & He & Hes & Hcont).
  destruct Hcont as [-> Hp1].
  { apply (Hloss 0%nat). lia. }
  rewrite Hplay in *.
  specialize (IH sim1 Hp1).
  destruct IH as (Hn' & He' & Hes' & Hp').
  { intros m Hm. rewrite Hn, <- train_n_add.
    replace (10 * S m + 10)%nat with (10 * S (S m))%nat by lia.
    apply Hloss. lia. }
  split; [|split; [|split]]; try done.
  - rewrite Hn', Hn, <- train_n_add. f_equal. lia.
  - rewrite He', He. lia.
  - intros _. destruct frames as [|frames'].
    + simpl. congruence.
    + apply Hes'. lia.
Qed.

(** C9: every call of the turbo [loop] runs exactly ten training steps and
    adds exactly 10 to the epoch counter; so while playing, over [frames]
    frames none of which reaches convergence, the network has been trained
    [10 * frames] times and the epoch counter has grown by [10 * frames]:
    started from 0, it equals [10 * frames]. *)
Theorem turbo_epochs (inputs target : list number) (lr : number)
    (frames : nat) (sim : Sim) :
  isPlaying sim = true ->
  (forall m, (m < frames)%nat ->
     (updateVisuals (train_n (10 * S m) inputs target lr (network sim)) target
      <? CONVERGENCE) = false) ->
  let sim' := turbo frames inputs target lr sim in
  network (fst (loop inputs target lr sim))
    = train_n 10 inputs target lr (network sim) /\
  epochRef (fst (loop inputs target lr sim)) = (epochRef sim + 10)%Z /\
  network sim' = train_n (10 * frames) inputs target lr (network sim) /\
  epochRef sim' = (epochRef sim + 10 * Z.of_nat frames)%Z /\
  (epochRef sim = 0%Z -> epochRef sim' = (10 * Z.of_nat frames)%Z) /\
  ((0 < frames)%nat -> epochs sim' = epochRef sim').
Proof.
  intros Hplay Hloss sim'.
  destruct (loop_spec inputs target lr sim) as (Hn & He & _).
  destruct (turbo_frames_spec inputs target lr frames sim Hplay Hloss)
    as (Hn' & He' & Hes' & _).
  subst sim'. unfold turbo. rewrite Hplay.
  repeat split; try done. intros H0. rewrite He', H0. lia.
Qed.

(** ** Scene builder: the render list is sorted by depth *)

Lemma sub_gt_0 (a b : number) :
  isNaN a = false -> isNaN b = false -> (a - b >? lit 0) = (b <? a).
Proof.
  destruct a as [| s | x], b as [| t | y]; simpl; try discriminate;
    intros _ _.
  - destruct s, t; reflexivity.
  - destruct s; reflexivity.
  - destruct t; reflexivity.
  - unfold gt, lit. simpl. apply eq_true_iff_eq.
    rewrite !Qltb_spec, (Qred_correct (x - y)).
    change (Qred 0) with 0%Q. split; intros; lra.
Qed.

Lemma lt_le (a b : number) : (a <? b) = true -> (a <=? b) = true.
Proof.
  destruct a as [| s | x], b as [| t | y]; simpl; try discriminate.
  - destruct s, t; simpl; congruence.
  - destruct s; simpl; congruence.
  - destruct t; simpl; congruence.
  - rewrite negb_true_iff, Qltb_spec, Qltb_false. intros. lra.
Qed.

Lemma not_lt_le (a b : number) :
  isNaN a = false -> isNaN b = false -> (a <? b) = false -> (b <=? a) = true.
Proof. intros Ha Hb H. by rewrite le_not_lt, H. Qed.

Lemma sort_insert_Forall {A} (P : A -> Prop) (compare : A -> A -> number)
    (x : A) (l : list A) :
  P x -> Forall P l -> Forall P (sort_insert compare x l).
Proof.
  intros Hx Hl. induction Hl as [|y l Hy Hl IH]; cbn [sort_insert].
  - by repeat constructor.
  - destruct (compare y x >? lit 0).
    + constructor; [done|]. by constructor.
    + by constructor.
Qed.

Lemma sort_insert_Sorted (x : RenderItem) (l : list RenderItem) :
  not_NaN x -> Forall not_NaN l -> Sorted depth_le l ->
  Sorted depth_le (sort_insert by_depth x l).
Proof.
  intros Hx Hl Hs. induction l as [|y l IH]; cbn [sort_insert].
  - by repeat constructor.
  - apply Forall_cons in Hl as [Hy Hl].
    apply Sorted_inv in Hs as [Hs Hhd].
    unfold by_depth at 1. rewrite sub_gt_0 by done.
    destruct (item_depth x <? item_depth y) eqn:E.
    + constructor; [by constructor|]. constructor. by apply lt_le.
    + constructor; [by apply IH|].
      assert (Hyx : depth_le y x) by (by apply not_lt_le).
      destruct l as [|z l]; cbn [sort_insert].
      * by constructor.
      * destruct (by_depth z x >? lit 0); constructor; [done|].
        by apply HdRel_inv in Hhd.
Qed.

Lemma Array_sort_Sorted (l : list RenderItem) :
  Forall not_NaN l -> Sorted depth_le (Array_sort by_depth l).
Proof.
  unfold Array_sort.
  assert (H : forall acc, Forall not_NaN acc -> Sorted depth_le acc ->
            Forall not_NaN l ->
            Sorted depth_le
              (foldl (fun sorted x => sort_insert by_depth x sorted) acc l)).
  { induction l as [|x l IH]; intros acc Hacc Hs Hl; [done|].
    apply Forall_cons in Hl as [Hx Hl]. simpl. apply IH; [| |done].
    - by apply sort_insert_Forall.
    - by apply sort_insert_Sorted. }
  intros Hl. apply H; [constructor|constructor|done].
Qed.

Lemma Sorted_sorted_by_depth (l : list RenderItem) :
  Sorted depth_le l -> sorted_by_depth l.
Proof.
  intros Hs. induction Hs as [|a l Hs IH Hhd]; intros i x y Hx Hy.
  - done.
  - destruct i as [|i]; simpl in *.
    + injection Hx as ->. destruct l as [|b l]; [done|].
      simpl in Hy. injection Hy as ->. by apply HdRel_inv in Hhd.
    + by eapply IH.
Qed.

Lemma isFinite_div_2 (a : number) :
  isFinite a = true -> isFinite (a / lit 2) = true.
Proof. intros. by apply isFinite_div_lit. Qed.

#[local] Hint Resolve isFinite_div_2 : finite.

Lemma isFinite_not_NaN (a : number) : isFinite a = true -> isNaN a = false.
Proof. by destruct a. Qed.

Lemma rotate3D_depth_finite (vw : View) (l r c : nat) :
  trig_finite vw -> isFinite (snd (rotate3D vw l r c)) = true.
Proof.
  intros (HcH & HsH & HcV & HsV). unfold rotate3D. cbv zeta. cbn [snd].
  fold (radH vw) (radV vw). auto 20 with finite.
Qed.

Lemma project3D_depth (vw : View) (l r c : nat) :
  pos_depth (project3D vw l r c) = snd (rotate3D vw l r c).
Proof. unfold project3D. by destruct (rotate3D vw l r c) as [[x2 y2] z2]. Qed.

Lemma project3D_depth_finite (vw : View) (l r c : nat) :
  trig_finite vw -> isFinite (pos_depth (project3D vw l r c)) = true.
Proof. intros. rewrite project3D_depth. by apply rotate3D_depth_finite. Qed.

#[local] Hint Resolve project3D_depth_finite : finite.

Lemma grid_Forall {A} (P : A -> Prop) (dim : LayerDim)
    (body : nat -> nat -> list A) :
  (forall r c, Forall P (body r c)) -> Forall P (grid dim body).
Proof.
  intros H. unfold grid. apply Forall_flat_map, Forall_forall. intros r _.
  apply Forall_flat_map, Forall_forall. intros c _. apply H.
Qed.

Lemma imap_concat_Forall {A B} (P : B -> Prop) (f : nat -> A -> list B)
    (l : list A) :
  (forall i x, Forall P (f i x)) -> Forall P (concat (imap f l)).
Proof.
  intros H. apply Forall_concat, Forall_lookup. intros i ys.
  rewrite list_lookup_imap. destruct (l !! i); [|done].
  simpl. intros [= <-]. apply H.
Qed.

Lemma node_items_finite (vw : View) (stats : DisplayStats) (lIdx : nat)
    (dim : LayerDim) (r c : nat) :
  trig_finite vw -> Forall finite_depth (node_items vw stats lIdx dim r c).
Proof.
  intros Ht. unfold node_items. cbv zeta.
  repeat apply Forall_app_2.
  - repeat constructor. unfold finite_depth. cbn [item_depth]. auto with finite.
  - destruct (_ && _); repeat constructor.
    unfold finite_depth. cbn [item_depth]. auto with finite.
  - destruct (_ && _); repeat constructor.
    unfold finite_depth. cbn [item_depth]. auto with finite.
Qed.

Lemma link_items_finite (vw : View) (stats : DisplayStats) (lIdx : nat)
    (layerWeights : list (list number)) :
  trig_finite vw -> Forall finite_depth (link_items vw stats lIdx layerWeights).
Proof.
  intros Ht. unfold link_items.
  destruct (layerDims vw !! lIdx) as [fromDim|]; [|constructor].
  destruct (layerDims vw !! S lIdx) as [toDim|]; [|constructor].
  apply grid_Forall. intros r1 c1. apply grid_Forall. intros r2 c2.
  repeat constructor. unfold finite_depth. cbn [item_depth]. auto with finite.
Qed.

(** C7: for a camera whose rotation coefficients are finite, the render
    list is sorted by depth: each item's depth is at most the depth of the
    item that follows it. *)
Theorem renderItems_sorted (vw : View) (stats : DisplayStats) :
  trig_finite vw -> sorted_by_depth (renderItems vw stats).
Proof.
  intros Ht. unfold renderItems.
  destruct (decide (length (ds_values stats) = 0%nat)).
  { intros i a b Ha. done. }
  apply Sorted_sorted_by_depth, Array_sort_Sorted.
  eapply Forall_impl; [|intros it Hit; apply isFinite_not_NaN, Hit].
  apply Forall_app_2.
  - apply imap_concat_Forall. intros lIdx dim. apply grid_Forall.
    intros r c. by apply node_items_finite.
  - apply imap_concat_Forall. intros lIdx w. by apply link_items_finite.
Qed.

(** ** Projection engine: the perspective scale *)

Lemma perspective_scale (z s : Q) :
  (z < 1000)%Q ->
  fov / (fov - Num z) * Num s
  = Num (Qred (Qred (1000 / Qred (1000 - z)) * s)).
Proof.
  intros Hz. unfold fov, lit. change (Qred 1000) with 1000%Q. simpl.
  rewrite Qis_zero_Qred.
  destruct (Qis_zero (1000 - z)) eqn:E; [|done].
  apply Qis_zero_spec in E. lra.
Qed.

Lemma Qdiv_lt_denominator (a b : Q) :
  (0 < b)%Q -> (b < a)%Q -> (1000 / a < 1000 / b)%Q.
Proof.
  intros Hb Hab. unfold Qdiv.
  apply Qmult_lt_l; [reflexivity|].
  apply -> Qinv_lt_contravar; [done| |done]. lra.
Qed.

(** C6 (amended): in perspective mode with a positive zoom, of two units
    whose rotated coordinates differ only in depth and whose depths are both
    below the field-of-view constant 1000, the nearer one (larger depth)
    has the strictly larger scale factor; in particular the two scale
    factors differ. *)
Theorem perspective_scale_monotone (vw : View) (l r c l' r' c' : nat)
    (x2 y2 x2' y2' : number) (z z' s : Q) :
  isOrtho vw = false ->
  viewScale vw = Num s -> (0 < s)%Q ->
  rotate3D vw l r c = (x2, y2, Num z) ->
  rotate3D vw l' r' c' = (x2', y2', Num z') ->
  x2 = x2' -> y2 = y2' ->
  (z < z')%Q -> (z' < 1000)%Q ->
  pos_scale (project3D vw l r c) <> pos_scale (project3D vw l' r' c') /\
  (pos_scale (project3D vw l r c) <? pos_scale (project3D vw l' r' c')) = true.
Proof.
  intros Hp Hs Hs0 Hr Hr' _ _ Hzz' Hz'.
  unfold project3D. rewrite Hr, Hr', Hp, Hs. cbn [pos_scale].
  rewrite !perspective_scale by lra.
  assert (Hlt : (1000 / (1000 - z) * s < 1000 / (1000 - z') * s)%Q).
  { apply Qmult_lt_r; [done|]. apply Qdiv_lt_denominator; lra. }
  split.
  - intros [= Heq]. apply Qred_eq_iff in Heq. rewrite !Qred_correct in Heq.
    rewrite Heq in Hlt. by apply Qlt_irrefl in Hlt.
  - cbn [lt]. apply Qltb_spec. by rewrite !Qred_correct.
Qed.

(** ** constructor and the editing controls *)

Lemma new_Array_fill0_Ok (n : Z) :
  array_length n ->
  new_Array_fill0 n = Ok (replicate (Z.to_nat n) (Num 0)).
Proof.
  intros [H0 H1]. unfold new_Array_fill0.
  apply Z.leb_le in H0. apply Z.ltb_lt in H1. by rewrite H0, H1.
Qed.

Lemma new_Array_fill0_inv (n : Z) (l : list number) :
  new_Array_fill0 n = Ok l -> array_length n.
Proof.
  unfold new_Array_fill0, array_length.
  destruct (0 <=? n)%Z eqn:E0, (n <? 2 ^ 32)%Z eqn:E1; simpl; try discriminate.
  apply Z.leb_le in E0. apply Z.ltb_lt in E1. done.
Qed.

Lemma constructor_step_Ok (st st' : SimpleNetwork * nat) (i : nat) :
  constructor_step st i = Ok st' ->
  layerSizes (fst st') = layerSizes (fst st) /\
  activations (fst st') = activations (fst st) /\
  array_length (default 0%Z (layerSizes (fst st) !! i)).
Proof.
  destruct st as [net n]. unfold constructor_step. cbn [fst].
  destruct (new_Array_fill0 _) as [zeros|] eqn:E; [|discriminate].
  apply new_Array_fill0_inv in E. cbn [bind].
  destruct i; intros [= <-]; done.
Qed.

Lemma constructor_step_total (st : SimpleNetwork * nat) (i : nat) :
  array_length (default 0%Z (layerSizes (fst st) !! i)) ->
  exists st', constructor_step st i = Ok st'.
Proof.
  destruct st as [net n]. intros H. unfold constructor_step. cbn [fst] in *.
  rewrite (new_Array_fill0_Ok _ H). cbn [bind]. destruct i; eauto.
Qed.

Lemma constructor_loop_Ok (idxs : list nat) :
  forall st st',
  constructor_loop st idxs = Ok st' ->
  layerSizes (fst st') = layerSizes (fst st) /\
  activations (fst st') = activations (fst st) /\
  Forall (fun i => array_length (default 0%Z (layerSizes (fst st) !! i))) idxs.
Proof.
  induction idxs as [|i idxs IH]; intros st st'; cbn [constructor_loop].
  - intros [= <-]. by repeat split.
  - destruct (constructor_step st i) as [st1|] eqn:E; [|discriminate].
    cbn [bind]. intros H. apply constructor_step_Ok in E as (Hs & Ha & Hi).
    apply IH in H as (Hs' & Ha' & Hall). rewrite Hs in Hs', Hall.
    rewrite Ha in Ha'. repeat split; try done. by constructor.
Qed.

Lemma constructor_loop_total (idxs : list nat) :
  forall st,
  Forall (fun i => array_length (default 0%Z (layerSizes (fst st) !! i))) idxs ->
  exists st', constructor_loop st idxs = Ok st'.
Proof.
  induction idxs as [|i idxs IH]; intros st Hall; cbn [constructor_loop].
  - eauto.
  - apply Forall_cons in Hall as [Hi Hall].
    destruct (constructor_step_total st i Hi) as [st1 E]. rewrite E.
    cbn [bind]. apply IH.
    apply constructor_step_Ok in E as (Hs & _). by rewrite Hs.
Qed.

Lemma Forall_indices (sizes : list Z) :
  Forall (fun i => array_length (default 0%Z (sizes !! i)))
         (seq 0 (length sizes))
  <-> Forall array_length sizes.
Proof.
  rewrite Forall_seq, Forall_lookup. split.
  - intros H i s Hi. specialize (H i). rewrite Hi in H. apply H.
    apply lookup_lt_Some in Hi. lia.
  - intros H i Hi. destruct (lookup_lt_is_Some_2 sizes i) as [s Hs]; [lia|].
    rewrite Hs. by eapply H.
Qed.

(** The constructor returns a network exactly when every size is a valid
    array length. *)
Lemma constructor_Ok_iff (n : nat) (sizes : list Z)
    (acts : list ActivationKey) :
  (exists net, constructor n sizes acts = Ok net /\
               layerSizes net = sizes /\ activations net = acts)
  <-> Forall array_length sizes.
Proof.
  unfold constructor. split.
  - intros (net & H & _).
    destruct (constructor_loop _ _) as [st|] eqn:E; [|discriminate].
    apply constructor_loop_Ok in E as (_ & _ & Hall).
    by apply Forall_indices in Hall.
  - intros Hall. apply Forall_indices in Hall.
    match goal with |- context [constructor_loop ?st0 ?idxs] =>
      destruct (constructor_loop_total idxs st0 Hall) as [st E] end.
    rewrite E. cbn [bind]. apply constructor_loop_Ok in E as (Hs & Ha & _).
    eauto.
Qed.

Lemma modifyLayer_valid (lIdx : nat) (dKey : DimKey) (delta : Z)
    (dims : list LayerDim) :
  dims_valid dims -> dims_valid (modifyLayer lIdx dKey delta dims).
Proof.
  intros [Hlen Hall]. unfold modifyLayer. split.
  - by rewrite length_alter.
  - apply Forall_alter; [done|]. intros d _ [Hr Hc].
    destruct dKey; simpl; split; lia.
Qed.

Lemma addLayer_valid (st : list LayerDim * list ActivationKey) :
  dims_valid (fst st) -> dims_valid (fst (addLayer st)).
Proof.
  destruct st as [dims acts]. intros [Hlen Hall]. unfold addLayer.
  cbn [fst] in *. case_decide; [|done]. cbn [fst]. split.
  - rewrite !length_app, length_take, length_drop. simpl. lia.
  - apply Forall_app_2; [by apply Forall_take|].
    apply Forall_app_2; [|by apply Forall_drop].
    repeat constructor; simpl; lia.
Qed.

Lemma removeLayer_valid (st : list LayerDim * list ActivationKey) :
  dims_valid (fst st) -> dims_valid (fst (removeLayer st)).
Proof.
  destruct st as [dims acts]. intros [Hlen Hall]. unfold removeLayer.
  cbn [fst] in *. case_decide; [|done]. cbn [fst]. split.
  - rewrite length_delete; [lia|]. apply lookup_lt_is_Some. lia.
  - by apply Forall_delete.
Qed.

Lemma editable_valid (st : list LayerDim * list ActivationKey) :
  editable st -> dims_valid (fst st).
Proof.
  induction 1 as [|st lIdx dKey delta _ IH|st _ IH|st _ IH].
  - split; [simpl; lia|]. repeat constructor; simpl; lia.
  - by apply modifyLayer_valid.
  - by apply addLayer_valid.
  - by apply removeLayer_valid.
Qed.

(** C4 (amended): the constructor has no configuration check of its own.
    It returns a network for every list of sizes that are valid array
    lengths, whatever their number and also when some are 0, and fails (with
    the RangeError of [new Array]) exactly when a size is not a valid array
    length.  Architectures with fewer than 2 layers or a size below 1 are
    kept out by the editing controls: every architecture they reach has
    between 2 and 10 layers, every extent between 1 and 8, hence every size
    between 1 and 64, and the constructor returns a network for it. *)
Theorem constructor_no_ConfigError :
  (forall n sizes acts,
     (exists net, constructor n sizes acts = Ok net /\
                  layerSizes net = sizes /\ activations net = acts)
     <-> Forall array_length sizes) /\
  (forall n sizes acts,
     constructor n sizes acts = Throw_RangeError
     <-> ~ Forall array_length sizes) /\
  (forall st, editable st ->
     dims_valid (fst st) /\
     (2 <= length (sizes_of (fst st)) <= 10)%nat /\
     Forall (fun s => (1 <= s <= 64)%Z) (sizes_of (fst st)) /\
     forall n, exists net,
       constructor n (sizes_of (fst st)) (snd st) = Ok net).
Proof.
  split; [exact constructor_Ok_iff|]. split.
  - intros n sizes acts. rewrite <- (constructor_Ok_iff n sizes acts). split.
    + intros H (net & Hnet & _). congruence.
    + intros H. destruct (constructor n sizes acts) as [net|] eqn:E; [|done].
      exfalso. apply H. exists net. split; [done|].
      unfold constructor in E.
      destruct (constructor_loop _ _) as [st|] eqn:E'; [|discriminate].
      apply constructor_loop_Ok in E' as (Hs & Ha & _).
      injection E as <-. done.
  - intros st Hst. pose proof (editable_valid st Hst) as Hv.
    destruct Hv as [Hlen Hall].
    assert (Hsizes : Forall (fun s => (1 <= s <= 64)%Z) (sizes_of (fst st))).
    { unfold sizes_of. apply Forall_map.
      eapply Forall_impl; [exact Hall|]. intros d [Hr Hc]. simpl. nia. }
    split; [done|]. split; [unfold sizes_of; by rewrite length_map|].
    split; [done|]. intros n.
    destruct (proj2 (constructor_Ok_iff n (sizes_of (fst st)) (snd st)))
      as (net & Hnet & _); [|eauto].
    eapply Forall_impl; [exact Hsizes|]. intros s Hs. unfold array_length.
    change (2 ^ 32)%Z with 4294967296%Z. simpl in Hs. lia.
Qed.

(** ** The dimension invariant is established and kept by the code *)

Lemma random_array_length (n count : nat) (f : number -> number) :
  length (random_array n count f) = count.
Proof. unfold random_array. by rewrite length_map, length_seq. Qed.

Lemma random_rows_dims (n a b : nat) (scale : number) :
  has_dims a b (random_rows n a b scale).
Proof.
  unfold random_rows. split; [by rewrite length_map, length_seq|].
  apply Forall_map, Forall_forall. intros j _. apply random_array_length.
Qed.

Lemma matrix_dims_snoc (sizes : list Z) (ms : list (list (list number)))
    (m : list (list number)) :
  matrix_dims sizes ms ->
  has_dims (bound sizes (length ms)) (bound sizes (S (length ms))) m ->
  matrix_dims sizes (ms ++ [m]).
Proof.
  intros Hms Hm i m' Hi. apply lookup_snoc_Some in Hi as [[_ Hi]|[-> <-]].
  - by apply Hms.
  - exact Hm.
Qed.

Lemma ctor_inv_step (sizes : list Z) (acts : list ActivationKey) (k n : nat)
    (net : SimpleNetwork) (st' : SimpleNetwork * nat) :
  ctor_inv sizes acts k net ->
  constructor_step (net, n) k = Ok st' ->
  ctor_inv sizes acts (S k) (fst st').
Proof.
  intros (Hs & Ha & Hv & Hp & Hw & Hd & Hb & Hwd & Hdd & Hbd).
  unfold constructor_step.
  destruct (new_Array_fill0 _) as [zeros|]; [|discriminate]. cbn [bind].
  destruct k as [|k']; intros [= <-]; cbn [fst]; unfold ctor_inv;
    cbn [layerSizes activations values preActivations weights weightDeltas
         biases]; rewrite ?length_app; cbn [length].
  - split; [done|]. split; [done|]. split; [lia|]. split; [lia|].
    split; [lia|]. split; [lia|]. split; [lia|]. done.
  - rewrite Hs.
    split; [done|]. split; [done|]. split; [lia|]. split; [lia|].
    split; [lia|]. split; [lia|]. split; [lia|].
    assert (Hw' : length (weights net) = k') by lia.
    assert (Hd' : length (weightDeltas net) = k') by lia.
    assert (Hb' : length (biases net) = k') by lia.
    split; [|split].
    + apply matrix_dims_snoc; [done|]. rewrite Hw'. apply random_rows_dims.
    + apply matrix_dims_snoc; [done|]. rewrite Hd'. split.
      * by rewrite length_replicate.
      * apply Forall_replicate. by rewrite length_replicate.
    + intros i b Hi. apply lookup_snoc_Some in Hi as [[_ Hi]|[-> <-]].
      * by apply Hbd.
      * rewrite Hb'. apply random_array_length.
Qed.

Lemma ctor_inv_loop (sizes : list Z) (acts : list ActivationKey) (m : nat) :
  forall (k : nat) (st st' : SimpleNetwork * nat),
  ctor_inv sizes acts k (fst st) ->
  constructor_loop st (seq k m) = Ok st' ->
  ctor_inv sizes acts (k + m) (fst st').
Proof.
  induction m as [|m IH]; intros k st st' Hinv; cbn [seq constructor_loop].
  - intros [= <-]. by rewrite Nat.add_0_r.
  - destruct (constructor_step st k) as [st1|] eqn:E; [|discriminate].
    cbn [bind]. intros H. destruct st as [net n].
    eapply ctor_inv_step in E; [|exact Hinv].
    replace (k + S m)%nat with (S k + m)%nat by lia. by eapply IH.
Qed.

(** A network returned by the constructor for at least one layer and one
    activation key per layer satisfies the dimension invariant. *)
Lemma constructor_wf (n : nat) (sizes : list Z) (acts : list ActivationKey)
    (net : SimpleNetwork) :
  (1 <= length sizes)%nat -> length acts = length sizes ->
  constructor n sizes acts = Ok net -> wf net.
Proof.
  intros HL Hacts. unfold constructor.
  destruct (constructor_loop _ _) as [st|] eqn:E; [|discriminate].
  cbn [bind]. intros [= <-].
  eapply (ctor_inv_loop sizes acts _ 0) in E.
  - destruct E as (Hs & Ha & Hv & Hp & Hw & Hd & Hb & Hwd & Hdd & Hbd).
    simpl in *. split; rewrite ?Hs, ?Ha; try done.
  - unfold ctor_inv. cbn. repeat split; try done.
Qed.

Lemma forward_wf (net : SimpleNetwork) (inputs : list number) :
  wf net -> wf (fst (forward net inputs)).
Proof.
  intros Hwf.
  pose proof (forward_inv net inputs)
    as ((Hs & Ha & Hw & Hd & Hb) & Hlv & Hlp & _).
  pose proof (wf_layers _ Hwf).
  rewrite (wf_weights _ Hwf) in Hlv, Hlp.
  rewrite (wf_values _ Hwf) in Hlv. rewrite (wf_preActivations _ Hwf) in Hlp.
  destruct Hwf. split; rewrite ?Hs, ?Ha, ?Hw, ?Hd, ?Hb; try done; lia.
Qed.

Lemma update_weight_dims (lr : number) (errs vals : list number) (a b : nat)
    (st : list (list number) * list (list number)) (k j : nat) :
  has_dims a b (fst st) /\ has_dims a b (snd st) ->
  has_dims a b (fst (update_weight lr errs vals st k j)) /\
  has_dims a b (snd (update_weight lr errs vals st k j)).
Proof.
  intros [[Hw1 Hw2] [Hd1 Hd2]]. unfold update_weight.
  destruct (isFinite _); [|done]. cbn [fst snd]. split; split.
  - by rewrite length_alter.
  - apply Forall_alter; [done|]. intros r _ Hr. by rewrite length_alter.
  - by rewrite length_alter.
  - apply Forall_alter; [done|]. intros r _ Hr. by rewrite length_insert.
Qed.

Lemma foldl_invariant {A B} (P : A -> Prop) (f : A -> B -> A) (l : list B) :
  (forall a b, P a -> P (f a b)) -> forall a, P a -> P (foldl f a l).
Proof.
  intros Hf. induction l as [|b l IH]; intros a Ha; [done|].
  simpl. by apply IH, Hf.
Qed.

Lemma has_dims_default (sizes : list Z) (ms : list (list (list number)))
    (i : nat) :
  matrix_dims sizes ms -> (i < length ms)%nat ->
  has_dims (bound sizes i) (bound sizes (S i)) (default [] (ms !! i)).
Proof.
  intros Hms Hi. destruct (lookup_lt_is_Some_2 ms i Hi) as [m Hm].
  rewrite Hm. by apply Hms.
Qed.

Lemma matrix_dims_insert (sizes : list Z) (ms : list (list (list number)))
    (i : nat) (m : list (list number)) :
  matrix_dims sizes ms ->
  has_dims (bound sizes i) (bound sizes (S i)) m ->
  matrix_dims sizes (<[i:=m]> ms).
Proof.
  intros Hms Hm j m' Hj. destruct (decide (i = j)) as [->|Hne].
  - destruct (decide (j < length ms)%nat).
    + rewrite list_lookup_insert_eq in Hj by done. by injection Hj as <-.
    + rewrite list_insert_ge in Hj by lia. by apply Hms.
  - rewrite list_lookup_insert_ne in Hj by done. by apply Hms.
Qed.

Lemma train_layer_wf (lr : number) (s : SimpleNetwork)
    (E : gmap nat (list number)) (i : nat) :
  wf s -> (i < length (weights s))%nat -> wf (fst (train_layer lr (s, E) i)).
Proof.
  intros Hwf Hi. unfold train_layer. cbv zeta.
  set (wd := foldl _ (default [] (weights s !! i), _) _).
  set (b := foldl _ (row (biases s) i) _).
  assert (Hwd : has_dims (bound (layerSizes s) i) (bound (layerSizes s) (S i))
                  (fst wd) /\
                has_dims (bound (layerSizes s) i) (bound (layerSizes s) (S i))
                  (snd wd)).
  { subst wd. apply foldl_invariant.
    - intros st k Hst. apply foldl_invariant; [|done].
      intros st' j Hst'. by apply update_weight_dims.
    - cbn [fst snd]. split; apply has_dims_default;
        try apply Hwf; rewrite ?(wf_weightDeltas _ Hwf), <- ?(wf_weights _ Hwf);
        done. }
  assert (Hb : length b = bound (layerSizes s) (S i)).
  { subst b. apply foldl_invariant.
    - intros a j Ha. unfold update_bias. by rewrite length_alter.
    - unfold row.
      destruct (lookup_lt_is_Some_2 (biases s) i) as [b0 Hb0].
      + rewrite (wf_biases _ Hwf), <- (wf_weights _ Hwf). done.
      + rewrite Hb0. by eapply wf_biases_dims. }
  destruct Hwd as [Hw Hd].
  assert (wf (with_params s (<[i:=fst wd]> (weights s))
                (<[i:=snd wd]> (weightDeltas s)) (<[i:=b]> (biases s)))).
  { destruct Hwf. split; cbn; rewrite ?length_insert; try done.
    - by apply matrix_dims_insert.
    - by apply matrix_dims_insert.
    - intros j b' Hj. destruct (decide (i = j)) as [->|Hne].
      + destruct (decide (j < length (biases s))%nat).
        * rewrite list_lookup_insert_eq in Hj by done. by injection Hj as <-.
        * rewrite list_insert_ge in Hj by lia. by eauto.
      + rewrite list_lookup_insert_ne in Hj by done. by eauto. }
  by destruct (decide (0 < i)%nat).
Qed.

Lemma train_fold_wf (lr : number) (m : nat) :
  forall (s : SimpleNetwork) (E : gmap nat (list number)),
  wf s -> (m <= length (weights s))%nat ->
  wf (fst (foldl (train_layer lr) (s, E) (rev (seq 0 m)))).
Proof.
  induction m as [|m IH]; intros s E Hwf Hm; [done|].
  rewrite seq_S, rev_unit. cbn [foldl Nat.add].
  pose proof (train_layer_wf lr s E m Hwf ltac:(lia)) as Hwf1.
  pose proof (train_layer_spec lr s E m ltac:(lia)) as (_ & _ & _ & Hl & _).
  destruct (train_layer lr (s, E) m) as [s1 E1]. cbn [fst] in *.
  apply IH; [done|lia].
Qed.

(** [train] keeps the dimension invariant. *)
Lemma train_wf (net : SimpleNetwork) (inputs targets : list number)
    (lr : number) :
  wf net -> wf (train net inputs targets lr).
Proof.
  intros Hwf. apply (forward_wf net inputs) in Hwf.
  unfold train, train_trace. by apply train_fold_wf.
Qed.

(** ** The parameters after one backward iteration *)

Lemma foldl_alter_seq {A} (f : nat -> A -> A) (n : nat) (l : list A) :
  (length l <= n)%nat ->
  foldl (fun l i => alter (f i) i l) l (seq 0 n) = imap f l.
Proof.
  intros Hn.
  assert (H : forall m,
            foldl (fun l i => alter (f i) i l) l (seq 0 m)
            = imap (fun i x => if decide (i < m)%nat then f i x else x) l).
  { induction m as [|m IH].
    - simpl. apply list_eq. intros i. rewrite list_lookup_imap.
      by destruct (l !! i).
    - rewrite seq_S, foldl_app, IH. simpl. apply list_eq. intros i.
      rewrite list_lookup_alter, !list_lookup_imap.
      destruct (decide (m = i)) as [->|Hne].
      + destruct (l !! i); simpl; [|done].
        rewrite decide_False by lia. rewrite decide_True by lia. done.
      + destruct (l !! i); simpl; [|done].
        destruct (decide (i < m)%nat), (decide (i < S m)%nat); try done; lia. }
  rewrite H. apply imap_ext. intros i x Hi.
  apply lookup_lt_Some in Hi. rewrite decide_True by lia. done.
Qed.

Lemma foldl_alter_row {A} (g : nat -> A -> A) (k : nat) (js : list nat)
    (m : list A) :
  foldl (fun m j => alter (g j) k m) m js
  = alter (fun r => foldl (fun r j => g j r) r js) k m.
Proof.
  revert m. induction js as [|j js IH]; intros m; simpl.
  - symmetry. by apply list_alter_id.
  - rewrite IH. apply list_eq. intros i.
    destruct (decide (k = i)) as [->|Hne].
    + rewrite !list_lookup_alter_eq. by destruct (m !! i).
    + by rewrite !list_lookup_alter_ne.
Qed.

Lemma update_weight_fst (lr : number) (errs vals : list number)
    (st : list (list number) * list (list number)) (k j : nat) :
  fst (update_weight lr errs vals st k j)
  = alter (alter (weight_after lr errs vals k j) j) k (fst st).
Proof.
  unfold update_weight, weight_after. cbv zeta.
  destruct (isFinite _); [done|]. cbn [fst].
  symmetry. apply list_alter_id. intros r. by apply list_alter_id.
Qed.

Lemma update_weight_snd (lr : number) (errs vals : list number)
    (st : list (list number) * list (list number)) (k j : nat) :
  snd (update_weight lr errs vals st k j)
  = alter (alter (delta_after lr errs vals k j) j) k (snd st).
Proof.
  unfold update_weight, delta_after. cbv zeta.
  destruct (isFinite _); cbn [snd].
  - apply list_alter_ext; [|done]. intros r _.
    apply list_eq. intros i. rewrite list_lookup_alter.
    destruct (decide (j = i)) as [->|].
    + destruct (r !! i) eqn:E.
      * rewrite list_lookup_insert_eq by (by eapply lookup_lt_Some). done.
      * rewrite list_insert_ge; [done|]. by apply lookup_ge_None.
    + by rewrite list_lookup_insert_ne.
  - symmetry. apply list_alter_id. intros r. by apply list_alter_id.
Qed.

Lemma foldl_pair {A B C} (f : A * B -> C -> A * B) (fa : A -> C -> A)
    (fb : B -> C -> B) (l : list C) :
  (forall st c, fst (f st c) = fa (fst st) c) ->
  (forall st c, snd (f st c) = fb (snd st) c) ->
  forall st, foldl f st l = (foldl fa (fst st) l, foldl fb (snd st) l).
Proof.
  intros Ha Hb. induction l as [|c l IH]; intros st; simpl.
  - by destruct st.
  - rewrite IH, Ha, Hb. done.
Qed.

Lemma foldl_agree {A B} (f g : A -> B -> A) (l : list B) :
  (forall a b, f a b = g a b) -> forall a, foldl f a l = foldl g a l.
Proof.
  intros H. induction l as [|b l IH]; intros a; [done|].
  simpl. by rewrite H, IH.
Qed.

Lemma matrix_fold (g : nat -> nat -> number -> number) (a b : nat)
    (m : list (list number)) :
  has_dims a b m ->
  foldl (fun m k => foldl (fun m j => alter (alter (g k j) j) k m) m (seq 0 b))
        m (seq 0 a)
  = imap (fun k r => imap (g k) r) m.
Proof.
  intros [Ha Hb].
  rewrite (foldl_agree _ (fun m k =>
             alter (fun r => foldl (fun r j => alter (g k j) j r) r (seq 0 b))
                   k m)).
  2:{ intros m' k. apply (foldl_alter_row (fun j => alter (g k j) j)). }
  rewrite (foldl_alter_seq
             (fun k r => foldl (fun r j => alter (g k j) j r) r (seq 0 b)))
    by lia.
  apply imap_ext. intros k r Hr. apply foldl_alter_seq.
  eapply Forall_lookup_1 in Hb; [|exact Hr]. simpl in Hb. lia.
Qed.

(** The parameters of transition [i] after the iteration of the backward
    loop at [i]: every weight whose gradient is finite has the clamped
    update added and recorded as its delta, every other weight and delta is
    untouched, and every bias has its clamped update added, whatever its
    gradient. *)
Lemma train_layer_params (lr : number) (s : SimpleNetwork)
    (E : gmap nat (list number)) (i : nat) :
  wf s -> (i < length (weights s))%nat ->
  let r := fst (train_layer lr (s, E) i) in
  let errs := default [] (E !! S i) in
  let vals := row (values s) i in
  weights r !! i =
    Some (imap (fun k => imap (weight_after lr errs vals k))
               (default [] (weights s !! i))) /\
  weightDeltas r !! i =
    Some (imap (fun k => imap (delta_after lr errs vals k))
               (default [] (weightDeltas s !! i))) /\
  biases r !! i = Some (imap (bias_after lr errs) (row (biases s) i)).
Proof.
  intros Hwf Hi r errs vals. subst r. unfold train_layer. cbv zeta.
  fold errs vals.
  assert (Hw : has_dims (bound (layerSizes s) i) (bound (layerSizes s) (S i))
                 (default [] (weights s !! i))).
  { apply has_dims_default; [apply Hwf|done]. }
  assert (Hd : has_dims (bound (layerSizes s) i) (bound (layerSizes s) (S i))
                 (default [] (weightDeltas s !! i))).
  { apply has_dims_default; [apply Hwf|].
    by rewrite (wf_weightDeltas _ Hwf), <- (wf_weights _ Hwf). }
  assert (Hb : length (row (biases s) i) = bound (layerSizes s) (S i)).
  { unfold row. destruct (lookup_lt_is_Some_2 (biases s) i) as [b0 Hb0].
    - by rewrite (wf_biases _ Hwf), <- (wf_weights _ Hwf).
    - rewrite Hb0. by eapply wf_biases_dims. }
  set (wd := foldl _ (default [] (weights s !! i), _) _).
  assert (Hwd : wd = (imap (fun k => imap (weight_after lr errs vals k))
                           (default [] (weights s !! i)),
                      imap (fun k => imap (delta_after lr errs vals k))
                           (default [] (weightDeltas s !! i)))).
  { subst wd.
    rewrite (foldl_pair _
               (fun m k => foldl (fun m j =>
                  alter (alter (weight_after lr errs vals k j) j) k m)
                  m (seq 0 (bound (layerSizes s) (S i))))
               (fun m k => foldl (fun m j =>
                  alter (alter (delta_after lr errs vals k j) j) k m)
                  m (seq 0 (bound (layerSizes s) (S i))))).
    - cbn [fst snd]. by rewrite !matrix_fold.
    - intros st k.
      rewrite (foldl_pair _
                 (fun m j => alter (alter (weight_after lr errs vals k j) j) k m)
                 (fun m j => alter (alter (delta_after lr errs vals k j) j) k m));
        [done| |]; intros; [apply update_weight_fst|apply update_weight_snd].
    - intros st k.
      rewrite (foldl_pair _
                 (fun m j => alter (alter (weight_after lr errs vals k j) j) k m)
                 (fun m j => alter (alter (delta_after lr errs vals k j) j) k m));
        [done| |]; intros; [apply update_weight_fst|apply update_weight_snd]. }
  rewrite Hwd. clear wd Hwd.
  assert (Hbias : foldl (update_bias lr errs) (row (biases s) i)
                    (seq 0 (bound (layerSizes s) (S i)))
                  = imap (bias_after lr errs) (row (biases s) i)).
  { apply (foldl_alter_seq (bias_after lr errs)). lia. }
  rewrite Hbias.
  assert (Hlens : (i < length (weightDeltas s))%nat /\
                  (i < length (biases s))%nat).
  { rewrite (wf_weightDeltas _ Hwf), (wf_biases _ Hwf), <- (wf_weights _ Hwf).
    done. }
  destruct Hlens as [Hld Hlb].
  destruct (decide (0 < i)%nat);
    cbn [fst with_params weights weightDeltas biases];
    rewrite !list_lookup_insert_eq by done; done.
Qed.

Lemma train_layer_frame (lr : number) (s : SimpleNetwork)
    (E : gmap nat (list number)) (i j : nat) :
  j <> i ->
  let r := train_layer lr (s, E) i in
  weights (fst r) !! j = weights s !! j /\
  weightDeltas (fst r) !! j = weightDeltas s !! j /\
  biases (fst r) !! j = biases s !! j /\
  (forall n, (i < n)%nat -> snd r !! n = E !! n).
Proof.
  intros Hne. unfold train_layer. cbv zeta.
  destruct (decide (0 < i)%nat);
    cbn [fst snd with_params weights weightDeltas biases];
    rewrite !list_lookup_insert_ne by done; repeat split; try done.
  intros n Hn. apply lookup_insert_ne. lia.
Qed.

Lemma train_fold_params (lr : number) (m : nat) :
  forall (s : SimpleNetwork) (E : gmap nat (list number)),
  wf s -> (m <= length (weights s))%nat ->
  let r := foldl (train_layer lr) (s, E) (rev (seq 0 m)) in
  (forall i, (m <= i)%nat ->
     weights (fst r) !! i = weights s !! i /\
     weightDeltas (fst r) !! i = weightDeltas s !! i /\
     biases (fst r) !! i = biases s !! i /\
     snd r !! S i = E !! S i) /\
  forall i, (i < m)%nat ->
    weights (fst r) !! i =
      Some (imap (fun k => imap (weight_after lr (default [] (snd r !! S i))
                                   (row (values s) i) k))
                 (default [] (weights s !! i))) /\
    weightDeltas (fst r) !! i =
      Some (imap (fun k => imap (delta_after lr (default [] (snd r !! S i))
                                   (row (values s) i) k))
                 (default [] (weightDeltas s !! i))) /\
    biases (fst r) !! i =
      Some (imap (bias_after lr (default [] (snd r !! S i)))
                 (row (biases s) i)).
Proof.
  induction m as [|m IH]; intros s E Hwf Hm r.
  { subst r. simpl. split; [done|]. intros; lia. }
  subst r. rewrite seq_S, rev_unit. cbn [foldl Nat.add].
  pose proof (train_layer_params lr s E m Hwf ltac:(lia)) as Hp.
  pose proof (train_layer_wf lr s E m Hwf ltac:(lia)) as Hwf1.
  pose proof (train_layer_spec lr s E m ltac:(lia)) as (Hv1 & _ & _ & Hl1 & _).
  pose proof (fun j Hj => train_layer_frame lr s E m j Hj) as Hfr.
  destruct (train_layer lr (s, E) m) as [s1 E1]. cbn [fst snd] in *.
  pose proof (IH s1 E1 Hwf1 ltac:(lia)) as H2.
  destruct (foldl (train_layer lr) (s1, E1) (rev (seq 0 m))) as [s2 E2].
  cbn [fst snd] in *.
  destruct H2 as [Hframe Hpar].
  assert (HE1 : forall n, (m < n)%nat -> E1 !! n = E !! n).
  { intros n Hn. apply (Hfr (S m) ltac:(lia)). done. }
  split.
  - intros i Hi. destruct (Hframe i ltac:(lia)) as (-> & -> & -> & ->).
    destruct (Hfr i ltac:(lia)) as (-> & -> & -> & _).
    rewrite HE1 by lia. done.
  - intros i Hi. destruct (decide (i = m)) as [->|Hne].
    + destruct (Hframe m ltac:(lia)) as (-> & -> & -> & ->).
      rewrite HE1 by lia. exact Hp.
    + destruct (Hpar i ltac:(lia)) as (Hw & Hd & Hb).
      destruct (Hfr i Hne) as (Hw1 & Hd1 & Hb1 & _).
      rewrite Hw, Hd, Hb, Hv1. unfold row. rewrite Hw1, Hd1, Hb1. done.
Qed.

(** The parameters after [train]: with [errs] the error vector of the next
    layer and [vals] the forward pass's values of the current one, every
    weight of every transition whose gradient [errs[j] * vals[k]] is finite
    has [clamp1 (lr * gradient)] added, and that amount recorded as its
    delta; a weight whose gradient is not finite keeps its value and its
    delta; every bias has [clamp1 (lr * errs[j])] added, whether or not
    that gradient is finite. *)
Lemma train_params (net : SimpleNetwork) (inputs targets : list number)
    (lr : number) :
  wf net ->
  let fwd := fst (forward net inputs) in
  let res := train_trace net inputs targets lr in
  forall i, (i < length (layerSizes net) - 1)%nat ->
    let errs := default [] (snd res !! S i) in
    let vals := row (values fwd) i in
    weights (fst res) !! i =
      Some (imap (fun k => imap (weight_after lr errs vals k))
                 (default [] (weights net !! i))) /\
    weightDeltas (fst res) !! i =
      Some (imap (fun k => imap (delta_after lr errs vals k))
                 (default [] (weightDeltas net !! i))) /\
    biases (fst res) !! i =
      Some (imap (bias_after lr errs) (row (biases net) i)).
Proof.
  intros Hwf fwd res i Hi.
  pose proof (forward_wf net inputs Hwf) as Hwf'.
  pose proof (forward_inv net inputs) as ((_ & _ & Hw & Hd & Hb) & _).
  fold fwd in Hwf', Hw, Hd, Hb.
  subst res. unfold train_trace. fold fwd.
  match goal with |- context [foldl _ (fwd, ?E0) _] =>
    pose proof (train_fold_params lr (length (weights fwd)) fwd E0 Hwf'
                  ltac:(done)) as [_ H] end.
  assert (Hlen : length (weights fwd) = (length (layerSizes net) - 1)%nat)
    by (by rewrite Hw, (wf_weights _ Hwf)).
  rewrite Hlen in *. specialize (H i Hi).
  unfold row in *. rewrite Hw, Hd, Hb in H. exact H.
Qed.

(** ** The network model: invariants and frame properties *)

Lemma setLayerBias_wf (net : SimpleNetwork) (layerIdx : Z) (value : number) :
  wf net -> wf (setLayerBias net layerIdx value).
Proof.
  intros Hwf. unfold setLayerBias. destruct (_ && _); [|done].
  destruct Hwf. split; cbn [layerSizes activations weights weightDeltas biases
    values preActivations]; try done.
  - by rewrite length_alter.
  - intros i b. rewrite list_lookup_alter. case_decide as Hi.
    + destruct (biases net !! _) as [b0|] eqn:Hb; [|done]. simpl.
      intros [= <-]. rewrite length_replicate. subst i. by eauto.
    + by eauto.
Qed.

Lemma setActivations_wf (net : SimpleNetwork) (acts : list ActivationKey) :
  wf net -> length acts = length (layerSizes net) ->
  wf (setActivations net acts).
Proof. intros [] Hlen. by split. Qed.

(** X3: the dimension invariant of the data model is kept by every method
    of the network: [forward] and [train] on an input of at most as many
    entries as the input layer has units, with any targets and learning
    rate, [setLayerBias] at any index, and [setActivations] with one key
    per layer. *)
Theorem wf_preserved (net : SimpleNetwork) :
  wf net ->
  (forall inputs, (length inputs <= bound (layerSizes net) 0)%nat ->
     wf (fst (forward net inputs))) /\
  (forall inputs targets learningRate,
     (length inputs <= bound (layerSizes net) 0)%nat ->
     wf (train net inputs targets learningRate)) /\
  (forall layerIdx value, wf (setLayerBias net layerIdx value)) /\
  (forall acts, length acts = length (layerSizes net) ->
     wf (setActivations net acts)).
Proof.
  intros Hwf. split; [|split; [|split]].
  - intros inputs _. by apply forward_wf.
  - intros inputs targets learningRate _. by apply train_wf.
  - intros. by apply setLayerBias_wf.
  - intros. by apply setActivations_wf.
Qed.

Lemma at_replicate (n : nat) (v : number) (j : nat) :
  (j < n)%nat -> at_ (replicate n v) j = v.
Proof. intros Hj. unfold at_. by rewrite lookup_replicate_2. Qed.

(** X4: [setLayerBias] at a layer index from 1 to the last layer sets every
    bias of that layer to the value and changes nothing else; the next
    [forward], on an input of at most as many entries as the input layer
    has units, then computes that layer's pre-activations with the value
    as every unit's bias. *)
Theorem setLayerBias_in_range (net : SimpleNetwork) (layerIdx : Z)
    (value : number) (inputs : list number) :
  wf net ->
  (1 <= layerIdx <= Z.of_nat (length (layerSizes net)) - 1)%Z ->
  (length inputs <= bound (layerSizes net) 0)%nat ->
  let net' := setLayerBias net layerIdx value in
  let i := Z.to_nat (layerIdx - 1) in
  biases net' !! i = Some (replicate (bound (layerSizes net) (S i)) value) /\
  (forall j, j <> i -> biases net' !! j = biases net !! j) /\
  layerSizes net' = layerSizes net /\ activations net' = activations net /\
  weights net' = weights net /\ weightDeltas net' = weightDeltas net /\
  values net' = values net /\ preActivations net' = preActivations net /\
  preActivations (fst (forward net' inputs)) !! S i =
    Some (map (fun j =>
                 finite_or_0
                   (weighted_sum (row (values (fst (forward net' inputs))) i)
                                 (default [] (weights net !! i)) j
                    + value))
              (seq 0 (bound (layerSizes net) (S i)))).
Proof.
  intros Hwf Hidx _ net' i.
  assert (Hi : (i < length (biases net))%nat).
  { rewrite (wf_biases _ Hwf). unfold i. lia. }
  assert (Hnet' : net' = with_params net (weights net) (weightDeltas net)
            (alter (fun b => replicate (length b) value) i (biases net))).
  { unfold net', setLayerBias. cbv zeta.
    replace ((layerIdx - 1 >=? 0)%Z && (layerIdx - 1 <? Z.of_nat (length (biases net)))%Z)
      with true; [done|].
    symmetry. apply andb_true_iff. split; [lia|].
    apply Z.ltb_lt. rewrite (wf_biases _ Hwf). lia. }
  destruct (lookup_lt_is_Some_2 _ _ Hi) as [b0 Hb0].
  assert (Hb : biases net' !! i
               = Some (replicate (bound (layerSizes net) (S i)) value)).
  { rewrite Hnet'. cbn [with_params biases].
    rewrite list_lookup_alter_eq, Hb0. simpl.
    by rewrite (wf_biases_dims _ Hwf i b0 Hb0). }
  split; [done|]. split.
  { intros j Hj. rewrite Hnet'. cbn [with_params biases].
    by rewrite list_lookup_alter_ne. }
  rewrite Hnet' at 1 2 3 4 5 6.
  do 6 (split; [done|]).
  pose proof (forward_inv net' inputs) as ((Hs & _ & Hw & _ & Hbs) & _ & _ & _ & _ & Hk).
  destruct (Hk i) as [_ ->].
  { rewrite Hnet'. cbn [with_params weights]. rewrite (wf_weights _ Hwf).
    rewrite (wf_biases _ Hwf) in Hi. done. }
  f_equal. unfold layer_pre. rewrite Hs, Hw, Hbs.
  replace (layerSizes net') with (layerSizes net) by (by rewrite Hnet').
  replace (weights net') with (weights net) by (by rewrite Hnet').
  apply map_ext_in. intros j Hj. apply in_seq in Hj.
  unfold row at 2. rewrite Hb. cbn [default from_option id].
  rewrite at_replicate by lia. done.
Qed.

Lemma same_params_sym (s net : SimpleNetwork) :
  same_params s net -> same_params net s.
Proof. intros (?&?&?&?&?). by repeat split. Qed.

Lemma same_params_trans (a b c : SimpleNetwork) :
  same_params a b -> same_params b c -> same_params a c.
Proof.
  intros (?&?&?&?&?) (?&?&?&?&?). repeat split; congruence.
Qed.

(** Two states that [forward] can end in, on the same parameters and input
    and with as many cache rows as there are layers, have the same caches. *)
Lemma fwd_inv_caches (net1 net2 : SimpleNetwork) (inputs : list number)
    (k : nat) (s1 s2 : SimpleNetwork) :
  same_params net1 net2 ->
  fwd_inv net1 inputs k s1 -> fwd_inv net2 inputs k s2 ->
  length (values s1) = S k -> length (values s2) = S k ->
  length (preActivations s1) = S k -> length (preActivations s2) = S k ->
  values s1 = values s2 /\ preActivations s1 = preActivations s2.
Proof.
  intros Hp (Hp1 & _ & _ & Hv1 & Hpa1 & Hk1) (Hp2 & _ & _ & Hv2 & Hpa2 & Hk2)
    Hl1 Hl2 Hq1 Hq2.
  assert (Hs : same_params s1 s2).
  { eapply same_params_trans; [exact Hp1|].
    eapply same_params_trans; [exact Hp|]. by apply same_params_sym. }
  assert (Hrows : forall i, (i <= k)%nat -> values s1 !! i = values s2 !! i).
  { induction i as [|i IH]; intros Hi; [congruence|].
    destruct (Hk1 i ltac:(lia)) as [-> _]. destruct (Hk2 i ltac:(lia)) as [-> _].
    f_equal. apply layer_values_ext; [done|]. apply IH. lia. }
  split; apply list_eq; intros i.
  - destruct (decide (i <= k)%nat) as [Hi|Hi]; [by apply Hrows|].
    rewrite !lookup_ge_None_2 by lia. done.
  - destruct (decide (i <= k)%nat) as [Hi|Hi].
    + destruct i as [|i]; [congruence|].
      destruct (Hk1 i ltac:(lia)) as [_ ->].
      destruct (Hk2 i ltac:(lia)) as [_ ->].
      f_equal. apply layer_pre_ext; [done|]. apply Hrows. lia.
    + rewrite !lookup_ge_None_2 by lia. done.
Qed.

(** X5: the result of [forward] depends only on the parameters and the
    input: whatever the caches hold before the call (as many rows as
    layers), the returned output and the network after the call are the
    same. *)
Theorem forward_ignores_caches (net : SimpleNetwork)
    (vs ps : list (list number)) (inputs : list number) :
  wf net ->
  (length inputs <= bound (layerSizes net) 0)%nat ->
  length vs = length (layerSizes net) ->
  length ps = length (layerSizes net) ->
  forward (with_caches net vs ps) inputs = forward net inputs.
Proof.
  intros Hwf _ Hvs Hps.
  set (net2 := with_caches net vs ps).
  assert (Hp : same_params net2 net) by (by repeat split).
  pose proof (forward_inv net2 inputs) as H2.
  pose proof (forward_inv net inputs) as H1.
  replace (length (weights net2)) with (length (weights net)) in H2 by done.
  pose proof (wf_layers _ Hwf) as HL.
  pose proof (wf_weights _ Hwf) as HW.
  assert (Hlens : length (values (fst (forward net2 inputs)))
                  = S (length (weights net)) /\
                  length (preActivations (fst (forward net2 inputs)))
                  = S (length (weights net)) /\
                  length (values (fst (forward net inputs)))
                  = S (length (weights net)) /\
                  length (preActivations (fst (forward net inputs)))
                  = S (length (weights net))).
  { destruct H2 as (_ & -> & -> & _). destruct H1 as (_ & -> & -> & _).
    cbn [net2 with_caches values preActivations].
    rewrite Hvs, Hps, (wf_values _ Hwf), (wf_preActivations _ Hwf). lia. }
  destruct Hlens as (L1 & L2 & L3 & L4).
  destruct (fwd_inv_caches net2 net inputs _ _ _ Hp H2 H1 L1 L3 L2 L4)
    as [Hv Hpa].
  assert (Hfst : fst (forward net2 inputs) = fst (forward net inputs)).
  { destruct H2 as ((E1&E2&E3&E4&E5) & _). destruct H1 as ((F1&F2&F3&F4&F5) & _).
    destruct Hp as (G1&G2&G3&G4&G5).
    destruct (fst (forward net2 inputs)), (fst (forward net inputs)).
    cbn [layerSizes activations weights weightDeltas biases values
         preActivations] in *.
    congruence. }
  rewrite (forward_output net2), (forward_output net). by rewrite Hfst.
Qed.

(** ** train: the updates applied, and numerical stability *)

Lemma at3_lookup (m : list (list (list number))) (i k j : nat) (x : number) :
  at3 m i k j = Some x <->
  exists mi r, m !! i = Some mi /\ mi !! k = Some r /\ r !! j = Some x.
Proof.
  unfold at3, at2. split.
  - destruct (m !! i) as [mi|]; [|done]. simpl.
    destruct (mi !! k) as [r|] eqn:Hk; [|done]. simpl. intros Hj.
    by exists mi, r.
  - intros (mi & r & -> & Hk & Hj). simpl. rewrite Hk. done.
Qed.

Lemma at2_lookup (m : list (list number)) (i j : nat) (x : number) :
  at2 m i j = Some x <-> exists r, m !! i = Some r /\ r !! j = Some x.
Proof.
  unfold at2. split.
  - destruct (m !! i) as [r|]; [|done]. simpl. intros Hj. by exists r.
  - intros (r & -> & Hj). done.
Qed.

(** X6: what [train] does to every parameter, on an input of at most as
    many entries as the input layer has units.  With [errs] the error
    vector of layer [i + 1] computed in the call and [vals] the values of
    layer [i] from its forward pass, the gradient of weight [i][k][j] is
    [errs[j] * vals[k]]; if it is finite, [clamp1 (lr * gradient)] is added
    to the weight and recorded as its delta, otherwise the weight keeps its
    value and the delta cache keeps the delta of an earlier call; every
    bias [i][j] has [clamp1 (lr * errs[j])] added. *)
Theorem train_updates (net : SimpleNetwork) (inputs targets : list number)
    (lr : number) :
  wf net ->
  (length inputs <= bound (layerSizes net) 0)%nat ->
  let fwd := fst (forward net inputs) in
  let net' := train net inputs targets lr in
  let errors := snd (train_trace net inputs targets lr) in
  forall i,
    let errs := default [] (errors !! S i) in
    let vals := row (values fwd) i in
    (forall k j w, at3 (weights net) i k j = Some w ->
       let gradient := at_ errs j * at_ vals k in
       at3 (weights net') i k j =
         Some (if isFinite gradient then w + clamp1 (lr * gradient) else w)) /\
    (forall k j d, at3 (weightDeltas net) i k j = Some d ->
       let gradient := at_ errs j * at_ vals k in
       at3 (weightDeltas net') i k j =
         Some (if isFinite gradient then clamp1 (lr * gradient) else d)) /\
    (forall j b, at2 (biases net) i j = Some b ->
       at2 (biases net') i j = Some (b + clamp1 (lr * at_ errs j))).
Proof.
  intros Hwf _ fwd net' errors i errs vals.
  assert (Hin : forall {A} (l : list A) x, l !! i = Some x ->
            length l = (length (layerSizes net) - 1)%nat ->
            (i < length (layerSizes net) - 1)%nat).
  { intros A l x Hl <-. by eapply lookup_lt_Some. }
  split; [|split].
  - intros k j w (mi & r & Hmi & Hr & Hj)%at3_lookup gradient.
    destruct (train_params net inputs targets lr Hwf i) as (Hw & _ & _).
    { eapply Hin; [exact Hmi|apply Hwf]. }
    apply at3_lookup. eexists _, _. split; [exact Hw|].
    rewrite Hmi. cbn [default from_option id].
    rewrite list_lookup_imap, Hr. cbn [fmap option_fmap option_map].
    split; [done|]. rewrite list_lookup_imap, Hj. done.
  - intros k j d (mi & r & Hmi & Hr & Hj)%at3_lookup gradient.
    destruct (train_params net inputs targets lr Hwf i) as (_ & Hd & _).
    { eapply Hin; [exact Hmi|apply Hwf]. }
    apply at3_lookup. eexists _, _. split; [exact Hd|].
    rewrite Hmi. cbn [default from_option id].
    rewrite list_lookup_imap, Hr. cbn [fmap option_fmap option_map].
    split; [done|]. rewrite list_lookup_imap, Hj. done.
  - intros j b (r & Hr & Hj)%at2_lookup.
    destruct (train_params net inputs targets lr Hwf i) as (_ & _ & Hb).
    { eapply Hin; [exact Hr|apply Hwf]. }
    apply at2_lookup. eexists. split; [exact Hb|].
    unfold row. rewrite Hr. cbn [default from_option id].
    rewrite list_lookup_imap, Hj. done.
Qed.

Lemma between_inv (lo hi : Q) (x : number) :
  between (Num lo) (Num hi) x ->
  exists q, x = Num q /\ (lo <= q)%Q /\ (q <= hi)%Q.
Proof.
  intros [H1 H2]. destruct x as [|s|q]; simpl in *; try discriminate.
  - destruct s; simpl in *; discriminate.
  - exists q. split; [done|].
    rewrite negb_true_iff in H1, H2. apply Qltb_false in H1, H2. done.
Qed.

Lemma between_intro (lo hi q : Q) :
  (lo <= q)%Q -> (q <= hi)%Q -> between (Num lo) (Num hi) (Num q).
Proof.
  intros H1 H2. split; simpl; rewrite negb_true_iff; by apply Qltb_false.
Qed.

(** [Math.max(-1, Math.min(1, x))] of anything but NaN lies in [-1, 1]. *)
Lemma clamp1_between (x : number) :
  isNaN x = false -> between (lit (-1)) (lit 1) (clamp1 x).
Proof.
  intros Hx. destruct x as [|s|q]; [discriminate| |].
  - destruct s; vm_compute; split; reflexivity.
  - unfold clamp1. change (lit (-1)) with (Num (-1)%Q).
    change (lit 1) with (Num 1).
    change (Math_min (Num 1) (Num q))
      with (if Qltb q 1 then Num q else Num 1).
    destruct (Qltb q 1) eqn:E1.
    + apply Qltb_spec in E1.
      change (Math_max (Num (-1)%Q) (Num q))
        with (if Qltb (-1) q then Num q else Num (-1)%Q).
      destruct (Qltb (-1) q) eqn:E2.
      * apply Qltb_spec in E2. apply between_intro; lra.
      * apply between_intro; lra.
    + change (Math_max (Num (-1)%Q) (Num 1)) with (Num 1).
      apply between_intro; lra.
Qed.

Lemma between_finite (lo hi : Q) (x : number) :
  between (Num lo) (Num hi) x -> finite x.
Proof. intros (q & -> & _)%between_inv. done. Qed.

Lemma clamp1_finite (x : number) : isNaN x = false -> finite (clamp1 x).
Proof. intros Hx. eapply between_finite, clamp1_between, Hx. Qed.


Lemma Forall_imap {A B} (P : B -> Prop) (f : nat -> A -> B) (l : list A) :
  (forall i x, l !! i = Some x -> P (f i x)) -> Forall P (imap f l).
Proof.
  intros H. apply Forall_lookup. intros i y.
  rewrite list_lookup_imap. destruct (l !! i) as [x|] eqn:E; [|done].
  intros [= <-]. by apply H.
Qed.

(** [train] does not change the architecture. *)
Lemma train_layerSizes (net : SimpleNetwork) (inputs targets : list number)
    (lr : number) :
  layerSizes (train net inputs targets lr) = layerSizes net.
Proof.
  pose proof (forward_inv net inputs) as ((Hs & _) & _).
  unfold train, train_trace.
  match goal with |- context [foldl _ (?s0, ?E0) (rev (seq 0 ?m))] =>
    pose proof (train_fold lr m s0 E0 ltac:(done)) as (_ & H & _) end.
  by rewrite H.
Qed.

(** The product of two finite numbers is not NaN. *)
Lemma mul_finite_not_NaN (a b : number) :
  finite a -> finite b -> isNaN (a * b) = false.
Proof. by destruct a, b. Qed.

(** A step of at most 1 in either direction leaves a finite number
    finite. *)
Lemma add_step_finite (w d : number) :
  finite w -> between (lit (-1)) (lit 1) d -> finite (w + d).
Proof.
  intros Hw Hd. apply isFinite_add; [done|].
  by eapply (between_finite (-1) 1).
Qed.

(** One [train] call keeps the weights stable, whatever the inputs and the
    targets. *)
Lemma train_weights_stable (net : SimpleNetwork)
    (inputs targets : list number) (lr : number) :
  wf net -> stable_weights net -> finite lr ->
  stable_weights (train net inputs targets lr).
Proof.
  intros Hwf (Hws & Hds) Hlr.
  pose proof (train_wf net inputs targets lr Hwf) as Hwf'.
  pose proof (train_params net inputs targets lr Hwf) as Hpar.
  cbv zeta in Hpar. fold (train net inputs targets lr) in Hpar.
  pose proof (train_layerSizes net inputs targets lr) as Hsizes.
  split.
  - apply Forall_lookup. intros i m Hm.
    assert (Hi : (i < length (layerSizes net) - 1)%nat).
    { apply lookup_lt_Some in Hm. rewrite (wf_weights _ Hwf'), Hsizes in Hm.
      done. }
    destruct (Hpar i Hi) as (Hw & _ & _). rewrite Hw in Hm.
    injection Hm as <-.
    apply Forall_imap. intros k r Hr. apply Forall_imap. intros j w Hj.
    assert (finite w).
    { destruct (weights net !! i) as [mi|] eqn:Hmi; [|done].
      cbn [default from_option id] in Hr.
      eapply Forall_lookup_1 in Hws; [|exact Hmi].
      eapply Forall_lookup_1 in Hws; [|exact Hr].
      eapply Forall_lookup_1 in Hws; [|exact Hj]. done. }
    unfold weight_after. destruct (isFinite (_ * _)) eqn:Hg; [|done].
    apply add_step_finite; [done|].
    by apply clamp1_between, mul_finite_not_NaN.
  - apply Forall_lookup. intros i m Hm.
    assert (Hi : (i < length (layerSizes net) - 1)%nat).
    { apply lookup_lt_Some in Hm.
      rewrite (wf_weightDeltas _ Hwf'), Hsizes in Hm. done. }
    destruct (Hpar i Hi) as (_ & Hd & _). rewrite Hd in Hm.
    injection Hm as <-.
    apply Forall_imap. intros k r Hr. apply Forall_imap. intros j d Hj.
    unfold delta_after. destruct (isFinite (_ * _)) eqn:Hg.
    + by apply clamp1_between, mul_finite_not_NaN.
    + destruct (weightDeltas net !! i) as [mi|] eqn:Hmi; [|done].
      cbn [default from_option id] in Hr.
      eapply Forall_lookup_1 in Hds; [|exact Hmi].
      eapply Forall_lookup_1 in Hds; [|exact Hr].
      eapply Forall_lookup_1 in Hds; [|exact Hj]. done.
Qed.

(** X7: numerical instability never reaches the weights.  On a network
    whose weights are finite and whose recorded deltas lie in [-1, 1], any
    number of [train] calls with a finite learning rate -- on an input of
    at most as many entries as the input layer has units and on any
    targets, whatever numbers the two hold, finite or not -- leaves every
    weight finite and every recorded delta in [-1, 1], and keeps the
    dimension invariant: a weight changes only when its gradient is
    finite, the product of the finite learning rate and a finite gradient
    is never NaN, the clamp brings it into [-1, 1], and such a step leaves
    a finite weight finite.  (The biases are not covered: their update has
    no such guard.) *)
Theorem training_keeps_weights_finite (n : nat) (net : SimpleNetwork)
    (inputs targets : list number) (lr : number) :
  wf net -> stable_weights net -> finite lr ->
  (length inputs <= bound (layerSizes net) 0)%nat ->
  wf (train_n n inputs targets lr net) /\
  stable_weights (train_n n inputs targets lr net).
Proof.
  intros Hwf Hst Hlr _.
  induction n as [|n [IHwf IHst]]; [done|].
  change (train_n (S n) inputs targets lr net)
    with (train (train_n n inputs targets lr net) inputs targets lr).
  split; [by apply train_wf|]. by apply train_weights_stable.
Qed.

(** ** The constructor's initial state *)

(** X1: the constructor establishes the dimension invariant of the data
    model.  For at least one layer size and one activation key per layer,
    the network it returns has exactly those sizes and keys; one weight
    matrix, one delta matrix and one bias vector per layer transition,
    matrix [i] with [layerSizes[i]] rows of [layerSizes[i + 1]] entries and
    bias vector [i] with [layerSizes[i + 1]] entries; and one row of cached
    values and of pre-activations per layer. *)
Theorem constructor_dimensions (n : nat) (sizes : list Z)
    (acts : list ActivationKey) (net : SimpleNetwork) :
  (1 <= length sizes)%nat -> length acts = length sizes ->
  constructor n sizes acts = Ok net ->
  wf net /\ layerSizes net = sizes /\ activations net = acts.
Proof.
  intros HL Hacts Hnet. split; [by eapply constructor_wf|].
  unfold constructor in Hnet.
  destruct (constructor_loop _ _) as [st|] eqn:E; [|discriminate].
  apply constructor_loop_Ok in E as (Hs & Ha & _).
  injection Hnet as <-. done.
Qed.

Section ConstructorRanges.

(** What is assumed of the engine: [Math.random()] returns a number
    between 0 and 1, and [Math.sqrt] of a positive integer is a positive
    finite number. *)
Hypothesis Math_random_unit :
  forall n, between (Num 0) (Num 1) (Math_random n).
Hypothesis Math_sqrt_pos :
  forall z, (1 <= z)%Z ->
    exists s, Math_sqrt (of_Z z) = Num s /\ (0 < s)%Q.

Lemma initial_bias_between (n : nat) :
  between (lit 0.01) (lit 0.21) (lit 0.01 + Math_random n * lit 0.2).
Proof.
  destruct (between_inv _ _ _ (Math_random_unit n)) as (r & -> & H0 & H1).
  unfold lit. cbn [mul add]. apply between_intro.
  - rewrite !Qred_correct. lra.
  - rewrite !Qred_correct. lra.
Qed.

Lemma initial_weight_between (n : nat) (s : Q) :
  (0 < s)%Q ->
  between (- (lit 1 / Num s)) (lit 1 / Num s)
    (((Math_random n * lit 2) - lit 1) * (lit 1 / Num s)).
Proof.
  intros Hs.
  destruct (between_inv _ _ _ (Math_random_unit n)) as (r & -> & H0 & H1).
  unfold lit. cbn [mul sub div].
  assert (Hz : Qis_zero s = false).
  { destruct (Qis_zero s) eqn:E; [|done]. apply Qis_zero_spec in E. lra. }
  rewrite Hz. cbn [neg mul].
  assert (Ht : (0 < 1 / s)%Q).
  { apply Qlt_shift_div_l; lra. }
  apply between_intro; rewrite !Qred_correct;
    change (Qred 1) with 1%Q; set (t := (1 / s)%Q) in *; nra.
Qed.

Lemma ctor_content_step (sizes : list Z) (acts : list ActivationKey)
    (k n : nat) (net : SimpleNetwork) (st' : SimpleNetwork * nat) :
  Forall (fun z => (1 <= z)%Z) sizes ->
  ctor_inv sizes acts k net -> ctor_content sizes net ->
  constructor_step (net, n) k = Ok st' ->
  ctor_content sizes (fst st').
Proof.
  intros Hsz (Hs & Ha & Hv & Hp & Hw & Hd & Hb & _) (Cv & Cp & Cd & Cb & Cw).
  unfold constructor_step. unfold new_Array_fill0.
  destruct (_ && _); [|discriminate]. cbn [bind].
  rewrite Hs. fold (bound sizes k).
  destruct k as [|k']; intros [= <-]; cbn [fst]; unfold ctor_content;
    cbn [layerSizes activations values preActivations weights weightDeltas
         biases].
  - split; [|split; [|done]].
    + intros i r [[_ Hi]|[-> <-]]%lookup_snoc_Some; [by apply Cv|].
      by rewrite Hv.
    + intros i r [[_ Hi]|[-> <-]]%lookup_snoc_Some; [by apply Cp|].
      by rewrite Hp.
  - assert (Hw' : length (weights net) = k') by lia.
    assert (Hd' : length (weightDeltas net) = k') by lia.
    assert (Hb' : length (biases net) = k') by lia.
    split; [|split; [|split; [|split]]].
    + intros i r [[_ Hi]|[-> <-]]%lookup_snoc_Some; [by apply Cv|].
      by rewrite Hv.
    + intros i r [[_ Hi]|[-> <-]]%lookup_snoc_Some; [by apply Cp|].
      by rewrite Hp.
    + intros i m [[_ Hi]|[-> <-]]%lookup_snoc_Some; [by apply Cd|].
      by rewrite Hd'.
    + intros i b [[_ Hi]|[-> <-]]%lookup_snoc_Some; [by eapply Cb|].
      unfold random_array. apply Forall_map, Forall_forall. intros c _.
      apply initial_bias_between.
    + intros i m [[_ Hi]|[-> <-]]%lookup_snoc_Some; [by apply Cw|].
      rewrite Hw'. unfold random_rows, random_array.
      apply Forall_map, Forall_forall. intros j Hj%elem_of_seq.
      apply Forall_map, Forall_forall. intros c _.
      unfold init_scale.
      assert (Hk : exists z, sizes !! k' = Some z /\ (1 <= z)%Z).
      { unfold bound in Hj. destruct (sizes !! k') as [z|] eqn:E.
        - exists z. split; [done|]. by eapply Forall_lookup_1 in Hsz.
        - simpl in Hj. lia. }
      destruct Hk as (z & -> & Hz). cbn [default from_option id].
      destruct (Math_sqrt_pos z Hz) as (s & -> & Hs').
      by apply initial_weight_between.
Qed.

Lemma ctor_content_loop (sizes : list Z) (acts : list ActivationKey)
    (m : nat) :
  Forall (fun z => (1 <= z)%Z) sizes ->
  forall (k : nat) (st st' : SimpleNetwork * nat),
  ctor_inv sizes acts k (fst st) -> ctor_content sizes (fst st) ->
  constructor_loop st (seq k m) = Ok st' ->
  ctor_content sizes (fst st').
Proof.
  intros Hsz.
  induction m as [|m IH]; intros k st st' Hinv Hc; cbn [seq constructor_loop].
  - by intros [= <-].
  - destruct (constructor_step st k) as [st1|] eqn:E; [|discriminate].
    cbn [bind]. intros H. destruct st as [net n].
    eapply IH; [| |exact H].
    + eapply ctor_inv_step; [exact Hinv|exact E].
    + eapply ctor_content_step; [exact Hsz|exact Hinv|exact Hc|exact E].
Qed.

(** X2: the state of a freshly constructed network, for layer sizes of at
    least 1.  Every cached value and pre-activation and every recorded
    weight delta is 0; every bias lies between 0.01 and 0.21; every weight
    of transition [i] lies between [-s] and [s] for
    [s = 1 / Math.sqrt(layerSizes[i])]; so all parameters are finite. *)
Theorem constructor_initial_state (n : nat) (sizes : list Z)
    (acts : list ActivationKey) (net : SimpleNetwork) :
  Forall (fun z => (1 <= z)%Z) sizes ->
  constructor n sizes acts = Ok net ->
  values net = map (fun z => replicate (Z.to_nat z) (Num 0)) sizes /\
  preActivations net = map (fun z => replicate (Z.to_nat z) (Num 0)) sizes /\
  (forall i k j d, at3 (weightDeltas net) i k j = Some d -> d = Num 0) /\
  (forall i j b, at2 (biases net) i j = Some b ->
     between (lit 0.01) (lit 0.21) b) /\
  (forall i k j w, at3 (weights net) i k j = Some w ->
     between (- init_scale sizes i) (init_scale sizes i) w) /\
  stable_params net.
Proof.
  intros Hsz. unfold constructor.
  destruct (constructor_loop _ _) as [st|] eqn:E; [|discriminate].
  cbn [bind]. intros [= <-].
  set (st0 := (_, n)) in E.
  assert (Hinv0 : ctor_inv sizes acts 0 (fst st0)).
  { unfold ctor_inv. cbn. repeat split; try done. }
  pose proof (ctor_inv_loop sizes acts _ 0 st0 st Hinv0 E)
    as (_ & _ & Hv & Hp & Hw & _).
  eapply (ctor_content_loop sizes acts _ Hsz 0 st0 st Hinv0) in E.
  2:{ unfold ctor_content. cbn. repeat split; intros; done. }
  destruct E as (Cv & Cp & Cd & Cb & Cw). cbn [Nat.add] in *.
  assert (Hrows : forall rows : list (list number),
            length rows = length sizes ->
            (forall i r, rows !! i = Some r ->
               r = replicate (bound sizes i) (Num 0)) ->
            rows = map (fun z => replicate (Z.to_nat z) (Num 0)) sizes).
  { intros rows Hlen Hr. apply list_eq. intros i.
    rewrite list_lookup_fmap.
    destruct (rows !! i) as [r|] eqn:Er.
    - rewrite (Hr i r Er). apply lookup_lt_Some in Er. rewrite Hlen in Er.
      destruct (lookup_lt_is_Some_2 sizes i Er) as [z Hz].
      unfold bound. rewrite Hz. done.
    - apply lookup_ge_None in Er. rewrite Hlen in Er.
      by rewrite (lookup_ge_None_2 sizes i). }
  assert (Hwb : forall i k j w, at3 (weights (fst st)) i k j = Some w ->
            between (- init_scale sizes i) (init_scale sizes i) w).
  { intros i k j w (mi & r & Hmi & Hr & Hj)%at3_lookup.
    pose proof (Cw i mi Hmi) as H.
    eapply Forall_lookup_1 in H; [|exact Hr].
    eapply Forall_lookup_1 in H; [|exact Hj]. done. }
  assert (Hbb : forall i j b, at2 (biases (fst st)) i j = Some b ->
            between (lit 0.01) (lit 0.21) b).
  { intros i j b (r & Hr & Hj)%at2_lookup.
    pose proof (Cb i r Hr) as H.
    eapply Forall_lookup_1 in H; [|exact Hj]. done. }
  assert (Hdz : forall i k j d, at3 (weightDeltas (fst st)) i k j = Some d ->
            d = Num 0).
  { intros i k j d (mi & r & Hmi & Hr & Hj)%at3_lookup.
    rewrite (Cd i mi Hmi) in Hr.
    apply lookup_replicate_1 in Hr as [-> _].
    apply lookup_replicate_1 in Hj as [-> _]. done. }
  split; [by apply Hrows|]. split; [by apply Hrows|].
  split; [done|]. split; [done|]. split; [done|].
  split; [|split].
  - apply Forall_lookup. intros i mi Hmi.
    apply Forall_lookup. intros k r Hr. apply Forall_lookup. intros j w Hj.
    assert (Hat : at3 (weights (fst st)) i k j = Some w).
    { apply at3_lookup. by exists mi, r. }
    pose proof (Hwb i k j w Hat) as Hbt.
    assert (Hsc : exists t, init_scale sizes i = Num t).
    { apply lookup_lt_Some in Hmi.
      destruct (lookup_lt_is_Some_2 sizes i ltac:(lia)) as [z Hz].
      unfold init_scale. rewrite Hz. cbn [default from_option id].
      destruct (Math_sqrt_pos z) as (s & -> & Hs).
      { by eapply Forall_lookup_1 in Hsz. }
      unfold lit. cbn [div].
      destruct (Qis_zero s) eqn:E0; [|by eexists].
      apply Qis_zero_spec in E0. lra. }
    destruct Hsc as [t Ht]. rewrite Ht in Hbt. cbn [neg] in Hbt.
    by eapply between_finite.
  - apply Forall_lookup. intros i r Hr. apply Forall_lookup. intros j b Hj.
    eapply (between_finite _ _ b), (Hbb i j). apply at2_lookup. by exists r.
  - apply Forall_lookup. intros i mi Hmi.
    apply Forall_lookup. intros k r Hr. apply Forall_lookup. intros j d Hj.
    rewrite (Hdz i k j d); [vm_compute; by split|].
    apply at3_lookup. by exists mi, r.
Qed.

End ConstructorRanges.

(** ** The loss and the turbo loop at convergence *)






(** The frame of the turbo loop that reaches convergence. *)
Lemma loop_converged (inputs target : list number) (lr : number) (sim : Sim) :
  (updateVisuals (train_n 10 inputs target lr (network sim)) target
   <? CONVERGENCE) = true ->
  let r := loop inputs target lr sim in
  snd r = false /\ isPlaying (fst r) = false /\ isOptimized (fst r) = true.
Proof.
  intros H. unfold loop. cbv zeta. rewrite train_batch_train_n, H. done.
Qed.

(** X9: turbo mode stops at the first frame whose loss is below the
    convergence threshold.  On a network that satisfies the dimension
    invariant and inputs of at most as many entries as the input layer has
    units, if that is frame [m + 1], then however many
    more frames are allowed, the network has been trained exactly
    [10 * (m + 1)] times, the epoch counter has grown by [10 * (m + 1)] --
    the frame that converges counts its ten steps too -- playing has
    stopped and the optimized flag is set. *)
Theorem turbo_stops_at_convergence (inputs target : list number)
    (lr : number) (m frames : nat) (sim : Sim) :
  wf (network sim) ->
  (length inputs <= bound (layerSizes (network sim)) 0)%nat ->
  isPlaying sim = true ->
  (forall j, (j < m)%nat ->
     (updateVisuals (train_n (10 * S j) inputs target lr (network sim)) target
      <? CONVERGENCE) = false) ->
  (updateVisuals (train_n (10 * S m) inputs target lr (network sim)) target
   <? CONVERGENCE) = true ->
  (m < frames)%nat ->
  let sim' := turbo frames inputs target lr sim in
  network sim' = train_n (10 * S m) inputs target lr (network sim) /\
  epochRef sim' = (epochRef sim + 10 * Z.of_nat (S m))%Z /\
  epochs sim' = epochRef sim' /\
  isPlaying sim' = false /\ isOptimized sim' = true.
Proof.
  intros _ _ Hplay Hno Hyes Hm sim'. subst sim'. unfold turbo. rewrite Hplay.
  revert frames sim Hplay Hno Hyes Hm.
  induction m as [|m IH]; intros frames sim Hplay Hno Hyes Hm;
    (destruct frames as [|frames]; [lia|]); cbn [turbo_frames].
  - pose proof (loop_spec inputs target lr sim) as (Hn & He & Hes & _).
    pose proof (loop_converged inputs target lr sim Hyes) as (Hs & Hp & Ho).
    destruct (loop inputs target lr sim) as [sim1 again].
    cbn [fst snd] in *. subst again.
    repeat split; try done. congruence.
  - pose proof (loop_spec inputs target lr sim) as (Hn & He & Hes & Hcont).
    destruct (loop inputs target lr sim) as [sim1 again].
    cbn [fst snd] in *.
    destruct Hcont as [-> Hp1]; [apply (Hno 0%nat); lia|].
    rewrite Hplay in *.
    destruct (IH frames sim1 Hp1) as (Hn' & He' & Hes' & Hp' & Ho').
    + intros j Hj. rewrite Hn, <- train_n_add.
      replace (10 * S j + 10)%nat with (10 * S (S j))%nat by lia.
      apply Hno. lia.
    + rewrite Hn, <- train_n_add.
      replace (10 * S m + 10)%nat with (10 * S (S m))%nat by lia. done.
    + lia.
    + repeat split; try done.
      * rewrite Hn', Hn, <- train_n_add. f_equal. lia.
      * rewrite He', He. lia.
Qed.

(** ** The animation scheduler *)

Lemma stepped_paused (ticks nLayers : nat) (inputs target : list number)
    (lr : number) (st : Scheduler) :
  isPlaying (sched_sim st) = false ->
  stepped ticks nLayers inputs target lr st = st.
Proof. intros H. destruct ticks; [done|]. cbn [stepped]. by rewrite H. Qed.

Lemma stepped_add (a b nLayers : nat) (inputs target : list number)
    (lr : number) :
  forall st,
  stepped (a + b) nLayers inputs target lr st
  = stepped b nLayers inputs target lr (stepped a nLayers inputs target lr st).
Proof.
  induction a as [|a IH]; intros st; [done|]. cbn [Nat.add stepped].
  destruct (isPlaying (sched_sim st)) eqn:E; [apply IH|].
  by rewrite stepped_paused.
Qed.

(** The forward phase: from layer [a], [k] ticks move the pointer to layer
    [a + k] as long as that is a layer. *)
Lemma stepped_forward (nLayers : nat) (inputs target : list number)
    (lr : number) (sim : Sim) (k : nat) :
  isPlaying sim = true ->
  forall a, (0 <= a)%Z -> (a + Z.of_nat k < Z.of_nat nLayers)%Z ->
  stepped k nLayers inputs target lr (pointing sim FORWARD a)
  = pointing sim FORWARD (a + Z.of_nat k).
Proof.
  intros Hplay. induction k as [|k IH]; intros a Ha Hk.
  { by rewrite Z.add_0_r. }
  cbn [stepped pointing sched_sim]. rewrite Hplay.
  unfold animation_tick. cbn [pointing sched_sim direction activeLayer].
  replace (a =? -1)%Z with false by lia.
  replace (a + 1 <? Z.of_nat nLayers)%Z with true by lia.
  fold (pointing sim FORWARD (a + 1)). rewrite IH by lia.
  f_equal. lia.
Qed.

(** The backward phase: from layer [a], [k <= a] ticks move the pointer
    down to layer [a - k]. *)
Lemma stepped_backward (nLayers : nat) (inputs target : list number)
    (lr : number) (sim : Sim) (k : nat) :
  isPlaying sim = true ->
  forall a, (Z.of_nat k <= a)%Z ->
  stepped k nLayers inputs target lr (pointing sim BACKWARD a)
  = pointing sim BACKWARD (a - Z.of_nat k).
Proof.
  intros Hplay. induction k as [|k IH]; intros a Hk.
  { by rewrite Z.sub_0_r. }
  cbn [stepped pointing sched_sim]. rewrite Hplay.
  unfold animation_tick. cbn [pointing sched_sim direction activeLayer].
  replace (a - 1 >=? 0)%Z with true by lia.
  fold (pointing sim BACKWARD (a - 1)). rewrite IH by lia.
  f_equal. lia.
Qed.

(** From the first layer in the forward phase to the moment before the
    training step: [2 * nLayers - 1] ticks. *)
Lemma stepped_sweep (nLayers : nat) (inputs target : list number)
    (lr : number) (sim : Sim) :
  (1 <= nLayers)%nat -> isPlaying sim = true ->
  stepped (2 * nLayers - 1) nLayers inputs target lr (pointing sim FORWARD 0)
  = pointing sim BACKWARD 0.
Proof.
  intros HL Hplay.
  replace (2 * nLayers - 1)%nat
    with ((nLayers - 1) + (1 + (nLayers - 1)))%nat by lia.
  rewrite stepped_add, stepped_forward by (done || lia).
  rewrite stepped_add. cbn [stepped pointing sched_sim]. rewrite Hplay.
  unfold animation_tick at 1. cbn [pointing sched_sim direction activeLayer].
  rewrite (proj2 (Z.eqb_neq _ _)) by lia.
  rewrite (proj2 (Z.ltb_ge _ _)) by lia.
  fold (pointing sim BACKWARD (Z.of_nat nLayers - 1)).
  rewrite stepped_backward by (done || lia). f_equal. lia.
Qed.

Lemma trained_once_spec (inputs target : list number) (lr : number)
    (sim : Sim) :
  network (trained_once inputs target lr sim)
    = train (network sim) inputs target lr /\
  epochRef (trained_once inputs target lr sim) = (epochRef sim + 1)%Z /\
  epochs (trained_once inputs target lr sim) = (epochRef sim + 1)%Z /\
  isPlaying (trained_once inputs target lr sim) = isPlaying sim /\
  isOptimized (trained_once inputs target lr sim) = isOptimized sim.
Proof. done. Qed.

(** The simulation state after the training step that reaches
    convergence. *)
Lemma tick_train (nLayers : nat) (inputs target : list number) (lr : number)
    (sim : Sim) :
  animation_tick nLayers inputs target lr (pointing sim BACKWARD 0)
  = if updateVisuals (train (network sim) inputs target lr) target
       <? CONVERGENCE
    then at_rest
           {| network := train (network sim) inputs target lr;
              epochRef := (epochRef sim + 1)%Z;
              epochs := (epochRef sim + 1)%Z;
              lossHistory :=
                push_history (lossHistory sim)
                  ((epochRef sim + 1)%Z,
                   updateVisuals (train (network sim) inputs target lr)
                     target);
              isPlaying := false; isOptimized := true |}
    else pointing (trained_once inputs target lr sim) UPDATING (-1).
Proof. done. Qed.

Lemma tick_updating (nLayers : nat) (inputs target : list number)
    (lr : number) (sim : Sim) (a : Z) :
  animation_tick nLayers inputs target lr (pointing sim UPDATING a)
  = pointing sim FORWARD 0.
Proof. done. Qed.

(** One cycle without convergence: [2 * nLayers + 1] ticks. *)
Lemma stepped_cycle (nLayers : nat) (inputs target : list number)
    (lr : number) (sim : Sim) :
  (1 <= nLayers)%nat -> isPlaying sim = true ->
  (updateVisuals (train (network sim) inputs target lr) target
   <? CONVERGENCE) = false ->
  stepped (2 * nLayers + 1) nLayers inputs target lr (pointing sim FORWARD 0)
  = pointing (trained_once inputs target lr sim) FORWARD 0.
Proof.
  intros HL Hplay Hloss.
  replace (2 * nLayers + 1)%nat with ((2 * nLayers - 1) + 2)%nat by lia.
  rewrite stepped_add, stepped_sweep by done.
  cbn [stepped]. rewrite tick_train, Hloss.
  cbn [pointing sched_sim]. rewrite Hplay.
  change (isPlaying (trained_once inputs target lr sim)) with (isPlaying sim).
  rewrite Hplay. apply tick_updating.
Qed.

(** X10: the animation scheduler runs one training step per cycle of
    [2 * nLayers + 1] timer ticks.  On a network that satisfies the
    dimension invariant and inputs of at most as many entries as the input
    layer has units, started in the forward phase at layer 0 while playing,
    it walks the active layer up to the last layer, back
    down to layer 0, trains once, spends one tick in UPDATING and is back
    in the forward phase at layer 0; so after [n] cycles, none of whose
    training steps reaches convergence, the network has been trained [n]
    times, the epoch counter has grown by [n], and playing continues. *)
Theorem stepped_epochs (nLayers : nat) (inputs target : list number)
    (lr : number) (n : nat) (sim : Sim) :
  wf (network sim) ->
  (length inputs <= bound (layerSizes (network sim)) 0)%nat ->
  (1 <= nLayers)%nat -> isPlaying sim = true ->
  (forall j, (j < n)%nat ->
     (updateVisuals (train_n (S j) inputs target lr (network sim)) target
      <? CONVERGENCE) = false) ->
  let st := stepped (n * (2 * nLayers + 1)) nLayers inputs target lr
              (pointing sim FORWARD 0) in
  direction st = FORWARD /\ activeLayer st = 0%Z /\
  network (sched_sim st) = train_n n inputs target lr (network sim) /\
  epochRef (sched_sim st) = (epochRef sim + Z.of_nat n)%Z /\
  ((0 < n)%nat -> epochs (sched_sim st) = epochRef (sched_sim st)) /\
  isPlaying (sched_sim st) = true.
Proof.
  intros _ _ HL Hplay Hloss st. subst st.
  assert (H : exists sim',
            stepped (n * (2 * nLayers + 1)) nLayers inputs target lr
              (pointing sim FORWARD 0) = pointing sim' FORWARD 0 /\
            network sim' = train_n n inputs target lr (network sim) /\
            epochRef sim' = (epochRef sim + Z.of_nat n)%Z /\
            ((0 < n)%nat -> epochs sim' = epochRef sim') /\
            isPlaying sim' = true).
  { induction n as [|n IH].
    { exists sim. repeat split; try done; [lia|intros; lia]. }
    destruct IH as (sim1 & Hst & Hn & He & _ & Hp).
    { intros j Hj. apply Hloss. lia. }
    exists (trained_once inputs target lr sim1).
    replace (S n * (2 * nLayers + 1))%nat
      with (n * (2 * nLayers + 1) + (2 * nLayers + 1))%nat by lia.
    rewrite stepped_add, Hst.
    destruct (trained_once_spec inputs target lr sim1)
      as (Tn & Te & Tes & Tp & _).
    split; [|split; [|split; [|split]]].
    - apply stepped_cycle; [done|done|]. rewrite Hn. apply (Hloss n). lia.
    - rewrite Tn, Hn. done.
    - rewrite Te, He. lia.
    - intros _. by rewrite Tes, Te.
    - by rewrite Tp. }
  destruct H as (sim' & -> & Hn & He & Hes & Hp). done.
Qed.

(** X11: both speed modes record the loss in the same way: the new entry
    is appended and only the newest 200 entries are kept, in order.  The
    turbo loop's [h.length > 200 ? h.slice(-200) : h] on the extended
    history and the animation's [[...prev.slice(-199), entry]] give the
    same list, of [min (length + 1) 200] entries, ending in the new one. *)
Theorem history_update {A} (prev : list A) (entry : A) :
  keep_last_200 (prev ++ [entry]) = push_history prev entry /\
  push_history prev entry = drop (length prev - 199) (prev ++ [entry]) /\
  length (push_history prev entry) = Nat.min (S (length prev)) 200 /\
  last (push_history prev entry) = Some entry.
Proof.
  unfold keep_last_200, push_history.
  assert (Hdrop : drop (length prev - 199) (prev ++ [entry])
                  = drop (length prev - 199) prev ++ [entry]).
  { rewrite drop_app_le by lia. done. }
  split; [|split; [|split]].
  - rewrite length_app. cbn [length]. case_decide as H.
    + replace (length prev + 1 - 200)%nat with (length prev - 199)%nat by lia.
      done.
    + replace (length prev - 199)%nat with 0%nat by lia. done.
  - done.
  - rewrite length_app, length_drop. cbn [length]. lia.
  - by rewrite last_snoc.
Qed.

Lemma push_history_length {A} (prev : list A) (entry : A) :
  (length (push_history prev entry) <= 200)%nat.
Proof.
  unfold push_history. rewrite length_app, length_drop. cbn [length]. lia.
Qed.

Lemma animation_tick_inv (nLayers : nat) (inputs target : list number)
    (lr : number) (st : Scheduler) :
  (1 <= nLayers)%nat -> sched_inv nLayers st ->
  sched_inv nLayers (animation_tick nLayers inputs target lr st).
Proof.
  intros HL (Ha & Hh & He). unfold animation_tick, sched_inv.
  destruct (direction st) eqn:Hd.
  - rewrite Ha. change (-1 =? -1)%Z with true. cbv iota.
    destruct (Z.ltb_spec (-1 + 1) (Z.of_nat nLayers));
      cbn [direction activeLayer sched_sim lossHistory epochs epochRef];
      repeat split; try done; lia.
  - destruct (activeLayer st =? -1)%Z;
      destruct (Z.ltb_spec (activeLayer st + 1) (Z.of_nat nLayers));
      cbn [direction activeLayer sched_sim lossHistory epochs epochRef];
      repeat split; try done; lia.
  - destruct (Z.geb_spec (activeLayer st - 1) 0);
      [|destruct (_ <? CONVERGENCE)];
      cbn [direction activeLayer sched_sim lossHistory epochs epochRef];
      repeat split; try done; try lia; apply push_history_length.
  - cbn [direction activeLayer sched_sim]. repeat split; try done; lia.
Qed.

(** X12: in every state the animation scheduler reaches from rest, on a
    network of at least one layer that satisfies the dimension invariant
    and inputs of at most as many entries as the input layer has units:
    the active layer is a layer index from 0 to
    [nLayers - 1] in the forward and backward phases and [-1] in the
    phases NONE and UPDATING, so [isActiveLayer] holds of at most one
    layer, and of no layer outside those phases; the loss history holds at
    most 200 entries; and the displayed epoch count is the counter. *)
Theorem scheduler_invariant (ticks nLayers : nat)
    (inputs target : list number) (lr : number) (sim : Sim) :
  wf (network sim) ->
  (length inputs <= bound (layerSizes (network sim)) 0)%nat ->
  (1 <= nLayers)%nat ->
  (length (lossHistory sim) <= 200)%nat -> epochs sim = epochRef sim ->
  let st := stepped ticks nLayers inputs target lr (at_rest sim) in
  sched_inv nLayers st /\
  (forall lIdx, isActiveLayer st lIdx = true ->
     (0 <= lIdx < Z.of_nat nLayers)%Z /\ lIdx = activeLayer st /\
     (direction st = FORWARD \/ direction st = BACKWARD)).
Proof.
  intros _ _ HL Hh He st.
  assert (Hinv : sched_inv nLayers st).
  { subst st. assert (H0 : sched_inv nLayers (at_rest sim)) by done.
    revert H0. generalize (at_rest sim). clear Hh He.
    induction ticks as [|ticks IH]; intros s Hs; [done|]. cbn [stepped].
    destruct (isPlaying (sched_sim s)); [|done].
    by apply IH, animation_tick_inv. }
  split; [done|]. intros lIdx. unfold isActiveLayer.
  destruct Hinv as (Ha & _).
  destruct (direction st); cbn [andb]; try discriminate;
    destruct (Z.eqb_spec (activeLayer st) lIdx); try discriminate;
    intros _; subst lIdx; repeat split; try lia; auto.
Qed.

(** X13: how the animation starts and how it ends, on a network that
    satisfies the dimension invariant and inputs of at most as many
    entries as the input layer has units.  From rest, the first
    tick runs [forward] on the current inputs and enters the forward phase
    at layer 0.  A cycle whose training step brings the loss below the
    convergence threshold ends after [2 * nLayers] ticks: the network has
    been trained once more, the epoch counted and the loss recorded, the
    scheduler is at rest, playing has stopped and the optimized flag is
    set -- and no later tick changes anything. *)
Theorem stepped_start_and_stop (nLayers : nat) (inputs target : list number)
    (lr : number) (more : nat) (sim : Sim) :
  wf (network sim) ->
  (length inputs <= bound (layerSizes (network sim)) 0)%nat ->
  (1 <= nLayers)%nat -> isPlaying sim = true ->
  stepped 1 nLayers inputs target lr (at_rest sim)
  = pointing
      {| network := fst (forward (network sim) inputs);
         epochRef := epochRef sim; epochs := epochs sim;
         lossHistory := lossHistory sim; isPlaying := isPlaying sim;
         isOptimized := isOptimized sim |} FORWARD 0 /\
  ((updateVisuals (train (network sim) inputs target lr) target
    <? CONVERGENCE) = true ->
   stepped (2 * nLayers + more) nLayers inputs target lr
     (pointing sim FORWARD 0)
   = at_rest
       {| network := train (network sim) inputs target lr;
          epochRef := (epochRef sim + 1)%Z; epochs := (epochRef sim + 1)%Z;
          lossHistory :=
            push_history (lossHistory sim)
              ((epochRef sim + 1)%Z,
               updateVisuals (train (network sim) inputs target lr) target);
          isPlaying := false; isOptimized := true |}).
Proof.
  intros _ _ HL Hplay. split.
  - unfold at_rest. cbn [stepped sched_sim]. rewrite Hplay.
    unfold animation_tick. cbn [direction activeLayer sched_sim].
    change (-1 =? -1)%Z with true. cbv iota.
    change (-1 + 1)%Z with 0%Z.
    replace (0 <? Z.of_nat nLayers)%Z with true
      by (symmetry; apply Z.ltb_lt; lia).
    by rewrite Hplay.
  - intros Hloss.
    replace (2 * nLayers + more)%nat
      with ((2 * nLayers - 1) + (1 + more))%nat by lia.
    rewrite stepped_add, stepped_sweep by done.
    cbn [Nat.add stepped pointing sched_sim]. rewrite Hplay.
    fold (pointing sim BACKWARD 0). rewrite tick_train, Hloss.
    by rewrite stepped_paused.
Qed.

(** ** Architecture and activation edits *)

Lemma editable_lockstep (st : list LayerDim * list ActivationKey) :
  editable st -> length (fst st) = length (snd st).
Proof.
  induction 1 as [|st lIdx dKey delta _ IH|[dims acts] _ IH|[dims acts] _ IH];
    cbn [fst snd] in *.
  - done.
  - unfold modifyLayer. by rewrite length_alter.
  - unfold addLayer. case_decide; [|done]. cbn [fst snd].
    rewrite !length_app, !length_take, !length_drop. simpl. lia.
  - unfold removeLayer. case_decide; [|done]. cbn [fst snd].
    rewrite !length_delete by (apply lookup_lt_is_Some; lia). lia.
Qed.

(** X14: adding and removing a layer.  On between 2 and 9 layers with one
    activation key each, [addLayer] puts a 2 x 2 LeakyReLU layer just
    before the output layer and keeps every other layer and key in place,
    and [removeLayer] undoes it; at 10 layers [addLayer] changes nothing,
    and at 2 layers [removeLayer] changes nothing. *)
Theorem addLayer_removeLayer (dims : list LayerDim)
    (acts : list ActivationKey) :
  length acts = length dims ->
  ((2 <= length dims < 10)%nat ->
   let st' := addLayer (dims, acts) in
   length (fst st') = S (length dims) /\
   length (snd st') = S (length dims) /\
   (forall i, (i < length dims - 1)%nat ->
      fst st' !! i = dims !! i /\ snd st' !! i = acts !! i) /\
   fst st' !! (length dims - 1)%nat = Some {| rows := 2; cols := 2 |} /\
   snd st' !! (length dims - 1)%nat = Some LEAKY_RELU /\
   fst st' !! length dims = dims !! (length dims - 1)%nat /\
   snd st' !! length dims = acts !! (length dims - 1)%nat /\
   removeLayer st' = (dims, acts)) /\
  ((10 <= length dims)%nat -> addLayer (dims, acts) = (dims, acts)) /\
  ((length dims <= 2)%nat -> removeLayer (dims, acts) = (dims, acts)).
Proof.
  intros Hlen. split; [|split].
  - intros Hn st'. subst st'. unfold addLayer.
    rewrite decide_True by lia. cbn [fst snd]. rewrite Hlen.
    set (n := length dims) in *.
    assert (Ht : forall {A} (l : list A) (x : A), length l = n ->
              length (take (n - 1) l ++ [x] ++ drop (n - 1) l) = S n /\
              (forall i, (i < n - 1)%nat ->
                 (take (n - 1) l ++ [x] ++ drop (n - 1) l) !! i = l !! i) /\
              (take (n - 1) l ++ [x] ++ drop (n - 1) l) !! (n - 1)%nat
                = Some x /\
              (take (n - 1) l ++ [x] ++ drop (n - 1) l) !! n
                = l !! (n - 1)%nat /\
              delete (S n - 2)%nat (take (n - 1) l ++ [x] ++ drop (n - 1) l)
                = l).
    { intros A l x Hl.
      assert (Htl : length (take (n - 1) l) = (n - 1)%nat)
        by (rewrite length_take; lia).
      split; [|split; [|split; [|split]]].
      - rewrite !length_app, Htl, length_drop. simpl. lia.
      - intros i Hi. rewrite lookup_app_l by lia.
        by rewrite lookup_take_lt.
      - rewrite lookup_app_r by lia. by rewrite Htl, Nat.sub_diag.
      - rewrite lookup_app_r by lia. rewrite Htl.
        replace (n - (n - 1))%nat with 1%nat by lia. simpl.
        rewrite lookup_drop. f_equal. lia.
      - replace (S n - 2)%nat with (length (take (n - 1) l)) by lia.
        cbn [app]. rewrite delete_middle. apply take_drop. }
    destruct (Ht _ dims {| rows := 2; cols := 2 |} eq_refl)
      as (D1 & D2 & D3 & D4 & D5).
    destruct (Ht _ acts LEAKY_RELU Hlen) as (A1 & A2 & A3 & A4 & A5).
    split; [done|]. split; [done|].
    split; [intros i Hi; split; [by apply D2|by apply A2]|].
    do 4 (split; [done|]).
    unfold removeLayer. rewrite decide_True by lia.
    rewrite D1, A1, D5, A5. done.
  - intros Hn. unfold addLayer. by rewrite decide_False by lia.
  - intros Hn. unfold removeLayer. by rewrite decide_False by lia.
Qed.

Lemma cycleActivation_in_range (layerIdx : nat) (acts : list ActivationKey)
    (key : ActivationKey) :
  acts !! layerIdx = Some key ->
  cycleActivation layerIdx acts = Some (<[layerIdx := next_key key]> acts).
Proof.
  intros Hk. pose proof (lookup_lt_Some _ _ _ Hk) as Hlt.
  unfold cycleActivation. rewrite Hk. cbv zeta.
  rewrite decide_True by lia. f_equal.
  unfold array_set. rewrite decide_True by done.
  by destruct key.
Qed.

Lemma cycle_n_in_range (n layerIdx : nat) (acts : list ActivationKey)
    (key : ActivationKey) :
  acts !! layerIdx = Some key ->
  cycle_n n layerIdx acts
  = Some (<[layerIdx := Nat.iter n next_key key]> acts).
Proof.
  intros Hk. pose proof (lookup_lt_Some _ _ _ Hk) as Hlt.
  induction n as [|n IH].
  - cbn. by rewrite list_insert_id.
  - change (cycle_n (S n) layerIdx acts)
      with (cycle_n n layerIdx acts ≫= cycleActivation layerIdx).
    rewrite IH. cbn [mbind option_bind].
    rewrite (cycleActivation_in_range _ _ (Nat.iter n next_key key)).
    + by rewrite list_insert_insert_eq.
    + by apply list_lookup_insert_eq.
Qed.

(** X15: a click on the activation control of a layer replaces that
    layer's key by the next one in the order Sigmoid, Tanh, ReLU, L-ReLU,
    ELU, Sigmoid, and leaves the other layers' keys alone; five clicks
    bring the assignment back, and fewer do not. *)
Theorem cycleActivation_cycle (layerIdx : nat) (acts : list ActivationKey)
    (key : ActivationKey) :
  acts !! layerIdx = Some key ->
  cycleActivation layerIdx acts = Some (<[layerIdx := next_key key]> acts) /\
  cycle_n 5 layerIdx acts = Some acts /\
  (forall n, (0 < n < 5)%nat -> cycle_n n layerIdx acts <> Some acts).
Proof.
  intros Hk. split; [by apply cycleActivation_in_range|]. split.
  - rewrite (cycle_n_in_range _ _ _ key Hk).
    replace (Nat.iter 5 next_key key) with key by (by destruct key).
    by rewrite list_insert_id.
  - intros n Hn. rewrite (cycle_n_in_range _ _ _ key Hk). intros [= Heq].
    assert (Hl : <[layerIdx := Nat.iter n next_key key]> acts !! layerIdx
                 = Some (Nat.iter n next_key key)).
    { apply list_lookup_insert_eq. by eapply lookup_lt_Some. }
    rewrite Heq, Hk in Hl. injection Hl as Hl.
    destruct n as [|[|[|[|[|n]]]]]; try lia; destruct key; discriminate.
Qed.

Lemma sync_size_spec (v : list number) (sizes : list Z) (i : nat) (z : Z) :
  sizes !! i = Some z -> (1 <= z <= 64)%Z ->
  exists v', sync_size v (sizes !! i) = Ok v' /\
    length v' = bound sizes i /\
    (length v = bound sizes i -> v' = v) /\
    (length v <> bound sizes i -> v' = replicate (bound sizes i) (Num 0)).
Proof.
  intros Hz Hr. unfold sync_size, bound. rewrite Hz.
  cbn [default from_option id zeros_of].
  case_bool_decide as Hd.
  - injection Hd as Hd. exists v. split; [done|].
    split; [lia|]. split; [done|]. lia.
  - rewrite new_Array_fill0_Ok.
    2:{ unfold array_length. change (2 ^ 32)%Z with 4294967296%Z. lia. }
    eexists. split; [done|]. rewrite length_replicate.
    split; [done|]. split; [|done].
    intros Hl. destruct Hd. f_equal. lia.
Qed.

(** On an architecture the editing controls reach, [forward] on the new
    network raises exactly for an input longer than the input layer. *)
Lemma forward_raises_editable (net : SimpleNetwork) (inputs : list number) :
  wf net -> (2 <= length (layerSizes net))%nat ->
  Forall (fun s => (1 <= s <= 64)%Z) (layerSizes net) ->
  forward_raises net inputs
  = bool_decide (bound (layerSizes net) 0 < length inputs)%nat.
Proof.
  intros Hwf HL Hsizes. unfold forward_raises.
  assert (Hacts : existsb
            (fun i => bool_decide (activations net !! S i = None))
            (seq 0 (length (weights net))) = false).
  { apply not_true_is_false. intros (i & Hi & Hnone)%existsb_exists.
    apply in_seq in Hi.
    apply bool_decide_eq_true_1, lookup_ge_None in Hnone.
    rewrite (wf_weights _ Hwf) in Hi. rewrite (wf_activations _ Hwf) in Hnone.
    lia. }
  rewrite Hacts. cbn [orb].
  destruct (lookup_lt_is_Some_2 (weights net) 0
              ltac:(rewrite (wf_weights _ Hwf); lia)) as [m Hm].
  rewrite Hm. cbn [default from_option id].
  destruct (wf_weights_dims _ Hwf 0%nat m Hm) as [-> _].
  assert (H1 : (0 < bound (layerSizes net) 1)%nat).
  { destruct (lookup_lt_is_Some_2 (layerSizes net) 1 ltac:(lia)) as [z Hz].
    eapply Forall_lookup_1 in Hsizes; [|exact Hz]. unfold bound.
    rewrite Hz. cbn [default from_option id]. simpl in Hsizes. lia. }
  rewrite (proj2 (Nat.ltb_lt _ _) H1), andb_true_r.
  case_bool_decide; [by apply Nat.ltb_lt|by apply Nat.ltb_ge; lia].
Qed.

(** X16: every architecture the editing controls reach is initialised
    without error.  For the layer extents and activation keys after any
    sequence of edits, and any input and target vectors, the effect that
    follows builds a network that satisfies the dimension invariant for
    exactly those sizes and keys; leaves the input vector with as many
    entries as the input layer has units and the target vector with as
    many as the output layer -- the old vector where the length already
    fits, all zeros otherwise; and puts the scheduler at rest with epoch
    0, an empty loss history, not playing and not optimized.
    [resetSimulation] builds such a network too and runs [forward] on the
    inputs it is given: it returns, with a network that satisfies the
    dimension invariant, when they are at most as many as the input layer
    has units -- as the inputs the effect leaves are -- and raises a
    TypeError when they are more. *)
Theorem reinitialise_editable (st : list LayerDim * list ActivationKey)
    (n : nat) (inputs target : list number) :
  editable st ->
  let sizes := sizes_of (fst st) in
  let last := (length sizes - 1)%nat in
  exists net inputs' target',
    constructor n sizes (snd st) = Ok net /\
    initialize_network n (fst st) (snd st) inputs target
      = Ok (at_rest (fresh_sim net), inputs', target') /\
    wf net /\ layerSizes net = sizes /\ activations net = snd st /\
    length inputs' = bound sizes 0 /\
    (length inputs = bound sizes 0 -> inputs' = inputs) /\
    (length inputs <> bound sizes 0 ->
       inputs' = replicate (bound sizes 0) (Num 0)) /\
    length target' = bound sizes last /\
    (length target = bound sizes last -> target' = target) /\
    (length target <> bound sizes last ->
       target' = replicate (bound sizes last) (Num 0)) /\
    ((length inputs <= bound sizes 0)%nat ->
       resetSimulation n (fst st) (snd st) inputs
       = Returns (at_rest (fresh_sim (fst (forward net inputs)))) /\
       wf (fst (forward net inputs))) /\
    ((bound sizes 0 < length inputs)%nat ->
       resetSimulation n (fst st) (snd st) inputs = Throws_TypeError) /\
    resetSimulation n (fst st) (snd st) inputs'
    = Returns (at_rest (fresh_sim (fst (forward net inputs')))).
Proof.
  intros Hst sizes last.
  pose proof (editable_valid st Hst) as [Hlen Hall].
  pose proof (editable_lockstep st Hst) as Hlock.
  assert (Hsl : length sizes = length (fst st)).
  { unfold sizes, sizes_of. by rewrite length_map. }
  assert (Hsizes : Forall (fun s => (1 <= s <= 64)%Z) sizes).
  { unfold sizes, sizes_of. apply Forall_map.
    eapply Forall_impl; [exact Hall|]. intros d [Hr Hc]. simpl. nia. }
  destruct (proj2 (constructor_Ok_iff n sizes (snd st)))
    as (net & Hnet & Hs & Ha).
  { eapply Forall_impl; [exact Hsizes|]. intros s Hs. unfold array_length.
    change (2 ^ 32)%Z with 4294967296%Z. simpl in Hs. lia. }
  assert (Hwf : wf net).
  { eapply constructor_wf; [| |exact Hnet]; lia. }
  destruct (lookup_lt_is_Some_2 sizes 0 ltac:(lia)) as [z0 Hz0].
  destruct (lookup_lt_is_Some_2 sizes last ltac:(unfold last; lia))
    as [zl Hzl].
  destruct (sync_size_spec inputs sizes 0 z0 Hz0) as (inputs' & Hi & Hi1 & Hi2 & Hi3).
  { by eapply Forall_lookup_1 in Hsizes. }
  destruct (sync_size_spec target sizes last zl Hzl)
    as (target' & Ht & Ht1 & Ht2 & Ht3).
  { by eapply Forall_lookup_1 in Hsizes. }
  exists net, inputs', target'.
  split; [done|]. split.
  { unfold initialize_network. fold sizes. rewrite Hnet. cbn [bind].
    rewrite Hi. cbn [bind]. rewrite last_lookup.
    replace (pred (length sizes)) with last by (unfold last; lia).
    rewrite Ht. done. }
  do 9 (split; [done|]).
  assert (Hraise : forall v, forward_raises net v
                   = bool_decide (bound sizes 0 < length v)%nat).
  { intros v. rewrite <- Hs. apply forward_raises_editable; [done| |].
    - rewrite Hs, Hsl. lia.
    - by rewrite Hs. }
  assert (Hreset : forall v, (length v <= bound sizes 0)%nat ->
            resetSimulation n (fst st) (snd st) v
            = Returns (at_rest (fresh_sim (fst (forward net v))))).
  { intros v Hv. unfold resetSimulation. fold sizes. rewrite Hnet, Hraise.
    by rewrite bool_decide_eq_false_2 by lia. }
  split; [|split].
  - intros Hv. split; [by apply Hreset|by apply forward_wf].
  - intros Hv. unfold resetSimulation. fold sizes. rewrite Hnet, Hraise.
    by rewrite bool_decide_eq_true_2.
  - apply Hreset. lia.
Qed.

(** ** The interaction controller *)

(** [Math.max(lo, Math.min(hi, x))] of anything but NaN lies in
    [[lo, hi]]. *)
Lemma clamp_between (lo hi : Q) (x : number) :
  (lo <= hi)%Q -> isNaN x = false ->
  between (Num lo) (Num hi) (Math_max (Num lo) (Math_min (Num hi) x)).
Proof.
  intros Hlh Hx. destruct x as [|s|q]; [discriminate| |].
  - destruct s.
    + change (Math_max (Num lo) (Math_min (Num hi) (Inf true)))
        with (Num lo).
      apply between_intro; lra.
    + change (Math_max (Num lo) (Math_min (Num hi) (Inf false)))
        with (if Qltb lo hi then Num hi else Num lo).
      destruct (Qltb lo hi); apply between_intro; lra.
  - change (Math_min (Num hi) (Num q))
      with (if Qltb q hi then Num q else Num hi).
    destruct (Qltb q hi) eqn:E1.
    + apply Qltb_spec in E1.
      change (Math_max (Num lo) (Num q))
        with (if Qltb lo q then Num q else Num lo).
      destruct (Qltb lo q) eqn:E2.
      * apply Qltb_spec in E2. apply between_intro; lra.
      * apply between_intro; lra.
    + change (Math_max (Num lo) (Num hi))
        with (if Qltb lo hi then Num hi else Num lo).
      destruct (Qltb lo hi); apply between_intro; lra.
Qed.

Lemma Math_max_0 (x : number) :
  finite x ->
  (lit 0 <=? Math_max (lit 0) x) = true /\ finite (Math_max (lit 0) x).
Proof.
  intros Hx. destruct x as [| |q]; try discriminate.
  change (lit 0) with (Num 0).
  change (Math_max (Num 0) (Num q)) with (if Qltb 0 q then Num q else Num 0).
  destruct (Qltb 0 q) eqn:E; [|done].
  apply Qltb_spec in E. split; [|done]. cbn [JS.le JS.lt].
  rewrite negb_true_iff. apply Qltb_false. lra.
Qed.

Ltac ui_simpl :=
  unfold ui_inv;
  cbn [ui_cameraAngle ui_viewScale ui_viewOffset ui_isOrtho lossGraphPos
       viewSettingsPos isDraggingCanvasRef draggingUIRef lastMouseRef
       cam_h cam_v off_x off_y pt_x pt_y offsetX offsetY drag_id].

Lemma pitch_clamp (x : number) :
  finite x ->
  between (lit (-90)) (lit 90) (Math_max (lit (-90)) (Math_min (lit 90) x)).
Proof.
  intros Hx. unfold lit.
  apply clamp_between; [rewrite !Qred_correct; lra|].
  by apply isFinite_not_NaN.
Qed.

Lemma zoom_clamp (x : number) :
  finite x ->
  between (lit 0.05) (lit 5) (Math_max (lit 0.05) (Math_min (lit 5) x)).
Proof.
  intros Hx. unfold lit.
  apply clamp_between; [rewrite !Qred_correct; lra|].
  by apply isFinite_not_NaN.
Qed.

Lemma handle_inv (ui : UI) (e : Event) :
  event_finite e -> ui_inv ui -> ui_inv (handle ui e).
Proof.
  intros He (Hv & Hs & Hlx & Hly & Hsx & Hsy & Fh & Fox & Foy & Flx & Fly
             & Fsx & Fsy & Fmx & Fmy & Hd).
  assert (Fv : finite (cam_v (ui_cameraAngle ui))).
  { unfold lit in Hv. by eapply between_finite. }
  assert (Fs : finite (ui_viewScale ui)).
  { unfold lit in Hs. by eapply between_finite. }
  assert (Fhalf : forall d, finite d -> finite (d * lit 0.5)).
  { intros d Fd. apply isFinite_mul; [done|apply isFinite_lit]. }
  destruct e as [id x y l t|x y|x y b| |d|a| |]; cbn [handle event_finite] in *.
  - destruct He as (Hx & Hy & Hl & Ht).
    unfold handleStartUIDrag. ui_simpl.
    split_and!; try done; by apply isFinite_sub.
  - destruct He as (Hx & Hy). unfold handleMouseDownCanvas. ui_simpl.
    split_and!; done.
  - destruct He as (Hx & Hy). unfold handleMouseMove.
    destruct (draggingUIRef ui) as [dr|] eqn:Edr.
    + destruct Hd as [Hox Hoy].
      destruct (Math_max_0 (x - offsetX dr)) as [Px Qx];
        [by apply isFinite_sub|].
      destruct (Math_max_0 (y - offsetY dr)) as [Py Qy];
        [by apply isFinite_sub|].
      ui_simpl.
      destruct (drag_id dr); ui_simpl; split_and!; done.
    + destruct (isDraggingCanvasRef ui); cbn [negb].
      2:{ ui_simpl. rewrite Edr. split_and!; done. }
      assert (Fdx : finite (x - pt_x (lastMouseRef ui)))
        by (by apply isFinite_sub).
      assert (Fdy : finite (y - pt_y (lastMouseRef ui)))
        by (by apply isFinite_sub).
      ui_simpl.
      destruct (b =? 1)%Z; [|destruct ((b =? 2)%Z || (b =? 3)%Z)]; ui_simpl;
        split_and!; try done; try (by apply isFinite_add).
      * apply pitch_clamp. apply isFinite_add; [done|by apply Fhalf].
      * apply isFinite_add; [done|by apply Fhalf].
  - unfold handleMouseUp. ui_simpl. split_and!; done.
  - unfold handleWheel. ui_simpl. split_and!; try done.
    apply zoom_clamp. apply isFinite_sub; [done|].
    apply isFinite_mul; [done|apply isFinite_lit].
  - unfold handleAxisClick. destruct (_ && _); unfold set_view; ui_simpl.
    + split_and!; done.
    + destruct a; cbn [axis_view cam_h cam_v]; split_and!; try done;
        by vm_compute.
  - unfold set_view. ui_simpl. split_and!; try done; by vm_compute.
  - unfold set_view. ui_simpl. split_and!; done.
Qed.

(** X17: the ranges the interaction controller keeps.  After any sequence
    of pointer events with finite coordinates -- panel drags, canvas drags
    with any buttons, wheel turns, clicks on the axis gizmo and on the
    projection button -- the pitch lies within [-90, 90] degrees, the zoom
    within [0.05, 5], and both draggable panels sit at non-negative
    coordinates. *)
Theorem interaction_ranges (events : list Event) :
  Forall event_finite events ->
  let ui := foldl handle initial_ui events in
  between (lit (-90)) (lit 90) (cam_v (ui_cameraAngle ui)) /\
  between (lit 0.05) (lit 5) (ui_viewScale ui) /\
  (lit 0 <=? pt_x (lossGraphPos ui)) = true /\
  (lit 0 <=? pt_y (lossGraphPos ui)) = true /\
  (lit 0 <=? pt_x (viewSettingsPos ui)) = true /\
  (lit 0 <=? pt_y (viewSettingsPos ui)) = true.
Proof.
  intros Hev ui.
  assert (H : ui_inv ui).
  { subst ui. assert (H0 : ui_inv initial_ui).
    { unfold initial_ui. ui_simpl. split_and!; by vm_compute. }
    revert H0. generalize initial_ui.
    induction Hev as [|e events He _ IH]; intros u Hu; [done|].
    cbn [foldl]. by apply IH, handle_inv. }
  destruct H as (?&?&?&?&?&?&_). done.
Qed.

(** X18: the axis gizmo.  A click on an axis whose view the camera does not
    already have turns the camera to that view, in perspective; a second
    click on the same axis switches to the orthographic projection without
    moving the camera, and a third switches back.  Dragging the canvas
    with the left button always leaves the orthographic projection. *)
Theorem axis_click_twice (a : Axis) (ui : UI) :
  (Math_abs (cam_h (ui_cameraAngle ui) - cam_h (axis_view a)) <? lit 0.1)
  && (Math_abs (cam_v (ui_cameraAngle ui) - cam_v (axis_view a)) <? lit 0.1)
  = false ->
  let ui1 := handleAxisClick (axis_view a) ui in
  let ui2 := handleAxisClick (axis_view a) ui1 in
  let ui3 := handleAxisClick (axis_view a) ui2 in
  ui1 = set_view (axis_view a) false ui /\
  ui2 = set_view (axis_view a) true ui /\
  ui3 = set_view (axis_view a) false ui /\
  forall x y, draggingUIRef ui2 = None -> isDraggingCanvasRef ui2 = true ->
    ui_isOrtho (handleMouseMove x y 1 ui2) = false.
Proof.
  intros Hne ui1 ui2 ui3.
  assert (H1 : ui1 = set_view (axis_view a) false ui).
  { subst ui1. unfold handleAxisClick. by rewrite Hne. }
  assert (Hsame : forall o,
            handleAxisClick (axis_view a) (set_view (axis_view a) o ui)
            = set_view (axis_view a) (negb o) ui).
  { intros o. unfold handleAxisClick, set_view.
    cbn [ui_cameraAngle ui_isOrtho ui_viewScale ui_viewOffset lossGraphPos
         viewSettingsPos isDraggingCanvasRef draggingUIRef lastMouseRef].
    by destruct a. }
  assert (H2 : ui2 = set_view (axis_view a) true ui).
  { subst ui2. by rewrite H1, Hsame. }
  assert (H3 : ui3 = set_view (axis_view a) false ui).
  { subst ui3. by rewrite H2, Hsame. }
  split; [done|]. split; [done|]. split; [done|].
  intros x y Hd Hc. unfold handleMouseMove. rewrite Hd, Hc. done.
Qed.

Section ActivationPlot.

Hypothesis Math_exp_nonneg :
  forall x, isFinite x = true -> (lit 0 <=? Math_exp x) = true.
Hypothesis Math_exp_neg_le_1 :
  forall x, isFinite x = true -> (x <? lit 0) = true ->
    (Math_exp x <=? lit 1) = true.
Hypothesis Math_tanh_finite :
  forall x, isFinite x = true -> isFinite (Math_tanh x) = true.

Lemma scaled_between (c w : Q) :
  (0 <= c)%Q -> (c <= 1)%Q -> (0 <= w)%Q ->
  (0 <= c * w)%Q /\ (c * w <= w)%Q.
Proof. intros. split; nra. Qed.

(** X19: the marker of an activation control's mini-plot never leaves
    the plot.  Whatever the layer's pre-activations -- none at all, or
    any numbers, finite or not -- the marker that [getActivationVisual]
    places for their average lies between 0 and the width horizontally
    and between 0 and the height vertically. *)
Theorem activation_marker_in_plot (key : ActivationKey)
    (layerPreActs : list number) (width height : Q) :
  (0 <= width)%Q -> (0 <= height)%Q ->
  let '(dotX, dotY) :=
    getActivationVisual key (avgPreAct layerPreActs)
      (Num width) (Num height) in
  between (Num 0) (Num width) dotX /\ between (Num 0) (Num height) dotY.
Proof.
  intros Hw Hh. unfold getActivationVisual.
  pose proof (finite_or_0_isFinite (avgPreAct layerPreActs)) as Fa.
  set (avg := finite_or_0 (avgPreAct layerPreActs)) in *.
  split.
  - destruct (between_inv (-3) 3 (Math_max (- lit 3) (Math_min (lit 3) avg)))
      as (c & -> & Hc1 & Hc2).
    { change (- lit 3) with (Num (-3)%Q). change (lit 3) with (Num 3).
      apply clamp_between; [lra|]. by apply isFinite_not_NaN. }
    change (lit 3 * lit 2) with (Num 6). change (lit 3) with (Num 3).
    cbn [add div mul]. change (Qis_zero 6) with false. cbv iota.
    apply between_intro; rewrite !Qred_correct.
    + apply (scaled_between ((c + 3) / 6) width); [| |done].
      * apply Qle_shift_div_l; lra.
      * apply Qle_shift_div_r; lra.
    + apply (scaled_between ((c + 3) / 6) width); [| |done].
      * apply Qle_shift_div_l; lra.
      * apply Qle_shift_div_r; lra.
  - pose proof (func_isFinite Math_exp_nonneg Math_exp_neg_le_1
                  Math_tanh_finite key avg Fa) as Fy.
    destruct (func (ACTIVATION_FUNCTIONS key) avg) as [| |y];
      try discriminate.
    assert (Hn : exists yn,
              match key with
              | SIGMOID => Num y
              | TANH => (Num y + lit 1) / lit 2
              | _ => (Num y + lit 1) / lit 3
              end = Num yn).
    { destruct key; by eexists. }
    destruct Hn as [yn ->].
    destruct (between_inv 0 1 (Math_max (lit 0) (Math_min (lit 1) (Num yn))))
      as (c & -> & Hc1 & Hc2).
    { change (lit 0) with (Num 0). change (lit 1) with (Num 1).
      by apply clamp_between; [lra|]. }
    cbn [mul sub].
    destruct (scaled_between c height Hc1 Hc2 Hh) as [S1 S2].
    apply between_intro; rewrite !Qred_correct; lra.
Qed.

End ActivationPlot.

(** ** The scene builder: which items a scene holds, and their order *)

Lemma sort_insert_Permutation {A} (compare : A -> A -> number) (x : A)
    (l : list A) :
  sort_insert compare x l ≡ₚ x :: l.
Proof.
  induction l as [|y l IH]; cbn [sort_insert]; [done|].
  destruct (compare y x >? lit 0); [done|].
  rewrite IH. apply Permutation_swap.
Qed.

Lemma Array_sort_Permutation {A} (compare : A -> A -> number) (l : list A) :
  Array_sort compare l ≡ₚ l.
Proof.
  unfold Array_sort.
  assert (H : forall acc,
            foldl (fun sorted x => sort_insert compare x sorted) acc l
            ≡ₚ acc ++ l).
  { induction l as [|x l IH]; intros acc; cbn [foldl].
    - by rewrite app_nil_r.
    - rewrite IH, sort_insert_Permutation. cbn [app].
      apply Permutation_middle. }
  apply (H []).
Qed.

Lemma count_kind_app (k : Kind) (l : nat) (xs ys : list RenderItem) :
  count_kind k l (xs ++ ys) = (count_kind k l xs + count_kind k l ys)%nat.
Proof. unfold count_kind. by rewrite filter_app, length_app. Qed.

Lemma count_kind_Permutation (k : Kind) (l : nat) (xs ys : list RenderItem) :
  xs ≡ₚ ys -> count_kind k l xs = count_kind k l ys.
Proof. intros H. unfold count_kind. by rewrite H. Qed.

Lemma count_kind_flat_map {A} (k : Kind) (l : nat) (f : A -> list RenderItem)
    (xs : list A) :
  count_kind k l (flat_map f xs)
  = sum_list (map (fun x => count_kind k l (f x)) xs).
Proof.
  induction xs as [|x xs IH]; [done|]. cbn [flat_map map sum_list].
  by rewrite count_kind_app, IH.
Qed.

Lemma count_kind_grid (k : Kind) (l : nat) (dim : LayerDim)
    (body : nat -> nat -> list RenderItem) :
  count_kind k l (grid dim body)
  = sum_list (map (fun r =>
                sum_list (map (fun c => count_kind k l (body r c))
                              (seq 0 (Z.to_nat (cols dim)))))
              (seq 0 (Z.to_nat (rows dim)))).
Proof.
  unfold grid. rewrite count_kind_flat_map. f_equal.
  apply map_ext. intros r. apply count_kind_flat_map.
Qed.

(** The sum of a function that vanishes everywhere but at [a]. *)
Lemma sum_list_single (f : nat -> nat) (a s n : nat) :
  (forall i, i <> a -> f i = 0%nat) ->
  sum_list (map f (seq s n))
  = if decide (s <= a < s + n)%nat then f a else 0%nat.
Proof.
  intros Hf. revert s. induction n as [|n IH]; intros s.
  { cbn. case_decide; [lia|done]. }
  cbn [seq map sum_list]. unfold id. rewrite IH.
  destruct (decide (s = a)) as [->|Hne].
  - rewrite decide_False by lia. rewrite decide_True by lia. lia.
  - rewrite (Hf s Hne).
    destruct (decide (S s <= a < S s + n)%nat);
      [rewrite decide_True by lia|rewrite decide_False by lia]; lia.
Qed.

Lemma sum_list_zero {A} (f : A -> nat) (xs : list A) :
  (forall x, f x = 0%nat) -> sum_list (map f xs) = 0%nat.
Proof.
  intros Hf. induction xs as [|x xs IH]; [done|]. cbn. by rewrite Hf, IH.
Qed.

Lemma sum_list_const {A} (k : nat) (xs : list A) :
  sum_list (map (fun _ => k) xs) = (length xs * k)%nat.
Proof. induction xs as [|x xs IH]; [done|]. cbn. rewrite IH. lia. Qed.

Lemma count_kind_concat_imap {A} (k : Kind) (l : nat)
    (f : nat -> A -> list RenderItem) (xs : list A) :
  count_kind k l (concat (imap f xs))
  = sum_list (imap (fun i x => count_kind k l (f i x)) xs).
Proof.
  revert f. induction xs as [|x xs IH]; intros f; [done|].
  rewrite !imap_cons. cbn [concat sum_list]. rewrite count_kind_app.
  by rewrite IH.
Qed.

(** The sum over a list of a function that vanishes everywhere but at
    index [a]. *)
Lemma sum_imap_single {A} (g : nat -> A -> nat) (a : nat) (xs : list A) :
  (forall i x, xs !! i = Some x -> i <> a -> g i x = 0%nat) ->
  sum_list (imap g xs)
  = match xs !! a with Some x => g a x | None => 0%nat end.
Proof.
  revert g a. induction xs as [|x xs IH]; intros g a Hg; [done|].
  rewrite imap_cons. cbn [sum_list]. destruct a as [|a].
  - cbn [lookup list_lookup]. rewrite (IH (g ∘ S) 0%nat).
    + destruct xs as [|y ys]; cbn; [lia|].
      unfold compose. rewrite (Hg 1%nat y eq_refl); lia.
    + intros i y Hy Hi. unfold compose.
      destruct i as [|i]; [done|]. apply (Hg (S (S i)) y Hy). lia.
  - rewrite (Hg 0%nat x eq_refl) by lia. cbn [lookup list_lookup Nat.add].
    rewrite (IH (g ∘ S) a); [done|].
    intros i y Hy Hi. unfold compose. apply (Hg (S i) y Hy). lia.
Qed.

Lemma count_kind_nil (k : Kind) (l : nat) : count_kind k l [] = 0%nat.
Proof. done. Qed.

Lemma count_kind_single (k : Kind) (l : nat) (x : RenderItem) :
  count_kind k l [x] = if decide (item_kind x = (k, l)) then 1%nat else 0%nat.
Proof.
  unfold count_kind. rewrite filter_cons. by case_decide.
Qed.

(** The items pushed for one unit, by kind. *)
Lemma count_node_items (k : Kind) (l : nat) (vw : View) (stats : DisplayStats)
    (lIdx : nat) (dim : LayerDim) (r c : nat) :
  count_kind k l (node_items vw stats lIdx dim r c)
  = if decide (lIdx = l) then
      match k with
      | K_NODE => 1%nat
      | K_LAYER_CONTROL =>
          if bool_decide (Z.of_nat r = (rows dim - 1)%Z)
             && bool_decide (Z.of_nat c = (cols dim / 2)%Z)
          then 1%nat else 0%nat
      | K_ACTIVATION_CONTROL =>
          if negb (bool_decide (lIdx = 0%nat))
             && negb (bool_decide (lIdx = (length (layerDims vw) - 1)%nat))
             && bool_decide (r = 0%nat)
             && bool_decide (Z.of_nat c = (cols dim / 2)%Z)
          then 1%nat else 0%nat
      | K_LINK => 0%nat
      end
    else 0%nat.
Proof.
  unfold node_items. cbv zeta. rewrite !count_kind_app.
  set (A := bool_decide (Z.of_nat r = (rows dim - 1)%Z) && _).
  set (B := negb _ && _ && _ && _).
  rewrite count_kind_single.
  replace (count_kind k l (if A then _ else []))
    with (if A then if decide ((K_LAYER_CONTROL, lIdx) = (k, l))
                    then 1%nat else 0%nat else 0%nat)
    by (destruct A; [by rewrite count_kind_single|done]).
  replace (count_kind k l (if B then _ else []))
    with (if B then if decide ((K_ACTIVATION_CONTROL, lIdx) = (k, l))
                    then 1%nat else 0%nat else 0%nat)
    by (destruct B; [by rewrite count_kind_single|done]).
  cbn [item_kind].
  destruct (decide (lIdx = l)) as [->|Hne].
  - destruct k; destruct A, B;
      repeat (first [rewrite decide_True by done
                    |rewrite decide_False by done]); done.
  - destruct A, B;
      repeat (rewrite decide_False by (intros [= ? ?]; done)); done.
Qed.

Lemma count_link_items (k : Kind) (l : nat) (vw : View) (stats : DisplayStats)
    (lIdx : nat) (layerWeights : list (list number)) :
  count_kind k l (link_items vw stats lIdx layerWeights)
  = if decide ((K_LINK, lIdx) = (k, l)) then
      match layerDims vw !! lIdx, layerDims vw !! S lIdx with
      | Some fromDim, Some toDim => (units fromDim * units toDim)%nat
      | _, _ => 0%nat
      end
    else 0%nat.
Proof.
  unfold link_items.
  destruct (layerDims vw !! lIdx) as [fromDim|]; [|by case_decide].
  destruct (layerDims vw !! S lIdx) as [toDim|]; [|by case_decide].
  rewrite count_kind_grid.
  erewrite map_ext.
  2:{ intros r1. erewrite map_ext.
      2:{ intros c1. rewrite count_kind_grid.
          erewrite map_ext.
          2:{ intros r2. erewrite map_ext.
              2:{ intros c2. rewrite count_kind_single. cbn [item_kind].
                  reflexivity. }
              rewrite sum_list_const, length_seq. reflexivity. }
          rewrite sum_list_const, length_seq. reflexivity. }
      rewrite sum_list_const, length_seq. reflexivity. }
  rewrite sum_list_const, length_seq. unfold units.
  case_decide; lia.
Qed.

Lemma count_layer_nodes (k : Kind) (vw : View) (stats : DisplayStats)
    (l : nat) (dim : LayerDim) :
  (l < length (layerDims vw))%nat ->
  (1 <= rows dim)%Z -> (1 <= cols dim)%Z ->
  count_kind k l (grid dim (node_items vw stats l dim))
  = match k with
    | K_NODE => units dim
    | K_LAYER_CONTROL => 1%nat
    | K_ACTIVATION_CONTROL =>
        if decide (0 < l < length (layerDims vw) - 1)%nat
        then 1%nat else 0%nat
    | K_LINK => 0%nat
    end.
Proof.
  intros Hl Hr Hc. rewrite count_kind_grid.
  set (mid := Z.to_nat (cols dim / 2)).
  assert (Hmid : (mid < Z.to_nat (cols dim))%nat).
  { unfold mid. apply Z2Nat.inj_lt; [apply Z.div_pos; lia|lia|].
    apply Z.div_lt; lia. }
  assert (Hmid' : forall c, c <> mid ->
            bool_decide (Z.of_nat c = (cols dim / 2)%Z) = false).
  { intros c Hne. apply bool_decide_eq_false. intros Heq.
    apply Hne. unfold mid. rewrite <- Heq. by rewrite Nat2Z.id. }
  assert (Hmid'' : bool_decide (Z.of_nat mid = (cols dim / 2)%Z) = true).
  { apply bool_decide_eq_true. unfold mid. rewrite Z2Nat.id; [done|].
    apply Z.div_pos; lia. }
  destruct k.
  - erewrite map_ext.
    2:{ intros r. erewrite map_ext.
        2:{ intros c. rewrite count_node_items, decide_True by done.
            reflexivity. }
        rewrite sum_list_const, length_seq. reflexivity. }
    rewrite sum_list_const, length_seq. unfold units. lia.
  - erewrite map_ext.
    2:{ intros r. erewrite map_ext.
        2:{ intros c. rewrite count_node_items, decide_True by done.
            reflexivity. }
        rewrite (sum_list_single _ mid).
        2:{ intros c Hne. by rewrite (Hmid' c Hne), andb_false_r. }
        rewrite decide_True by lia. rewrite Hmid'', andb_true_r.
        reflexivity. }
    rewrite (sum_list_single _ (Z.to_nat (rows dim - 1))).
    2:{ intros r Hne. rewrite bool_decide_eq_false_2; [done|]. lia. }
    rewrite decide_True by lia. rewrite bool_decide_eq_true_2; [done|]. lia.
  - erewrite map_ext.
    2:{ intros r. erewrite map_ext.
        2:{ intros c. rewrite count_node_items, decide_True by done.
            reflexivity. }
        rewrite (sum_list_single _ mid).
        2:{ intros c Hne. by rewrite (Hmid' c Hne), andb_false_r. }
        rewrite decide_True by lia. rewrite Hmid'', andb_true_r.
        reflexivity. }
    rewrite (sum_list_single _ 0%nat).
    2:{ intros r Hne. rewrite (bool_decide_eq_false_2 (r = 0%nat)) by done.
        by rewrite andb_false_r. }
    rewrite decide_True by lia.
    rewrite (bool_decide_eq_true_2 (0%nat = 0%nat)) by done.
    rewrite andb_true_r.
    destruct (decide (0 < l < length (layerDims vw) - 1)%nat) as [H|H].
    + rewrite !bool_decide_eq_false_2 by lia. done.
    + destruct (decide (l = 0%nat)) as [->|H0].
      * by rewrite bool_decide_eq_true_2.
      * rewrite (bool_decide_eq_false_2 (l = 0%nat)) by done.
        destruct (decide (l = (length (layerDims vw) - 1)%nat)) as [E|E].
        -- rewrite bool_decide_eq_true_2 by done. done.
        -- lia.
  - erewrite map_ext.
    2:{ intros r. erewrite map_ext.
        2:{ intros c. rewrite count_node_items, decide_True by done.
            reflexivity. }
        rewrite sum_list_zero by done. reflexivity. }
    by rewrite sum_list_zero.
Qed.

(** X20: the items of a scene.  For an architecture within the limits of
    the editing controls and a non-empty snapshot, the render list holds,
    for every layer: one node per unit; exactly one layer control; exactly
    one activation control if the layer is hidden and none if it is the
    input or the output layer; and, if the snapshot has a weight matrix for
    the layer and a next layer exists, one link for every pair of a unit
    of the layer and a unit of the next, and no link otherwise.  Sorting
    neither drops nor duplicates an item. *)
Theorem scene_items (vw : View) (stats : DisplayStats) (l : nat)
    (dim : LayerDim) :
  dims_valid (layerDims vw) -> ds_values stats <> [] ->
  layerDims vw !! l = Some dim ->
  let items := renderItems vw stats in
  count_kind K_NODE l items = units dim /\
  count_kind K_LAYER_CONTROL l items = 1%nat /\
  count_kind K_ACTIVATION_CONTROL l items
    = (if decide (0 < l < length (layerDims vw) - 1)%nat
       then 1%nat else 0%nat) /\
  count_kind K_LINK l items
    = match ds_weights stats !! l, layerDims vw !! S l with
      | Some _, Some next => (units dim * units next)%nat
      | _, _ => 0%nat
      end.
Proof.
  intros [_ Hall] Hne Hdim items.
  pose proof (lookup_lt_Some _ _ _ Hdim) as Hl.
  eapply Forall_lookup_1 in Hall; [|exact Hdim]. destruct Hall as [Hr Hc].
  assert (Hcount : forall k,
            count_kind k l items
            = (match k with
               | K_NODE => units dim
               | K_LAYER_CONTROL => 1
               | K_ACTIVATION_CONTROL =>
                   if decide (0 < l < length (layerDims vw) - 1)%nat
                   then 1 else 0
               | K_LINK => 0
               end
               + match ds_weights stats !! l with
                 | Some w => count_kind k l (link_items vw stats l w)
                 | None => 0
                 end)%nat).
  { intros k. subst items. unfold renderItems.
    rewrite decide_False by (by destruct (ds_values stats)).
    rewrite (count_kind_Permutation _ _ _ _ (Array_sort_Permutation _ _)).
    rewrite count_kind_app, !count_kind_concat_imap. f_equal.
    - rewrite (sum_imap_single _ l).
      + rewrite Hdim. cbv beta iota. apply count_layer_nodes; [done|lia|lia].
      + intros i x _ Hi. rewrite count_kind_grid.
        apply sum_list_zero. intros r. apply sum_list_zero. intros c.
        rewrite count_node_items. by rewrite decide_False.
    - rewrite (sum_imap_single _ l); [done|].
      intros i w _ Hi. rewrite count_link_items.
      rewrite decide_False; [done|]. intros [= ? ?]. done. }
  rewrite !Hcount.
  destruct (ds_weights stats !! l) as [w|]; [|repeat split; lia].
  rewrite !count_link_items, Hdim.
  split_and!; repeat case_decide; simplify_eq; try lia;
    destruct (layerDims vw !! S l); lia.
Qed.

Lemma Forall2_flat_map_same {A B} (R : B -> B -> Prop) (f g : A -> list B)
    (xs : list A) :
  (forall x, Forall2 R (f x) (g x)) ->
  Forall2 R (flat_map f xs) (flat_map g xs).
Proof.
  intros H. induction xs as [|x xs IH]; [constructor|].
  cbn [flat_map]. by apply Forall2_app.
Qed.

Lemma Forall2_concat_imap_same {A B} (R : B -> B -> Prop)
    (f g : nat -> A -> list B) (xs : list A) :
  (forall i x, Forall2 R (f i x) (g i x)) ->
  Forall2 R (concat (imap f xs)) (concat (imap g xs)).
Proof.
  revert f g. induction xs as [|x xs IH]; intros f g H; [constructor|].
  rewrite !imap_cons. cbn [concat]. apply Forall2_app; [apply H|].
  apply IH. intros i y. apply H.
Qed.

Lemma sort_insert_same (x x' : RenderItem) (l l' : list RenderItem) :
  same_item x x' -> Forall2 same_item l l' ->
  Forall2 same_item (sort_insert by_depth x l) (sort_insert by_depth x' l').
Proof.
  intros Hx Hl. induction Hl as [|y y' l l' Hy Hl IH]; cbn [sort_insert].
  - constructor; [done|constructor].
  - unfold by_depth at 1 3.
    rewrite (proj2 Hx), (proj2 Hy).
    destruct (_ >? lit 0).
    + constructor; [done|]. by constructor.
    + by constructor.
Qed.

Lemma Array_sort_same (l l' : list RenderItem) :
  Forall2 same_item l l' ->
  Forall2 same_item (Array_sort by_depth l) (Array_sort by_depth l').
Proof.
  unfold Array_sort.
  assert (H : forall acc acc', Forall2 same_item acc acc' ->
            Forall2 same_item l l' ->
            Forall2 same_item
              (foldl (fun sorted x => sort_insert by_depth x sorted) acc l)
              (foldl (fun sorted x => sort_insert by_depth x sorted) acc' l')).
  { intros acc acc' Hacc Hl. revert acc acc' Hacc.
    induction Hl as [|x x' l l' Hx Hl IH]; intros acc acc' Hacc; [done|].
    cbn [foldl]. apply IH. by apply sort_insert_same. }
  intros Hl. apply H; [constructor|done].
Qed.

Lemma rotate3D_view (vw vw' : View) (l r c : nat) :
  layerDims vw = layerDims vw' -> cameraAngle vw = cameraAngle vw' ->
  rotate3D vw l r c = rotate3D vw' l r c.
Proof. intros Hd Hc. unfold rotate3D. by rewrite Hd, Hc. Qed.

Lemma project3D_depth_view (vw vw' : View) (l r c : nat) :
  layerDims vw = layerDims vw' -> cameraAngle vw = cameraAngle vw' ->
  pos_depth (project3D vw l r c) = pos_depth (project3D vw' l r c).
Proof.
  intros Hd Hc. rewrite !project3D_depth. by rewrite (rotate3D_view vw vw').
Qed.

(** X21: the drawing order does not depend on the zoom, the pan offset or
    the projection mode.  Two views of the same layout from the same
    camera angles produce the same sequence of items -- the same types and
    indices at the same depths, in the same order -- whatever their zoom,
    pan and projection mode. *)
Theorem drawing_order_view_independent (vw vw' : View)
    (stats : DisplayStats) :
  layerDims vw = layerDims vw' -> cameraAngle vw = cameraAngle vw' ->
  map item_key (renderItems vw stats) = map item_key (renderItems vw' stats)
  /\ map item_depth (renderItems vw stats)
     = map item_depth (renderItems vw' stats).
Proof.
  intros Hd Hc.
  assert (H : Forall2 same_item (renderItems vw stats)
                (renderItems vw' stats)).
  { unfold renderItems. case_decide; [constructor|].
    apply Array_sort_same, Forall2_app.
    - rewrite <- Hd. apply Forall2_concat_imap_same. intros lIdx dim.
      unfold grid. apply Forall2_flat_map_same. intros r.
      apply Forall2_flat_map_same. intros c.
      unfold node_items. cbv zeta. rewrite <- Hd.
      pose proof (project3D_depth_view vw vw' lIdx r c Hd Hc) as Hp.
      repeat apply Forall2_app.
      + repeat constructor. done.
      + destruct (_ && _); repeat constructor. cbn [item_depth].
        by rewrite Hp.
      + destruct (_ && _); repeat constructor. cbn [item_depth].
        by rewrite Hp.
    - apply Forall2_concat_imap_same. intros lIdx w.
      unfold link_items. rewrite <- Hd.
      destruct (layerDims vw !! lIdx) as [fromDim|]; [|constructor].
      destruct (layerDims vw !! S lIdx) as [toDim|]; [|constructor].
      unfold grid. apply Forall2_flat_map_same. intros r1.
      apply Forall2_flat_map_same. intros c1.
      apply Forall2_flat_map_same. intros r2.
      apply Forall2_flat_map_same. intros c2.
      repeat constructor. cbn [item_depth].
      by rewrite (project3D_depth_view vw vw' lIdx r1 c1 Hd Hc),
                 (project3D_depth_view vw vw' (S lIdx) r2 c2 Hd Hc). }
  split.
  - induction H as [|x y l l' [Hk _] _ IH]; [done|]. cbn. by rewrite Hk, IH.
  - induction H as [|x y l l' [_ Hk] _ IH]; [done|]. cbn. by rewrite Hk, IH.
Qed.

(** ** Projection engine: the front orthographic view *)

Lemma num_is_add (a b : number) (p q : Q) :
  num_is a p -> num_is b q -> num_is (a + b) (p + q).
Proof.
  intros (x & -> & Hx) (y & -> & Hy). eexists. split; [done|].
  by rewrite Qred_correct, Hx, Hy.
Qed.

Lemma num_is_sub (a b : number) (p q : Q) :
  num_is a p -> num_is b q -> num_is (a - b) (p - q).
Proof.
  intros (x & -> & Hx) (y & -> & Hy). eexists. split; [done|].
  by rewrite Qred_correct, Hx, Hy.
Qed.

Lemma num_is_mul (a b : number) (p q : Q) :
  num_is a p -> num_is b q -> num_is (a * b) (p * q).
Proof.
  intros (x & -> & Hx) (y & -> & Hy). eexists. split; [done|].
  by rewrite Qred_correct, Hx, Hy.
Qed.

Lemma num_is_neg (a : number) (p : Q) : num_is a p -> num_is (- a) (- p).
Proof.
  intros (x & -> & Hx). eexists. split; [done|].
  by rewrite Qred_correct, Hx.
Qed.

Lemma num_is_div_2 (a : number) (p : Q) :
  num_is a p -> num_is (a / lit 2) (p / 2).
Proof.
  intros (x & -> & Hx). eexists. split; [done|].
  by rewrite Qred_correct, Hx.
Qed.

Lemma num_is_lit (q : Q) : num_is (lit q) q.
Proof. eexists. split; [done|]. apply Qred_correct. Qed.

Lemma num_is_of_nat (n : nat) : num_is (of_nat n) (inject_Z (Z.of_nat n)).
Proof. by eexists. Qed.

Lemma num_is_of_Z (z : Z) : num_is (of_Z z) (inject_Z z).
Proof. by eexists. Qed.

Lemma num_is_ext (a : number) (p q : Q) : num_is a p -> (p == q)%Q -> num_is a q.
Proof. intros (x & -> & Hx) Hpq. eexists. split; [done|]. by rewrite Hx. Qed.

Section FrontView.

(** What is assumed of the engine: [Math.PI] is finite, and the sine and
    cosine of 0 are 0 and 1. *)
Hypothesis Math_PI_finite : finite Math_PI.
Hypothesis Math_sin_0 : Math_sin (Num 0) = Num 0.
Hypothesis Math_cos_0 : Math_cos (Num 0) = Num 1.

(** X22: the front orthographic view.  With yaw 0, pitch 0, zoom 1, no pan
    and the orthographic projection, the unit at row [r] and column [c] of
    layer [l] is drawn at x = 400 + 250 l - 125 (L - 1) for [L] layers and
    y = 300 + 80 r - 40 (rows - 1), at scale 1, and its depth is
    80 c - 40 (cols - 1): layers are spaced 250 apart and rows 80 apart,
    each centred on the screen point (400, 300), and only a network of one
    layer with one row has its first unit at (400, 300) itself. *)
Theorem front_orthographic_projection (vw : View) (l r c : nat)
    (dim : LayerDim) :
  front_orthographic vw -> layerDims vw !! l = Some dim ->
  let pos := project3D vw l r c in
  let L := inject_Z (Z.of_nat (length (layerDims vw))) in
  num_is (pos_x pos)
    (400 + 250 * inject_Z (Z.of_nat l) - 125 * (L - 1)) /\
  num_is (pos_y pos)
    (300 + 80 * inject_Z (Z.of_nat r) - 40 * (inject_Z (rows dim) - 1)) /\
  num_is (pos_scale pos) 1 /\
  num_is (pos_depth pos)
    (80 * inject_Z (Z.of_nat c) - 40 * (inject_Z (cols dim) - 1)).
Proof.
  intros (Hcam & Ho & Hs & Hoff) Hdim pos L.
  destruct (proj1 (isFinite_Num Math_PI) Math_PI_finite) as [pi Epi].
  assert (Hrot : exists x2 y2 z2,
            rotate3D vw l r c = (x2, y2, z2) /\
            num_is x2 (250 * inject_Z (Z.of_nat l) - 125 * (L - 1)) /\
            num_is y2 (80 * inject_Z (Z.of_nat r)
                       - 40 * (inject_Z (rows dim) - 1)) /\
            num_is z2 (80 * inject_Z (Z.of_nat c)
                       - 40 * (inject_Z (cols dim) - 1))).
  { unfold rotate3D. cbv zeta. rewrite Hdim, Hcam, Epi.
    cbn [cam_h cam_v default from_option id].
    assert (Hrad : lit 0 * Num pi / lit 180 = Num 0).
    { reflexivity. }
    rewrite Hrad, Math_sin_0, Math_cos_0.
    eexists _, _, _. split; [done|].
    assert (Hx : num_is
              (- ((of_nat (length (layerDims vw)) - lit 1) * lit 250) / lit 2
               + of_nat l * lit 250)
              (250 * inject_Z (Z.of_nat l) - 125 * (L - 1))).
    { eapply num_is_ext.
      - apply num_is_add; [|apply num_is_mul;
                             [apply num_is_of_nat|apply num_is_lit]].
        apply num_is_div_2, num_is_neg, num_is_mul; [|apply num_is_lit].
        apply num_is_sub; [apply num_is_of_nat|apply num_is_lit].
      - unfold L. field. }
    assert (Hy : num_is
              (- ((of_Z (rows dim) - lit 1) * lit 80) / lit 2
               + of_nat r * lit 80)
              (80 * inject_Z (Z.of_nat r) - 40 * (inject_Z (rows dim) - 1))).
    { eapply num_is_ext.
      - apply num_is_add; [|apply num_is_mul;
                             [apply num_is_of_nat|apply num_is_lit]].
        apply num_is_div_2, num_is_neg, num_is_mul; [|apply num_is_lit].
        apply num_is_sub; [apply num_is_of_Z|apply num_is_lit].
      - field. }
    assert (Hz : num_is
              (- ((of_Z (cols dim) - lit 1) * lit 80) / lit 2
               + of_nat c * lit 80)
              (80 * inject_Z (Z.of_nat c) - 40 * (inject_Z (cols dim) - 1))).
    { eapply num_is_ext.
      - apply num_is_add; [|apply num_is_mul;
                             [apply num_is_of_nat|apply num_is_lit]].
        apply num_is_div_2, num_is_neg, num_is_mul; [|apply num_is_lit].
        apply num_is_sub; [apply num_is_of_Z|apply num_is_lit].
      - field. }
    assert (H0 : num_is (Num 0) 0) by (by eexists).
    assert (H1 : num_is (Num 1) 1) by (by eexists).
    split; [|split].
    - eapply num_is_ext.
      + apply num_is_sub; apply num_is_mul; [exact Hx|exact H1|exact Hz|exact H0].
      + ring.
    - eapply num_is_ext.
      + apply num_is_sub; [apply num_is_mul; [exact Hy|exact H1]|].
        apply num_is_mul; [|exact H0].
        apply num_is_add; apply num_is_mul; [exact Hx|exact H0|exact Hz|exact H1].
      + ring.
    - eapply num_is_ext.
      + apply num_is_add; [apply num_is_mul; [exact Hy|exact H0]|].
        apply num_is_mul; [|exact H1].
        apply num_is_add; apply num_is_mul; [exact Hx|exact H0|exact Hz|exact H1].
      + ring. }
  destruct Hrot as (x2 & y2 & z2 & Hrot & Hx & Hy & Hz).
  subst pos. unfold project3D. rewrite Hrot, Ho, Hs, Hoff.
  cbn [pos_x pos_y pos_scale pos_depth off_x off_y].
  split; [|split; [|split]].
  - eapply num_is_ext.
    + apply num_is_add; [|apply num_is_lit].
      apply num_is_add; [apply num_is_lit|].
      apply num_is_mul; [|apply num_is_lit].
      apply num_is_mul; [exact Hx|apply num_is_lit].
    + ring.
  - eapply num_is_ext.
    + apply num_is_add; [|apply num_is_lit].
      apply num_is_add; [apply num_is_lit|].
      apply num_is_mul; [|apply num_is_lit].
      apply num_is_mul; [exact Hy|apply num_is_lit].
    + ring.
  - eapply num_is_ext.
    + apply num_is_mul; apply num_is_lit.
    + ring.
  - done.
Qed.

End FrontView.

(** ** Axis gizmo *)

Lemma sort_insert_Sorted_key {A} (d : A -> number) (x : A) (l : list A) :
  isNaN (d x) = false -> Forall (fun y => isNaN (d y) = false) l ->
  Sorted (fun a b => (d a <=? d b) = true) l ->
  Sorted (fun a b => (d a <=? d b) = true)
    (sort_insert (fun a b => d a - d b) x l).
Proof.
  intros Hx Hl Hs. induction l as [|y l IH]; cbn [sort_insert].
  - by repeat constructor.
  - apply Forall_cons in Hl as [Hy Hl].
    apply Sorted_inv in Hs as [Hs Hhd].
    rewrite sub_gt_0 by done.
    destruct (d x <? d y) eqn:E.
    + constructor; [by constructor|]. constructor. by apply lt_le.
    + constructor; [by apply IH|].
      assert (Hyx : (d y <=? d x) = true) by (by apply not_lt_le).
      destruct l as [|z l]; cbn [sort_insert].
      * by constructor.
      * destruct (d z - d x >? lit 0); constructor; [done|].
        by apply HdRel_inv in Hhd.
Qed.

Lemma Array_sort_Sorted_key {A} (d : A -> number) (l : list A) :
  Forall (fun y => isNaN (d y) = false) l ->
  Sorted (fun a b => (d a <=? d b) = true)
    (Array_sort (fun a b => d a - d b) l).
Proof.
  unfold Array_sort.
  assert (H : forall acc,
            Forall (fun y => isNaN (d y) = false) acc ->
            Sorted (fun a b => (d a <=? d b) = true) acc ->
            Forall (fun y => isNaN (d y) = false) l ->
            Sorted (fun a b => (d a <=? d b) = true)
              (foldl (fun sorted x =>
                        sort_insert (fun a b => d a - d b) x sorted) acc l)).
  { induction l as [|x l IH]; intros acc Hacc Hs Hl; [done|].
    apply Forall_cons in Hl as [Hx Hl]. simpl. apply IH; [| |done].
    - by apply sort_insert_Forall.
    - by apply sort_insert_Sorted_key. }
  intros Hl. apply H; [constructor|constructor|done].
Qed.

(** The end point of the axis (p, q, r) when the four coefficients are the
    rationals ch, sh, cv and sv. *)
Lemma projectAxis_num (vw : View) (p q r ch sh cv sv : Q) :
  Math_cos (radH vw) = Num ch -> Math_sin (radH vw) = Num sh ->
  Math_cos (radV vw) = Num cv -> Math_sin (radV vw) = Num sv ->
  let e := projectAxis vw (Num p) (Num q) (Num r) in
  num_is (end_x e) (50 + (p * ch - r * sh) * 35) /\
  num_is (end_y e) (50 + (q * cv - (p * sh + r * ch) * sv) * 35) /\
  num_is (end_z e) (q * sv + (p * sh + r * ch) * cv).
Proof.
  unfold radH, radV. intros Hch Hsh Hcv Hsv. unfold projectAxis.
  cbv zeta. rewrite Hch, Hsh, Hcv, Hsv. cbn [end_x end_y end_z].
  assert (Hn : forall x, num_is (Num x) x) by (by eexists).
  split; [|split].
  - apply num_is_add; [apply num_is_lit|].
    apply num_is_mul; [|apply num_is_lit].
    apply num_is_sub; apply num_is_mul; apply Hn.
  - apply num_is_add; [apply num_is_lit|].
    apply num_is_mul; [|apply num_is_lit].
    apply num_is_sub; apply num_is_mul; try apply Hn.
    apply num_is_add; apply num_is_mul; apply Hn.
  - apply num_is_add; apply num_is_mul; try apply Hn.
    apply num_is_add; apply num_is_mul; apply Hn.
Qed.

Lemma num_is_between (a : number) (v lo hi : Q) :
  num_is a v -> (lo <= v)%Q -> (v <= hi)%Q -> between (Num lo) (Num hi) a.
Proof.
  intros (x & -> & Hx) H1 H2. apply between_intro; by rewrite Hx.
Qed.

(** X25: the axis gizmo.  When the sines and cosines of the two camera
    angles lie in [-1, 1], the gizmo's origin is the point (50, 50) at
    depth 0; its items are the three axes X, Y and Z, each once, in an order
    in which the depth of the end point never decreases, so that an axis
    pointing towards the viewer is drawn over one pointing away; and every
    end point lies in the square from 15 to 85 of the 100 x 100 drawing, at
    a depth between -1 and 1. *)
Theorem gizmo_drawing (vw : View) :
  trig_unit vw ->
  num_is (end_x (gizmo_origin vw)) 50 /\
  num_is (end_y (gizmo_origin vw)) 50 /\
  num_is (end_z (gizmo_origin vw)) 0 /\
  gizmo_items vw ≡ₚ gizmo_axes vw /\
  Sorted end_z_le (gizmo_items vw) /\
  Forall (fun item => in_gizmo_box (giz_end item)) (gizmo_items vw).
Proof.
  intros (Hch & Hsh & Hcv & Hsv).
  change (lit (-1)) with (Num (-1)%Q) in *. change (lit 1) with (Num 1) in *.
  apply between_inv in Hch as (ch & Ech & Hch1 & Hch2).
  apply between_inv in Hsh as (sh & Esh & Hsh1 & Hsh2).
  apply between_inv in Hcv as (cv & Ecv & Hcv1 & Hcv2).
  apply between_inv in Hsv as (sv & Esv & Hsv1 & Hsv2).
  pose proof (projectAxis_num vw 0 0 0 ch sh cv sv Ech Esh Ecv Esv) as H0.
  pose proof (projectAxis_num vw 1 0 0 ch sh cv sv Ech Esh Ecv Esv) as HX.
  pose proof (projectAxis_num vw 0 1 0 ch sh cv sv Ech Esh Ecv Esv) as HY.
  pose proof (projectAxis_num vw 0 0 1 ch sh cv sv Ech Esh Ecv Esv) as HZ.
  cbv zeta in H0, HX, HY, HZ.
  destruct H0 as (H0x & H0y & H0z), HX as (HXx & HXy & HXz),
    HY as (HYx & HYy & HYz), HZ as (HZx & HZy & HZz).
  assert (Hss : (-1 <= sh * sv)%Q /\ (sh * sv <= 1)%Q) by (split; nra).
  assert (Hsc : (-1 <= sh * cv)%Q /\ (sh * cv <= 1)%Q) by (split; nra).
  assert (Hcs : (-1 <= ch * sv)%Q /\ (ch * sv <= 1)%Q) by (split; nra).
  assert (Hcc : (-1 <= ch * cv)%Q /\ (ch * cv <= 1)%Q) by (split; nra).
  assert (Hbox : Forall (fun item => in_gizmo_box (giz_end item))
                   (gizmo_axes vw)).
  { unfold gizmo_axes, in_gizmo_box.
    change (lit 15) with (Num 15). change (lit 85) with (Num 85).
    change (lit (-1)) with (Num (-1)%Q). change (lit 1) with (Num 1).
    change (lit 0) with (Num 0).
    apply Forall_cons_2; [|apply Forall_cons_2; [|apply Forall_cons_2;
                                                    [|apply Forall_nil_2]]].
    all: cbn [giz_end]; refine (conj _ (conj _ _)).
    all: eapply num_is_between; [eassumption| |]; nra. }
  split_and!.
  - eapply num_is_ext; [exact H0x|ring].
  - eapply num_is_ext; [exact H0y|ring].
  - eapply num_is_ext; [exact H0z|ring].
  - apply Array_sort_Permutation.
  - apply (Array_sort_Sorted_key (fun item => end_z (giz_end item))).
    eapply Forall_impl; [exact Hbox|].
    intros item (_ & _ & Hz).
    change (lit (-1)) with (Num (-1)%Q) in Hz. change (lit 1) with (Num 1) in Hz.
    by apply between_inv in Hz as (z & -> & _).
  - unfold gizmo_items.
    by rewrite (Array_sort_Permutation by_end_z (gizmo_axes vw)).
Qed.

(** ** Layer size controls *)

(** X23: the + and - buttons of a layer.  On an existing layer, one press
    changes only the chosen extent of that layer, by one step kept within 1
    to 8, and leaves the number of layers and every other layer as they
    were; + followed by - restores the architecture when the extent was
    below 8, and - followed by + when it was above 1; at 8 the + button and
    at 1 the - button change nothing. *)
Theorem modifyLayer_steps (dims : list LayerDim) (lIdx : nat) (dKey : DimKey)
    (d : LayerDim) :
  dims !! lIdx = Some d ->
  (1 <= rows d <= 8)%Z -> (1 <= cols d <= 8)%Z ->
  let extent := fun (x : LayerDim) =>
    match dKey with key_rows => rows x | key_cols => cols x end in
  let other := fun (x : LayerDim) =>
    match dKey with key_rows => cols x | key_cols => rows x end in
  (forall delta,
     length (modifyLayer lIdx dKey delta dims) = length dims /\
     (forall j, j <> lIdx ->
        modifyLayer lIdx dKey delta dims !! j = dims !! j) /\
     exists d', modifyLayer lIdx dKey delta dims !! lIdx = Some d' /\
       extent d' = Z.max 1 (Z.min 8 (extent d + delta)) /\
       other d' = other d) /\
  ((extent d < 8)%Z ->
   modifyLayer lIdx dKey (-1) (modifyLayer lIdx dKey 1 dims) = dims) /\
  ((1 < extent d)%Z ->
   modifyLayer lIdx dKey 1 (modifyLayer lIdx dKey (-1) dims) = dims) /\
  (extent d = 8%Z -> modifyLayer lIdx dKey 1 dims = dims) /\
  (extent d = 1%Z -> modifyLayer lIdx dKey (-1) dims = dims).
Proof.
  intros Hd Hr Hc extent other.
  assert (Hfix : forall f : LayerDim -> LayerDim,
            f d = d -> alter f lIdx dims = dims).
  { intros f Hf. apply list_eq. intros j.
    destruct (decide (lIdx = j)) as [<-|Hj].
    - by rewrite list_lookup_alter_eq, Hd; cbn; rewrite Hf.
    - by rewrite list_lookup_alter_ne. }
  assert (Hcomp : forall f g : LayerDim -> LayerDim,
            alter f lIdx (alter g lIdx dims)
            = alter (fun x => f (g x)) lIdx dims).
  { intros f g. apply list_eq. intros j.
    destruct (decide (lIdx = j)) as [<-|Hj].
    - rewrite !list_lookup_alter_eq. by destruct (dims !! lIdx).
    - by rewrite !list_lookup_alter_ne. }
  split_and!.
  - intros delta. unfold modifyLayer. split_and!.
    + by rewrite length_alter.
    + intros j Hj. by rewrite list_lookup_alter_ne.
    + rewrite list_lookup_alter_eq, Hd. cbn. eexists. split; [done|].
      subst extent other. by destruct dKey.
  - intros Hlt. unfold modifyLayer. rewrite Hcomp.
    apply Hfix. subst extent. destruct d as [r c], dKey; cbn in *; f_equal; lia.
  - intros Hgt. unfold modifyLayer. rewrite Hcomp.
    apply Hfix. subst extent. destruct d as [r c], dKey; cbn in *; f_equal; lia.
  - intros He. apply Hfix. subst extent.
    destruct d as [r c], dKey; cbn in *; f_equal; lia.
  - intros He. apply Hfix. subst extent.
    destruct d as [r c], dKey; cbn in *; f_equal; lia.
Qed.

(** ** Projection engine: the perspective scale *)

(** X24: the perspective scale has the sign of [fov - depth], and nothing
    guards the division.  In perspective mode with a positive zoom, a unit
    whose rotated depth is below 1000 gets a positive finite scale, one
    whose depth is above 1000 a negative finite scale, and one whose depth
    is exactly 1000 the scale +Infinity, with screen coordinates that are
    not finite numbers. *)
Theorem perspective_scale_sign (vw : View) (l r c : nat) (x2 y2 : number)
    (z s : Q) :
  isOrtho vw = false -> viewScale vw = Num s -> (0 < s)%Q ->
  rotate3D vw l r c = (x2, y2, Num z) ->
  let pos := project3D vw l r c in
  ((z < 1000)%Q -> exists q, pos_scale pos = Num q /\ (0 < q)%Q) /\
  ((1000 < z)%Q -> exists q, pos_scale pos = Num q /\ (q < 0)%Q) /\
  ((z == 1000)%Q ->
   pos_scale pos = Infinity /\
   isFinite (pos_x pos) = false /\ isFinite (pos_y pos) = false).
Proof.
  intros Ho Hs Hpos Hrot pos. subst pos. unfold project3D.
  rewrite Hrot, Ho, Hs. cbn [pos_scale pos_x pos_y].
  assert (Hsz : Qis_zero s = false).
  { apply not_true_is_false. rewrite Qis_zero_spec. lra. }
  assert (Hsn : Qis_neg s = false).
  { unfold Qis_neg. apply Z.ltb_ge. unfold Qlt in Hpos. simpl in Hpos. lia. }
  assert (Hsub : fov - Num z = Num (Qred (1000 - z))) by reflexivity.
  rewrite Hsub. unfold fov. change (lit 1000) with (Num 1000).
  cbn [div]. rewrite Qis_zero_Qred.
  destruct (Qis_zero (1000 - z)) eqn:E.
  - apply Qis_zero_spec in E. split_and!.
    + intros. lra.
    + intros. lra.
    + intros _. change (Qis_zero 1000) with false. cbv iota.
      change (Qis_neg 1000) with false.
      split_and!.
      * cbn [mul]. by rewrite Hsz, Hsn.
      * destruct x2 as [|t|x]; cbn [mul add]; [done| |].
        -- rewrite Hsz. cbn. by destruct (off_x (viewOffset vw)) as [|[]|];
             destruct t, (Qis_neg s).
        -- destruct (Qis_zero (Qred (x * s))); cbn; [done|].
           by destruct (off_x (viewOffset vw)) as [|[]|];
             destruct (Qis_neg (Qred (x * s))).
      * destruct y2 as [|t|y]; cbn [mul add]; [done| |].
        -- rewrite Hsz. cbn. by destruct (off_y (viewOffset vw)) as [|[]|];
             destruct t, (Qis_neg s).
        -- destruct (Qis_zero (Qred (y * s))); cbn; [done|].
           by destruct (off_y (viewOffset vw)) as [|[]|];
             destruct (Qis_neg (Qred (y * s))).
  - assert (Hne : ~ (1000 - z == 0)%Q).
    { intros H. apply Qis_zero_spec in H. congruence. }
    cbn [mul]. split_and!.
    + intros Hz. eexists. split; [done|]. rewrite !Qred_correct.
      apply Qmult_lt_0_compat; [|done].
      apply Qlt_shift_div_l; lra.
    + intros Hz. eexists. split; [done|]. rewrite !Qred_correct.
      assert (E1 : (1000 / (1000 - z) == - (1000 / (z - 1000)))%Q)
        by (field; lra).
      assert (0 < 1000 / (z - 1000))%Q by (apply Qlt_shift_div_l; lra).
      rewrite E1. nra.
    + intros Hz. lra.
Qed.
End Engine.

(** * Instances *)

(** ** The example networks satisfy the dimension invariant *)

Ltac solve_dims :=
  let i := fresh "i" in let m := fresh "m" in let H := fresh "H" in
  intros i m H;
  repeat (destruct i as [|i]; [injection H as <-; repeat constructor|]);
  discriminate H.

Lemma net_1_1_wf : wf net_1_1.
Proof. split; try reflexivity; try solve_dims. simpl. lia. Qed.

Lemma net_1_1_1_wf : wf net_1_1_1.
Proof. split; try reflexivity; try solve_dims. simpl. lia. Qed.

Lemma net_2_2_1_leaky_wf : wf net_2_2_1_leaky.
Proof. split; try reflexivity; try solve_dims. simpl. lia. Qed.

(** ** The rational stand-ins have the properties assumed of the engine *)

Lemma exp_approx_nonneg (x : number) :
  isFinite x = true -> (lit 0 <=? exp_approx x)%js = true.
Proof.
  destruct x as [| s | q]; try discriminate. intros _.
  unfold exp_approx. destruct (Qltb q 0) eqn:E; unfold lit; simpl.
  - apply Qltb_spec in E. rewrite negb_true_iff, Qltb_false.
    rewrite !Qred_correct. apply Qle_shift_div_l; lra.
  - apply Qltb_false in E. rewrite negb_true_iff, Qltb_false.
    rewrite !Qred_correct. lra.
Qed.

Lemma exp_approx_neg_le_1 (x : number) :
  isFinite x = true -> (x <? lit 0)%js = true ->
  (exp_approx x <=? lit 1)%js = true.
Proof.
  destruct x as [| s | q]; try discriminate. intros _.
  intros Hq. change (Qltb q 0 = true) in Hq.
  unfold exp_approx. rewrite Hq. apply Qltb_spec in Hq.
  change (negb (Qltb (Qred 1) (Qred (1 / (1 - q)))) = true).
  rewrite negb_true_iff, Qltb_false, !Qred_correct.
  apply Qle_shift_div_r; lra.
Qed.

Lemma tanh_approx_finite (x : number) :
  isFinite x = true -> isFinite (tanh_approx x) = true.
Proof. by destruct x. Qed.

(** ** The theorems at concrete inputs *)

(** C3 at the 2-2-1 LeakyReLU network with input (0.5, 0.25): the hidden
    pre-activations are 0.5 * 0.5 + 0.25 * 0.25 + 0.125 = 0.4375 and
    0.5 * (-0.25) + 0.25 * 0.5 + 0.125 = 0.125, and the output is
    0.4375 * 0.5 + 0.125 * (-0.5) + 0.125 = 0.28125. *)
Lemma forward_finite_witness :
  preActivations
    (fst (forward exp_approx tanh_approx net_2_2_1_leaky [lit 0.5; lit 0.25]))
    !! 1%nat = Some [lit 0.4375; lit 0.125] /\
  preActivations
    (fst (forward exp_approx tanh_approx net_2_2_1_leaky [lit 0.5; lit 0.25]))
    !! 2%nat = Some [lit 0.28125] /\
  snd (forward exp_approx tanh_approx net_2_2_1_leaky [lit 0.5; lit 0.25])
  = [lit 0.28125] /\
  Forall (fun v => isFinite v = true)
    (snd (forward exp_approx tanh_approx net_2_2_1_leaky [lit 0.5; lit 0.25])).
Proof.
  destruct (forward_finite exp_approx tanh_approx exp_approx_nonneg
              exp_approx_neg_le_1 tanh_approx_finite net_2_2_1_leaky
              [lit 0.5; lit 0.25] net_2_2_1_leaky_wf (le_S _ _ (le_n 2))
              eq_refl)
    as (Hv0 & Hlayers & Hout & _ & Hfin).
  destruct (Hlayers 0%nat (le_S _ _ (le_n 1)))
    as (prev0 & pre0 & Hp0 & Hpre0 & E0 & Hval0).
  destruct (Hlayers 1%nat (le_n 2))
    as (prev1 & pre1 & Hp1 & Hpre1 & E1 & Hval1).
  rewrite Hv0 in Hp0. injection Hp0 as <-.
  rewrite Hval0 in Hp1. injection Hp1 as <-.
  assert (H0 : pre0 = [lit 0.4375; lit 0.125])
    by (rewrite E0; vm_compute; reflexivity).
  assert (H1 : pre1 = [lit 0.28125])
    by (rewrite E1, H0; vm_compute; reflexivity).
  rewrite Hpre0, Hpre1, H0, H1.
  split; [reflexivity|]. split; [reflexivity|]. split; [|exact Hfin].
  change (length (layerSizes net_2_2_1_leaky) - 1)%nat with 2%nat in Hout.
  rewrite Hval1, H1 in Hout.
  refine (eq_trans (f_equal (default []) (eq_sym Hout)) _).
  vm_compute. reflexivity.
Defined.

(** C6 at two units of the same row of layer 1 seen from the front: depths
    -40 and 40. *)
Lemma perspective_scale_monotone_witness :
  pos_scale (project3D sin_axis cos_axis pi_approx view_front 1 0 0)
  <> pos_scale (project3D sin_axis cos_axis pi_approx view_front 1 0 1) /\
  (pos_scale (project3D sin_axis cos_axis pi_approx view_front 1 0 0)
   <? pos_scale (project3D sin_axis cos_axis pi_approx view_front 1 0 1))%js
  = true.
Proof.
  apply (perspective_scale_monotone sin_axis cos_axis pi_approx view_front
           1 0 0 1 0 1 (lit (-125)) (lit (-40)) (lit (-125)) (lit (-40))
           (-40) 40 1);
    reflexivity.
Defined.

(** C7 at the initial architecture seen from the front. *)
Lemma renderItems_sorted_witness :
  sorted_by_depth
    (renderItems sin_axis cos_axis pi_approx view_front stats_1_1_1).
Proof.
  apply (renderItems_sorted sin_axis cos_axis pi_approx view_front
           stats_1_1_1).
  repeat split; reflexivity.
Defined.

(** C9 at two frames on the 1-1-1 network with a learning rate that keeps
    the loss away from the threshold. *)
Lemma turbo_epochs_witness :
  epochRef (turbo exp_approx tanh_approx 2 [lit 1] [lit 1] (lit 1000)
              sim_1_1_1)
  = 20%Z.
Proof.
  refine (proj1 (proj2 (proj2 (proj2 (proj2
            (turbo_epochs exp_approx tanh_approx [lit 1] [lit 1] (lit 1000)
               2 sim_1_1_1 eq_refl _))))) eq_refl).
  intros m Hm. destruct m as [|[|m]]; [vm_compute; reflexivity ..|lia].
Defined.

(** C10 at layer indices 0 and 3 of the three-layer network. *)
Lemma setLayerBias_out_of_range_witness :
  setLayerBias net_1_1_1 0 (lit 5) = net_1_1_1 /\
  setLayerBias net_1_1_1 3 (lit 5) = net_1_1_1.
Proof.
  split; apply setLayerBias_out_of_range; try reflexivity; simpl; lia.
Defined.

(** ** Counterexamples to the claims as stated *)

(** C4 as stated fails: whatever the engine, the constructor does not fail
    on the one-layer architecture [3], nor on [0; 2]. *)
Lemma constructor_invalid_sizes_counterexample :
  ~ exists Math_sqrt Math_random,
      constructor Math_sqrt Math_random 0 [3]%Z [SIGMOID] = Throw_RangeError \/
      constructor Math_sqrt Math_random 0 [0; 2]%Z [SIGMOID; SIGMOID]
        = Throw_RangeError.
Proof. intros (s & r & [H|H]); vm_compute in H; discriminate H. Qed.

(** The two units of the side view used below, with their scales. *)
Example side_view_scales :
  rotate3D sin_axis cos_axis pi_approx view_side_10 8 0 7
    = (lit (-280), lit 0, lit 875) /\
  rotate3D sin_axis cos_axis pi_approx view_side_10 9 0 7
    = (lit (-280), lit 0, lit 1125) /\
  pos_scale (project3D sin_axis cos_axis pi_approx view_side_10 8 0 7)
    = lit 8 /\
  pos_scale (project3D sin_axis cos_axis pi_approx view_side_10 9 0 7)
    = lit (-8).
Proof. vm_compute. repeat split. Qed.

(** C6 as stated fails for ten layers seen from the side: the last units
    of the ninth and the tenth layer are rotated to (-280, 0, 875) and
    (-280, 0, 1125); the nearer one, beyond the field-of-view constant, gets
    the scale -8, the farther one the scale 8. *)
Lemma nearer_is_larger_counterexample :
  ~ nearer_is_larger sin_axis cos_axis pi_approx view_side_10
      (8, 0, 7)%nat (9, 0, 7)%nat.
Proof.
  intros H. vm_compute in H.
  destruct (H eq_refl eq_refl eq_refl eq_refl) as [_ H']. discriminate H'.
Qed.

(** ** Further instances *)

Lemma random_alternating_unit (n : nat) :
  between (Num 0) (Num 1) (random_alternating n).
Proof. unfold random_alternating. by destruct (Nat.even n). Qed.

Lemma sqrt_upper_pos (z : Z) :
  (1 <= z)%Z -> exists s, sqrt_upper (of_Z z) = Num s /\ (0 < s)%Q.
Proof.
  intros Hz. eexists. split; [reflexivity|].
  rewrite Qred_correct. apply Qlt_shift_div_l; [lra|].
  assert (H : (inject_Z 1 <= inject_Z z)%Q) by (by rewrite <- Zle_Qle).
  change (inject_Z 1) with 1%Q in H. lra.
Qed.

Lemma net_1_1_1_stable : stable_weights net_1_1_1.
Proof. repeat split; repeat constructor. Qed.

Lemma input_1_fits :
  (length [lit 1] <= bound (layerSizes net_1_1_1) 0)%nat.
Proof. vm_compute. lia. Qed.

Lemma initial_layers_valid : dims_valid (fst initial_layers).
Proof. split; [simpl; lia|]. repeat constructor; simpl; lia. Qed.

(** ** The further theorems at concrete inputs *)

(** X1 at sizes 2 and 1. *)
Lemma constructor_dimensions_witness :
  exists net,
    constructor sqrt_upper random_alternating 0 [2; 1]%Z [SIGMOID; SIGMOID]
      = Ok net /\ wf net.
Proof.
  eexists. split; [vm_compute; reflexivity|].
  apply (constructor_dimensions sqrt_upper random_alternating 0 [2; 1]%Z
           [SIGMOID; SIGMOID]); [simpl; lia|reflexivity|].
  vm_compute. reflexivity.
Defined.

(** X2 at sizes 2 and 1. *)
Lemma constructor_initial_state_witness :
  exists net,
    constructor sqrt_upper random_alternating 0 [2; 1]%Z [SIGMOID; SIGMOID]
      = Ok net /\ stable_params net.
Proof.
  eexists. split; [vm_compute; reflexivity|].
  apply (constructor_initial_state sqrt_upper random_alternating
           random_alternating_unit sqrt_upper_pos 0 [2; 1]%Z
           [SIGMOID; SIGMOID]); [repeat constructor; lia|].
  vm_compute. reflexivity.
Defined.

(** X3 at a training step of the 1-1-1 network. *)
Lemma wf_preserved_witness :
  wf (train exp_approx tanh_approx net_1_1_1 [lit 1] [lit 1] (lit 0.5)).
Proof.
  exact (proj1 (proj2 (wf_preserved exp_approx tanh_approx net_1_1_1
                         net_1_1_1_wf)) [lit 1] [lit 1] (lit 0.5)
           input_1_fits).
Defined.

(** X4 at the hidden layer of the 1-1-1 network. *)
Lemma setLayerBias_in_range_witness :
  biases (setLayerBias net_1_1_1 1 (lit 0.5)) !! 0%nat = Some [lit 0.5].
Proof.
  refine (proj1 (setLayerBias_in_range exp_approx tanh_approx net_1_1_1 1
                   (lit 0.5) [lit 1] net_1_1_1_wf _ input_1_fits)).
  simpl. lia.
Defined.

(** X5 at the 1-1-1 network with caches holding 9. *)
Lemma forward_ignores_caches_witness :
  forward exp_approx tanh_approx
    (with_caches net_1_1_1 [[lit 9]; [lit 9]; [lit 9]]
                           [[lit 9]; [lit 9]; [lit 9]]) [lit 1]
  = forward exp_approx tanh_approx net_1_1_1 [lit 1].
Proof.
  exact (forward_ignores_caches exp_approx tanh_approx net_1_1_1
           [[lit 9]; [lit 9]; [lit 9]] [[lit 9]; [lit 9]; [lit 9]] [lit 1]
           net_1_1_1_wf input_1_fits eq_refl eq_refl).
Defined.

(** X6 at the output weight of the 1-1-1 network. *)
Lemma train_updates_witness :
  at3 (weights (train exp_approx tanh_approx net_1_1_1 [lit 1] [lit 1]
                  (lit 0.5))) 1 0 0
  = Some (lit 0.6875).
Proof.
  exact (proj1 (train_updates exp_approx tanh_approx net_1_1_1 [lit 1]
                  [lit 1] (lit 0.5) net_1_1_1_wf input_1_fits 1%nat)
               0%nat 0%nat (lit 0.5) eq_refl).
Defined.

(** X7 at three training steps of the 1-1-1 network towards the target
    [+Infinity]. *)
Lemma training_keeps_weights_finite_witness :
  stable_weights
    (train_n exp_approx tanh_approx 3 [lit 1] [Infinity] (lit 0.5)
       net_1_1_1).
Proof.
  exact (proj2 (training_keeps_weights_finite exp_approx tanh_approx 3
                  net_1_1_1 [lit 1] [Infinity] (lit 0.5) net_1_1_1_wf
                  net_1_1_1_stable eq_refl input_1_fits)).
Defined.


(** X9 at the 1-1-1 network, whose output for input 1 is 0.25, with target
    0.25: the first frame converges. *)
Lemma turbo_stops_at_convergence_witness :
  isPlaying (turbo exp_approx tanh_approx 3 [lit 1] [lit 0.25] (lit 0.5)
               sim_1_1_1) = false /\
  epochRef (turbo exp_approx tanh_approx 3 [lit 1] [lit 0.25] (lit 0.5)
              sim_1_1_1) = 10%Z.
Proof.
  destruct (turbo_stops_at_convergence exp_approx tanh_approx [lit 1]
              [lit 0.25] (lit 0.5) 0 3 sim_1_1_1 net_1_1_1_wf input_1_fits
              eq_refl)
    as (_ & He & _ & Hp & _).
  - intros j Hj. lia.
  - vm_compute. reflexivity.
  - lia.
  - split; [exact Hp|exact He].
Defined.

(** X10 at two cycles on the 1-1-1 network with a learning rate that
    keeps the loss away from the threshold. *)
Lemma stepped_epochs_witness :
  epochRef (sched_sim (stepped exp_approx tanh_approx 14 3 [lit 1] [lit 1]
                         (lit 1000) (pointing sim_1_1_1 FORWARD 0)))
  = 2%Z.
Proof.
  refine (proj1 (proj2 (proj2 (proj2
            (stepped_epochs exp_approx tanh_approx 3 [lit 1] [lit 1]
               (lit 1000) 2 sim_1_1_1 net_1_1_1_wf input_1_fits _ eq_refl
               _))))).
  - lia.
  - intros j Hj. destruct j as [|[|j]]; [vm_compute; reflexivity ..|lia].
Defined.

(** X12 at five ticks on the 1-1-1 network. *)
Lemma scheduler_invariant_witness :
  sched_inv 3 (stepped exp_approx tanh_approx 5 3 [lit 1] [lit 1] (lit 0.5)
                 (at_rest sim_1_1_1)).
Proof.
  refine (proj1 (scheduler_invariant exp_approx tanh_approx 5 3 [lit 1]
                   [lit 1] (lit 0.5) sim_1_1_1 net_1_1_1_wf input_1_fits
                   _ _ eq_refl)); simpl; lia.
Defined.

(** X13 at the 1-1-1 network. *)
Lemma stepped_start_and_stop_witness :
  direction (stepped exp_approx tanh_approx 1 3 [lit 1] [lit 1] (lit 0.5)
               (at_rest sim_1_1_1)) = FORWARD.
Proof.
  rewrite (proj1 (stepped_start_and_stop exp_approx tanh_approx 3 [lit 1]
                    [lit 1] (lit 0.5) 0 sim_1_1_1 net_1_1_1_wf input_1_fits
                    ltac:(lia) eq_refl)).
  reflexivity.
Defined.

(** X14 at the initial architecture. *)
Lemma addLayer_removeLayer_witness :
  removeLayer (addLayer initial_layers) = initial_layers.
Proof.
  refine (proj2 (proj2 (proj2 (proj2 (proj2 (proj2 (proj2
            (proj1 (addLayer_removeLayer (fst initial_layers)
                      (snd initial_layers) eq_refl) _)))))))).
  simpl. lia.
Defined.

(** X15 at layer 1 of the initial assignment. *)
Lemma cycleActivation_cycle_witness :
  cycle_n 5 1 (snd initial_layers) = Some (snd initial_layers).
Proof.
  exact (proj1 (proj2 (cycleActivation_cycle 1 (snd initial_layers)
                         LEAKY_RELU eq_refl))).
Defined.

(** X16 after the - button on the rows of the input layer, which leaves
    one input unit, with the two inputs and the target of the initial
    architecture: the effect replaces the inputs by one zero and keeps the
    target; [resetSimulation] raises on the two old inputs and returns on
    the new one. *)
Lemma reinitialise_editable_witness :
  exists net,
    initialize_network sqrt_upper random_alternating 0
      (modifyLayer 0 key_rows (-1) (fst initial_layers)) (snd initial_layers)
      [lit 0; lit 1] [lit 1]
    = Ok (at_rest (fresh_sim net), [Num 0], [lit 1]) /\
    wf net /\
    resetSimulation exp_approx tanh_approx sqrt_upper random_alternating 0
      (modifyLayer 0 key_rows (-1) (fst initial_layers)) (snd initial_layers)
      [lit 0; lit 1]
    = Throws_TypeError /\
    resetSimulation exp_approx tanh_approx sqrt_upper random_alternating 0
      (modifyLayer 0 key_rows (-1) (fst initial_layers)) (snd initial_layers)
      [Num 0]
    = Returns (at_rest (fresh_sim
                 (fst (forward exp_approx tanh_approx net [Num 0])))).
Proof.
  destruct (reinitialise_editable exp_approx tanh_approx sqrt_upper
              random_alternating
              (modifyLayer 0 key_rows (-1) (fst initial_layers),
               snd initial_layers)
              0 [lit 0; lit 1] [lit 1]
              (editable_modify initial_layers 0 key_rows (-1)
                 editable_initial))
    as (net & inputs' & target' & _ & Hinit & Hwf & _ & _ & _ & _ & Hin
        & _ & Htg & _ & _ & Hthrow & Hret).
  rewrite (Hin ltac:(vm_compute; lia)) in Hinit, Hret.
  rewrite (Htg eq_refl) in Hinit.
  exists net. split; [exact Hinit|]. split; [exact Hwf|].
  split; [|exact Hret]. apply Hthrow. vm_compute. lia.
Defined.

(** X17 at a drag of the canvas far down, a long turn of the wheel and a
    release. *)
Lemma interaction_ranges_witness :
  let ui := foldl handle initial_ui
              [MouseDownCanvas (lit 10) (lit 10);
               MouseMove (lit 10) (lit 500) 1;
               Wheel (lit (-10000)); MouseUp] in
  between (lit (-90)) (lit 90) (cam_v (ui_cameraAngle ui)) /\
  between (lit 0.05) (lit 5) (ui_viewScale ui).
Proof.
  destruct (interaction_ranges
              [MouseDownCanvas (lit 10) (lit 10);
               MouseMove (lit 10) (lit 500) 1;
               Wheel (lit (-10000)); MouseUp])
    as (Hpitch & Hzoom & _).
  - repeat constructor.
  - split; [exact Hpitch|exact Hzoom].
Defined.

(** X18 at the x axis from the initial camera. *)
Lemma axis_click_twice_witness :
  handleAxisClick (axis_view axis_x)
    (handleAxisClick (axis_view axis_x) initial_ui)
  = set_view (axis_view axis_x) true initial_ui.
Proof.
  exact (proj1 (proj2 (axis_click_twice axis_x initial_ui eq_refl))).
Defined.

(** X19 at a Sigmoid layer with one infinite pre-activation, in the 40 x
    20 plot. *)
Lemma activation_marker_in_plot_witness :
  let '(dotX, dotY) :=
    getActivationVisual exp_approx tanh_approx SIGMOID
      (avgPreAct [lit 0.5; Infinity]) (Num 40) (Num 20) in
  between (Num 0) (Num 40) dotX /\ between (Num 0) (Num 20) dotY.
Proof.
  apply (activation_marker_in_plot exp_approx tanh_approx exp_approx_nonneg
           exp_approx_neg_le_1 tanh_approx_finite SIGMOID
           [lit 0.5; Infinity] 40 20); discriminate.
Defined.

(** X20 at the second layer of the initial architecture seen from the
    front. *)
Lemma scene_items_witness :
  count_kind K_LAYER_CONTROL 1
    (renderItems sin_axis cos_axis pi_approx view_front stats_1_1_1)
  = 1%nat.
Proof.
  refine (proj1 (proj2 (scene_items sin_axis cos_axis pi_approx view_front
                          stats_1_1_1 1 {| rows := 2; cols := 2 |}
                          initial_layers_valid _ eq_refl))).
  discriminate.
Defined.

(** X21 at the initial architecture seen from the front, in perspective
    and in the orthographic projection. *)
Lemma drawing_order_view_independent_witness :
  map item_key
    (renderItems sin_axis cos_axis pi_approx view_front stats_1_1_1)
  = map item_key
      (renderItems sin_axis cos_axis pi_approx view_front_ortho stats_1_1_1).
Proof.
  exact (proj1 (drawing_order_view_independent sin_axis cos_axis pi_approx
                  view_front view_front_ortho stats_1_1_1 eq_refl eq_refl)).
Defined.

(** X22 at the first unit of the initial architecture: x = 25, y = 260. *)
Lemma front_orthographic_projection_witness :
  num_is (pos_x (project3D sin_axis cos_axis pi_approx view_front_ortho 0 0 0))
    25 /\
  num_is (pos_y (project3D sin_axis cos_axis pi_approx view_front_ortho 0 0 0))
    260.
Proof.
  destruct (front_orthographic_projection sin_axis cos_axis pi_approx
              eq_refl eq_refl eq_refl view_front_ortho 0 0 0
              {| rows := 2; cols := 1 |})
    as (Hx & Hy & _).
  - repeat split.
  - reflexivity.
  - split; [exact Hx|exact Hy].
Defined.

(** X23 at the rows of the second layer of the initial architecture. *)
Lemma modifyLayer_steps_witness :
  modifyLayer 1 key_rows (-1) (modifyLayer 1 key_rows 1 (fst initial_layers))
  = fst initial_layers.
Proof.
  refine (proj1 (proj2 (modifyLayer_steps (fst initial_layers) 1 key_rows
                          {| rows := 2; cols := 2 |} eq_refl _ _)) _);
    simpl; lia.
Defined.

(** X24 at the output unit of nine layers seen from the side, which lies
    at depth 1000. *)
Lemma perspective_scale_sign_witness :
  pos_scale (project3D sin_axis cos_axis pi_approx view_side_9 8 0 0)
  = Infinity.
Proof.
  refine (proj1 (proj2 (proj2
            (perspective_scale_sign sin_axis cos_axis pi_approx view_side_9
               8 0 0 (Num 0) (Num 0) 1000 1 eq_refl eq_refl _ _)) _)).
  - reflexivity.
  - vm_compute. reflexivity.
  - reflexivity.
Defined.

(** X25 at the front view. *)
Lemma gizmo_drawing_witness :
  Sorted end_z_le (gizmo_items sin_axis cos_axis pi_approx view_front).
Proof.
  refine (proj1 (proj2 (proj2 (proj2 (proj2
            (gizmo_drawing sin_axis cos_axis pi_approx view_front _)))))).
  vm_compute. repeat split.
Defined.
